(** * The lwIoT finite state machine engine ([detail_fsm::FsmBase])

    A shallow embedding of [fsm_base.h]: [Transition], [State], the packed
    state-transition-table index [SttIndex] and the engine [FsmBase] with its
    builder methods, validity checks, event queue and execution primitive.

    Conventions of the embedding.
    - [FsmStateId] is [uint32_t] and the event symbol is an integral type;
      both are values of [N], truncated where the code stores them in a
      fixed-width slot.
    - [stl::SharedPointer<StateType>] is [option State] ([None] is the null
      pointer); [stl::ReferenceWrapper<StateType>] is [option State] as well
      ([None] is the wrapper built by its default constructor).
    - The engine mutex is recursive and every method runs under it; the
      embedding is the sequential semantics of one thread.
    - The members [m_watchdog] and [m_stop_event] and the sink behind
      [m_logger] are collaborators.  What the engine does to them, and the
      state handlers it calls, is recorded in program order in the field
      [history].
    - A state handler is a function of the argument pack that yields the
      value it returns and the calls it makes, while it runs, on the engine
      that runs it ([Run]), out of the engine's public operation methods
      [transition], [raise] and [halt]; the engine executes those calls at
      the point of the handler call.  Handlers that call a builder method,
      assign to the engine or start it are not covered.
    - Operations whose C++ behaviour is not defined (a null pointer or null
      reference is dereferenced, [Map::at] misses, an empty [Function] is
      called, a parent chain is cyclic) return [Undefined]. *)

From stdpp Require Import gmap list option strings.
From Stdlib Require Import NArith Lia.

Local Open Scope N_scope.

(** ** Outcomes *)

Inductive Undef : Type :=
| MapAtMiss          (* [Map::at] on a key that is not in the map *)
| NullReference      (* [operator->] on an empty [ReferenceWrapper] *)
| NullStatePointer   (* [operator->] on a null [SharedPointer<StateType>] *)
| EmptyFunction      (* call of a [Function] that holds no target *)
| Diverges           (* unbounded recursion over a cyclic parent chain *)
| WouldBlock.        (* wait on the stop event with nobody to signal it *)

Inductive Result (A : Type) : Type :=
| Ok (a : A)
| Undefined (u : Undef).

Arguments Ok {A} a.
Arguments Undefined {A} u.

#[global] Instance Result_ret : MRet Result := fun A a => Ok a.
#[global] Instance Result_bind : MBind Result := fun A B f m =>
  match m with
  | Ok a => f a
  | Undefined u => Undefined u
  end.

(** ** Identifiers and the random source *)

Abbreviation FsmStateId := N (only parsing).
Abbreviation FsmEvent := N (only parsing).

(** [uint32_t] wrap-around. *)
Definition wrap32 (n : N) : N := n mod 2 ^ 32.

(** Modelled from the spec: the macro [BITS_PER_BYTE] is not part of the
    sources; a byte has eight bits. *)
Definition BITS_PER_BYTE : N := 8.

(** [sizeof(FsmStateIdType)], with [FsmStateId = uint32_t]. *)
Definition sizeof_FsmStateId : nat := 4.

(** Modelled from the spec: [lwiot::random()] is not part of the sources.  It
    is the random source consulted at state construction; [draws num] is the
    unsigned value returned by the call made in iteration [num]. *)
Abbreviation RandomSource := (nat → N) (only parsing).

(** The loop of [State::generateFsmStateId], [todo] iterations from [num]. *)
Fixpoint generate_loop (draws : RandomSource) (todo num : nat) (result : N) : N :=
  match todo with
  | O => result
  | S todo' =>
      let r := draws num in
      let r := r mod N.shiftl 1 BITS_PER_BYTE in
      let result := wrap32 (N.lor result (N.shiftl r (N.of_nat num * BITS_PER_BYTE))) in
      generate_loop draws todo' (S num) result
  end.

Definition generateFsmStateId (draws : RandomSource) : N :=
  generate_loop draws sizeof_FsmStateId 0 0.

(** ** The logger object and the effects on collaborators *)

Inductive Visibility : Type := Debug | Info | Critical.

Record Logger : Type := mkLogger {
  _subsys : string;
  _visibility : Visibility;
  _output : Visibility
}.

(** [Logger("fsm", stdout)] followed by the two [setVisibility] calls of the
    engine constructors. *)
Definition fsm_logger : Logger := mkLogger "fsm" Info Info.

(** [Logger()]. *)
Definition default_logger : Logger := mkLogger "" Info Info.

Inductive LogMsg : Type :=
| MissingTransition (state : N) (symbol : N)
| EpsilonTransition (state : N) (symbol : N)
| AddingState (state : N)
| ExecutionFailed.

(** ** FSM status *)

Inductive FsmStatus : Type :=
| StateUnchanged
| StateChanged
| Fault
| Error
| Stopped
| Running.

#[global] Instance FsmStatus_eq_dec : EqDecision FsmStatus.
Proof. solve_decision. Defined.

(** ** The packed table index *)

(** [SttIndex]: a union of a 64-bit integer with the pair (state id, event
    id).  Modelled from the spec: the event type of the policy is not part of
    the sources; the state id occupies the low half of the integer and the
    event the high half. *)
Definition SttIndex (stateId : N) (eventId : N) : N :=
  N.lor (wrap32 stateId) (N.shiftl (wrap32 eventId) 32).

Section Engine.

(** [Args...]: the argument pack of handlers and guards, as one value. *)
Context {Args : Type}.

(** [R] of [FsmBase<R(Args...), P, W>] is [void] or convertible to [bool]. *)
Variable returns_void : bool.

(** ** Transition *)

Record Transition : Type := mkTransition {
  m_handler : option (Args → bool);   (* guard; [None]: no guard installed *)
  m_event : N;
  m_next : N
}.

Definition hasGuard (t : Transition) : bool := bool_decide (is_Some (m_handler t)).

(** [Transition::operator bool]. *)
Definition Transition_bool (t : Transition) : bool :=
  negb (m_next t =? 0) && negb (m_event t =? 0).

(** ** State *)

(** A call that a state handler makes on the engine that runs it, out of the
    engine's public operation methods: [transition(event, args...)], the
    entry point the header gives to handlers, [raise(event, args...)] and
    [halt()].  The recursive lock lets the handler enter them while the step
    holds it. *)
Inductive Call : Type :=
| CallTransition (event : N) (args : Args)
| CallRaise (event : N) (args : Args)
| CallHalt.

(** What one run of a state handler does, as far as the engine can see: the
    value it returns and the calls it makes on that engine, in order.  A
    handler that is bound to another engine makes, for this one, no call.
    Handlers that call the builder methods, assign to the engine or start it
    are outside this model. *)
Record Run : Type := mkRun {
  returned : bool;
  requests : list Call
}.

Record State : Type := mkState {
  m_id : N;
  m_parent : N;
  m_action : option (Args → Run)   (* [None]: the handler holds no target *)
}.

(** [State()] and [State(parent)]. *)
Definition State_new (draws : RandomSource) : State :=
  mkState (generateFsmStateId draws) 0 None.

Definition State_new_child (draws : RandomSource) (parent : N) : State :=
  mkState (generateFsmStateId draws) parent None.

Definition hasAction (s : State) : bool := bool_decide (is_Some (m_action s)).
Definition hasParent (s : State) : bool := negb (m_parent s =? 0).

Definition setAction (h : Args → Run) (s : State) : State :=
  mkState (m_id s) (m_parent s) (Some h).


(** ** The engine *)

Inductive Effect : Type :=
| WatchdogReset                       (* [m_watchdog.reset()] *)
| StopSignal                          (* [m_stop_event.signal()] *)
| Action (state : N) (args : Args)    (* the handler of [state] is called *)
| Log (msg : LogMsg).                 (* a line streamed into [m_logger] *)

Record FsmBase : Type := mkFsm {
  m_events : list (N * Args);
  m_logger : Logger;
  m_stt : gmap N Transition;
  m_states : gmap N (option State);
  m_stop_states : list State;
  m_start_state : option State;
  m_current : N;
  m_error_state : option State;
  m_status : FsmStatus;
  m_in_transition : bool;
  m_alphabet : gset N;
  m_silent : bool;
  history : list Effect
}.

(** Assignments to one member. *)
Definition set_events q (e : FsmBase) : FsmBase :=
  mkFsm q (m_logger e) (m_stt e) (m_states e) (m_stop_states e) (m_start_state e)
        (m_current e) (m_error_state e) (m_status e) (m_in_transition e)
        (m_alphabet e) (m_silent e) (history e).
Definition set_stt t (e : FsmBase) : FsmBase :=
  mkFsm (m_events e) (m_logger e) t (m_states e) (m_stop_states e) (m_start_state e)
        (m_current e) (m_error_state e) (m_status e) (m_in_transition e)
        (m_alphabet e) (m_silent e) (history e).
Definition set_states m (e : FsmBase) : FsmBase :=
  mkFsm (m_events e) (m_logger e) (m_stt e) m (m_stop_states e) (m_start_state e)
        (m_current e) (m_error_state e) (m_status e) (m_in_transition e)
        (m_alphabet e) (m_silent e) (history e).
Definition set_stop_states l (e : FsmBase) : FsmBase :=
  mkFsm (m_events e) (m_logger e) (m_stt e) (m_states e) l (m_start_state e)
        (m_current e) (m_error_state e) (m_status e) (m_in_transition e)
        (m_alphabet e) (m_silent e) (history e).
Definition set_start_state r (e : FsmBase) : FsmBase :=
  mkFsm (m_events e) (m_logger e) (m_stt e) (m_states e) (m_stop_states e) r
        (m_current e) (m_error_state e) (m_status e) (m_in_transition e)
        (m_alphabet e) (m_silent e) (history e).
Definition set_current c (e : FsmBase) : FsmBase :=
  mkFsm (m_events e) (m_logger e) (m_stt e) (m_states e) (m_stop_states e) (m_start_state e)
        c (m_error_state e) (m_status e) (m_in_transition e)
        (m_alphabet e) (m_silent e) (history e).
Definition set_error_state r (e : FsmBase) : FsmBase :=
  mkFsm (m_events e) (m_logger e) (m_stt e) (m_states e) (m_stop_states e) (m_start_state e)
        (m_current e) r (m_status e) (m_in_transition e)
        (m_alphabet e) (m_silent e) (history e).
Definition set_status s (e : FsmBase) : FsmBase :=
  mkFsm (m_events e) (m_logger e) (m_stt e) (m_states e) (m_stop_states e) (m_start_state e)
        (m_current e) (m_error_state e) s (m_in_transition e)
        (m_alphabet e) (m_silent e) (history e).
Definition set_in_transition b (e : FsmBase) : FsmBase :=
  mkFsm (m_events e) (m_logger e) (m_stt e) (m_states e) (m_stop_states e) (m_start_state e)
        (m_current e) (m_error_state e) (m_status e) b
        (m_alphabet e) (m_silent e) (history e).
Definition set_alphabet a (e : FsmBase) : FsmBase :=
  mkFsm (m_events e) (m_logger e) (m_stt e) (m_states e) (m_stop_states e) (m_start_state e)
        (m_current e) (m_error_state e) (m_status e) (m_in_transition e)
        a (m_silent e) (history e).
Definition emit (x : Effect) (e : FsmBase) : FsmBase :=
  mkFsm (m_events e) (m_logger e) (m_stt e) (m_states e) (m_stop_states e) (m_start_state e)
        (m_current e) (m_error_state e) (m_status e) (m_in_transition e)
        (m_alphabet e) (m_silent e) (history e ++ [x]).

(** [FsmBase(bool silent, time_t tmo)]; [FsmBase(tmo)] is [FsmBase_new false]. *)
Definition FsmBase_new (silent : bool) : FsmBase :=
  mkFsm [] fsm_logger ∅ ∅ [] None 0 None Stopped false ∅ silent [].

(** The member initialisers of the copy and move constructors. *)
Definition FsmBase_blank : FsmBase :=
  mkFsm [] default_logger ∅ ∅ [] None 0 None Stopped false ∅ false [].

(** *** Container primitives

    Modelled from the spec: the policy's containers are not part of the
    sources.  The map inserts only if the key is absent ([emplace] reports
    whether it inserted), [operator[]] on a missing key adds a
    value-initialised entry (for the state map: a null pointer) and hands it
    out, and [at] requires the key to be present. *)
Definition map_contains {V} (m : gmap N V) (k : N) : bool := bool_decide (is_Some (m !! k)).

Definition map_emplace {V} (k : N) (v : V) (m : gmap N V) : gmap N V * bool :=
  match m !! k with
  | Some _ => (m, false)
  | None => (<[k := v]> m, true)
  end.

Definition map_at {V} (m : gmap N V) (k : N) : Result V :=
  match m !! k with
  | Some v => Ok v
  | None => Undefined MapAtMiss
  end.

Definition map_subscript (m : gmap N (option State)) (k : N)
  : gmap N (option State) * option State :=
  match m !! k with
  | Some p => (m, p)
  | None => (<[k := None]> m, None)
  end.

Definition set_emplace (x : N) (s : gset N) : gset N * bool :=
  if bool_decide (x ∈ s) then (s, false) else ({[x]} ∪ s, true).

(** [operator->] on a shared state pointer and on a reference wrapper. *)
Definition deref (p : option State) : Result State :=
  match p with
  | Some s => Ok s
  | None => Undefined NullStatePointer
  end.

Definition get (r : option State) : Result State :=
  match r with
  | Some s => Ok s
  | None => Undefined NullReference
  end.

(** *** Status queries *)

Definition status (e : FsmBase) : FsmStatus := m_status e.

Definition running (e : FsmBase) : bool := bool_decide (m_status e = Running).

(** [current()] once [running()] holds. *)
Definition current_at (e : FsmBase) : Result (option State) :=
  map_at (m_states e) (m_current e).

Definition current (draws : RandomSource) (e : FsmBase) : Result (option State) :=
  if negb (running e) then Ok (Some (State_new draws)) else current_at e.

(** *** Table lookup with hierarchical fall-through *)

(** A recursion over the parent chain that visits more states than the map
    holds has entered a cycle, and the C++ recursion does not end. *)
Definition chain_fuel (e : FsmBase) : nat := S (size (m_states e)).

Fixpoint lookup_fuel (fuel : nat) (e : FsmBase) (state : option State) (event : N)
  : Result (option Transition) :=
  match fuel with
  | O => Undefined Diverges
  | S fuel' =>
      st ← deref state;
      match m_stt e !! SttIndex (m_id st) event with
      | Some t => Ok (Some t)
      | None =>
          let parent := m_parent st in
          if negb (hasParent st) then Ok None
          else p ← map_at (m_states e) parent; lookup_fuel fuel' e p event
      end
  end.

(** [lookup]: the pair (reference, found) is [Some t] when found. *)
Definition lookup (e : FsmBase) (state : option State) (event : N)
  : Result (option Transition) :=
  lookup_fuel (chain_fuel e) e state event.

(** The [do … while(state)] loop of [accept]. *)
Fixpoint accept_loop (fuel : nat) (e : FsmBase) (state : option State) (event : N)
  : Result bool :=
  match fuel with
  | O => Undefined Diverges
  | S fuel' =>
      st ← deref state;
      match m_stt e !! SttIndex (m_id st) event with
      | Some _ => Ok true
      | None =>
          if m_parent st =? 0 then Ok false
          else
            p ← map_at (m_states e) (m_parent st);
            match p with
            | None => Ok false
            | Some _ => accept_loop fuel' e p event
            end
      end
  end.

Definition accept (e : FsmBase) (event : N) : Result bool :=
  if negb (running e) then Ok false
  else state ← current_at e; accept_loop (chain_fuel e) e state event.


(** *** Validity *)

(** The inner loop of [deterministic] for one state: [None] when every symbol
    passed, [Some msg] when the scan stopped and logged [msg]. *)
Fixpoint scan_alphabet (e : FsmBase) (state : option State) (accepts : gset N)
    (symbols : list N) : Result (option LogMsg) :=
  match symbols with
  | [] => Ok None
  | symbol :: rest =>
      result ← lookup e state symbol;
      st ← deref state;
      if negb (bool_decide (is_Some result)) && hasAction st
      then Ok (Some (MissingTransition (m_id st) symbol))
      else
        let value := set_emplace symbol accepts in
        if negb (snd value)
        then Ok (Some (EpsilonTransition (m_id st) symbol))
        else scan_alphabet e state (fst value) rest
  end.

(** The outer loop: every state starts with a fresh [accepts] set. *)
Fixpoint scan_states (e : FsmBase) (states : list (option State)) : Result (option LogMsg) :=
  match states with
  | [] => Ok None
  | state :: rest =>
      r ← scan_alphabet e state ∅ (elements (m_alphabet e));
      match r with
      | Some msg => Ok (Some msg)
      | None => scan_states e rest
      end
  end.

(** The state pointers of the map in iteration order. *)
Definition state_pointers (e : FsmBase) : list (option State) :=
  snd <$> map_to_list (m_states e).

Definition deterministic (e : FsmBase) : Result (bool * FsmBase) :=
  r ← scan_states e (state_pointers e);
  match r with
  | Some msg => Ok (false, emit (Log msg) e)
  | None => Ok (true, e)
  end.

Definition valid (e : FsmBase) : Result (bool * FsmBase) :=
  if negb (bool_decide (m_status e = Running) || bool_decide (m_status e = Stopped))
  then Ok (false, e)
  else if bool_decide (size (m_states e) = 0%nat) then Ok (false, e)
  else if negb (bool_decide (is_Some (m_start_state e)))
          || bool_decide (length (m_stop_states e) = 0%nat)
  then Ok (false, e)
  else if negb (bool_decide (is_Some (m_error_state e))) then Ok (false, e)
  else deterministic e.

(** *** Start, stop, halt *)

Definition start_unchecked (e : FsmBase) : Result FsmBase :=
  s ← get (m_start_state e);
  Ok (set_status Running (set_current (m_id s) e)).

Definition start (check : bool) (e : FsmBase) : Result FsmBase :=
  if check then
    '(ok, e1) ← valid e;
    if negb ok then Ok e1 else start_unchecked e1
  else start_unchecked e.

Definition halt (e : FsmBase) : FsmBase :=
  if negb (running e) then e else set_status Stopped e.

Definition isStopState (e : FsmBase) (state : N) : bool :=
  existsb (fun ref => m_id ref =? state) (m_stop_states e).

(** [stop]: with [recurse] the caller sleeps on [m_stop_event] and retries
    once; in the sequential semantics nobody can signal it. *)
Definition stop (recurse : bool) (e : FsmBase) : Result (bool * FsmBase) :=
  if negb (running e) then Ok (true, e)
  else
    p ← map_at (m_states e) (m_current e);
    cur ← deref p;
    err ← get (m_error_state e);
    if m_id cur =? m_id err then Ok (true, set_status Stopped e)
    else if existsb (fun s => m_id s =? m_id cur) (m_stop_states e)
    then Ok (true, set_status Stopped e)
    else if negb recurse then Ok (false, e)
    else Undefined WouldBlock.

(** *** Builder methods *)

Definition addAlphabetSymbol (event : N) (e : FsmBase) : bool * FsmBase :=
  let rv := set_emplace event (m_alphabet e) in
  (snd rv, set_alphabet (fst rv) e).

Definition updateAlphabet (transition : Transition) (e : FsmBase) : FsmBase :=
  if bool_decide (m_event transition ∈ m_alphabet e) then e
  else set_alphabet ({[m_event transition]} ∪ m_alphabet e) e.

(** Both overloads of [addTransition]; the variadic one first builds the
    transition from its constructor arguments. *)
Definition addTransition (state : N) (transition : Transition) (e : FsmBase)
  : bool * FsmBase :=
  let index := SttIndex state (m_event transition) in
  let e1 := updateAlphabet transition e in
  let rv := map_emplace index transition (m_stt e1) in
  (snd rv, set_stt (fst rv) e1).

Definition addState (state : State) (e : FsmBase) : (N * bool) * FsmBase :=
  let id := m_id state in
  if map_contains (m_states e) id then ((id, false), e)
  else
    let e1 := emit (Log (AddingState id)) e in
    let rv := map_emplace id (Some state) (m_states e1) in
    ((id, snd rv), set_states (fst rv) e1).

Fixpoint addStates (states : list State) (e : FsmBase) : bool * FsmBase :=
  match states with
  | [] => (true, e)
  | state :: rest =>
      let id := m_id state in
      if map_contains (m_states e) id then (false, e)
      else
        let rv := map_emplace id (Some state) (m_states e) in
        let e1 := emit (Log (AddingState id)) (set_states (fst rv) e) in
        if negb (snd rv) then (false, e1) else addStates rest e1
  end.

Definition setStartState (id : N) (e : FsmBase) : Result FsmBase :=
  if negb (map_contains (m_states e) id) then Ok e
  else
    ptr ← map_at (m_states e) id;
    s ← deref ptr;
    Ok (set_start_state (Some s) e).

Definition setErrorState (id : N) (e : FsmBase) : Result (bool * FsmBase) :=
  if negb (map_contains (m_states e) id) then Ok (false, e)
  else
    ptr ← map_at (m_states e) id;
    s ← deref ptr;
    Ok (true, set_error_state (Some s) e).

Definition addStopState (state : N) (e : FsmBase) : Result (bool * FsmBase) :=
  if negb (map_contains (m_states e) state) then Ok (false, e)
  else
    ptr ← map_at (m_states e) state;
    s ← deref ptr;
    Ok (true, set_stop_states (m_stop_states e ++ [s]) e).

(** The two loops of [addStopStates]. *)
Definition all_registered (e : FsmBase) (states : list N) : bool :=
  forallb (map_contains (m_states e)) states.

Fixpoint push_stop_states (states : list N) (e : FsmBase) : Result FsmBase :=
  match states with
  | [] => Ok e
  | state :: rest =>
      ptr ← map_at (m_states e) state;
      s ← deref ptr;
      push_stop_states rest (set_stop_states (m_stop_states e ++ [s]) e)
  end.

Definition addStopStates (states : list N) (e : FsmBase) : Result (bool * FsmBase) :=
  if negb (all_registered e states) then Ok (false, e)
  else e1 ← push_stop_states states e; Ok (true, e1).


(** *** The event queue *)

Definition addEvent (event : N) (args : Args) (front : bool) (e : FsmBase) : FsmBase :=
  let value := (event, args) in
  if front then set_events (value :: m_events e) e
  else set_events (m_events e ++ [value]) e.

Definition raise (event : N) (args : Args) (e : FsmBase) : Result (bool * FsmBase) :=
  acc ← accept e event;
  if negb acc then Ok (false, e)
  else Ok (true, addEvent event args false e).

(** [transition(event, args...)], the entry point for state handlers. *)
Definition transition (event : N) (args : Args) (e : FsmBase) : Result (bool * FsmBase) :=
  acc ← accept e event;
  if negb acc || m_in_transition e then Ok (false, e)
  else Ok (true, set_in_transition true (addEvent event args true e)).

(** *** Execution *)

(** The calls a running handler makes on its engine, each entered on the
    engine as the calls before it have left it. *)
Fixpoint handler_calls (calls : list Call) (e : FsmBase) : Result FsmBase :=
  match calls with
  | [] => Ok e
  | CallTransition event args :: rest =>
      '(_, e1) ← transition event args e;
      handler_calls rest e1
  | CallRaise event args :: rest =>
      '(_, e1) ← raise event args e;
      handler_calls rest e1
  | CallHalt :: rest => handler_calls rest (halt e)
  end.

(** [State::action]: the handler is called without a check for a target; a
    [void] handler counts as a success. *)
Definition action (s : State) (args : Args) (e : FsmBase) : Result (bool * FsmBase) :=
  match m_action s with
  | None => Undefined EmptyFunction
  | Some h =>
      let run := h args in
      e1 ← handler_calls (requests run) (emit (Action (m_id s) args) e);
      Ok (if returns_void then true else returned run, e1)
  end.

Definition toErrorState (args : Args) (e : FsmBase) : Result FsmBase :=
  err ← get (m_error_state e);
  let e1 := set_status Error (set_current (m_id err) e) in
  '(_, e2) ← action err args e1;
  Ok e2.

(** [transition(event, args, IndexSequence)], in three consecutive parts of
    its body: the verdict on the handler's result, the move into the
    destination state, and the resolution of the transition. *)
Definition transition_finish (next : N) (copy : Args) (success : bool) (e : FsmBase)
  : Result (FsmStatus * FsmBase) :=
  if negb success then
    e ← toErrorState copy e;
    let e := emit StopSignal e in
    let e := emit (Log ExecutionFailed) e in
    Ok (Fault, e)
  else
    let e := if isStopState e next then emit StopSignal e else e in
    Ok (StateChanged, e).

Definition transition_enter (next : N) (args : Args) (e : FsmBase)
  : Result (FsmStatus * FsmBase) :=
  let e := set_current next e in
  let sub := map_subscript (m_states e) next in
  let e := set_states (fst sub) e in
  let copy := args in
  st ← deref (snd sub);
  '(success, e) ← (if hasAction st then action st args e else Ok (false, e));
  transition_finish next copy success e.

Definition transition_exec (event : N) (args : Args) (e : FsmBase)
  : Result (FsmStatus * FsmBase) :=
  let e := emit WatchdogReset e in
  if negb (running e) then Ok (m_status e, e)
  else
    state ← map_at (m_states e) (m_current e);
    result ← lookup e state event;
    transition ← match result with
                 | Some t => Ok t
                 | None => Undefined NullReference
                 end;
    transition_enter (m_next transition) args e.

(** [transition()], the step a driver loop calls. *)
Definition step (e : FsmBase) : Result (FsmStatus * FsmBase) :=
  match m_events e with
  | [] => Ok (StateUnchanged, e)
  | value :: rest =>
      let e := set_events rest e in
      '(rv, e) ← transition_exec (fst value) (snd value) e;
      Ok (rv, set_in_transition false e)
  end.

(** *** Copy, move, swap *)

Definition copy (this other : FsmBase) : FsmBase :=
  mkFsm (m_events other) (m_logger other) (m_stt other) (m_states other)
        (m_stop_states other) (m_start_state other) (m_current other)
        (m_error_state other) (m_status other) (m_in_transition other)
        (m_alphabet this) (m_silent other) (history this).

(** The friend [swap]: eleven member-wise swaps. *)
Definition swap (a b : FsmBase) : FsmBase * FsmBase :=
  (mkFsm (m_events b) (m_logger b) (m_stt b) (m_states b)
         (m_stop_states b) (m_start_state b) (m_current b)
         (m_error_state b) (m_status b) (m_in_transition b)
         (m_alphabet a) (m_silent b) (history a),
   mkFsm (m_events a) (m_logger a) (m_stt a) (m_states a)
         (m_stop_states a) (m_start_state a) (m_current a)
         (m_error_state a) (m_status a) (m_in_transition a)
         (m_alphabet b) (m_silent a) (history b)).

(** [move(other)] swaps this engine with [other]. *)
Definition move (this other : FsmBase) : FsmBase * FsmBase := swap this other.

(** Copy construction and copy assignment give the new value of [*this]. *)
Definition FsmBase_copy (other : FsmBase) : FsmBase := copy FsmBase_blank other.
Definition assign (this other : FsmBase) : FsmBase := copy this other.

(** Move construction and move assignment give [*this] and what is left in
    [other]. *)
Definition FsmBase_move (other : FsmBase) : FsmBase * FsmBase := move FsmBase_blank other.
Definition assign_move (this other : FsmBase) : FsmBase * FsmBase := move this other.

End Engine.

(** ** The driver loop

    A driver calls [step] repeatedly.  [drive n] is [n] such calls; next to
    the final engine it reports the records the calls took off the queue, in
    the order they were taken. *)
Fixpoint drive {Args : Type} (returns_void : bool) (n : nat) (e : FsmBase (Args:=Args))
  : Result (list (N * Args) * FsmBase (Args:=Args)) :=
  match n with
  | O => Ok ([], e)
  | S n' =>
      '(_, e1) ← step returns_void e;
      '(taken, e2) ← drive returns_void n' e1;
      Ok (match m_events e with
          | [] => taken
          | value :: _ => value :: taken
          end, e2)
  end.

(** ** Invariants the properties refer to *)

(** The status member only ever holds one of the three latched values; the
    other three constants of [FsmStatus] are return values of [step]. *)
Definition status_latched {Args : Type} (e : FsmBase (Args:=Args)) : Prop :=
  m_status e = Stopped ∨ m_status e = Running ∨ m_status e = Error.

(** The engines a program can get hold of: built by a constructor and then
    changed by the methods of the class only. *)
Inductive reachable {Args : Type} (returns_void : bool) : FsmBase (Args:=Args) → Prop :=
| reach_new silent : reachable returns_void (FsmBase_new silent)
| reach_blank : reachable returns_void FsmBase_blank
| reach_addTransition state t e :
    reachable returns_void e → reachable returns_void (snd (addTransition state t e))
| reach_addAlphabetSymbol event e :
    reachable returns_void e → reachable returns_void (snd (addAlphabetSymbol event e))
| reach_addState s e :
    reachable returns_void e → reachable returns_void (snd (addState s e))
| reach_addStates l e :
    reachable returns_void e → reachable returns_void (snd (addStates l e))
| reach_setStartState id e e' :
    reachable returns_void e → setStartState id e = Ok e' → reachable returns_void e'
| reach_setErrorState id e r e' :
    reachable returns_void e → setErrorState id e = Ok (r, e') → reachable returns_void e'
| reach_addStopState id e r e' :
    reachable returns_void e → addStopState id e = Ok (r, e') → reachable returns_void e'
| reach_addStopStates ids e r e' :
    reachable returns_void e → addStopStates ids e = Ok (r, e') → reachable returns_void e'
| reach_deterministic e r e' :
    reachable returns_void e → deterministic e = Ok (r, e') → reachable returns_void e'
| reach_valid e r e' :
    reachable returns_void e → valid e = Ok (r, e') → reachable returns_void e'
| reach_start check e e' :
    reachable returns_void e → start check e = Ok e' → reachable returns_void e'
| reach_stop recurse e r e' :
    reachable returns_void e → stop recurse e = Ok (r, e') → reachable returns_void e'
| reach_halt e : reachable returns_void e → reachable returns_void (halt e)
| reach_raise event args e r e' :
    reachable returns_void e → raise event args e = Ok (r, e') → reachable returns_void e'
| reach_transition event args e r e' :
    reachable returns_void e → transition event args e = Ok (r, e') → reachable returns_void e'
| reach_step e r e' :
    reachable returns_void e → step returns_void e = Ok (r, e') → reachable returns_void e'
| reach_copy this other :
    reachable returns_void this → reachable returns_void other →
    reachable returns_void (copy this other)
| reach_swap_l a b :
    reachable returns_void a → reachable returns_void b →
    reachable returns_void (fst (swap a b))
| reach_swap_r a b :
    reachable returns_void a → reachable returns_void b →
    reachable returns_void (snd (swap a b)).

(** No entry of the state map holds a null pointer. *)
Definition states_nonnull {Args : Type} (e : FsmBase (Args:=Args)) : Prop :=
  ∀ id, m_states e !! id ≠ Some None.

(** Invariant 1 of the data model: every row of the table leads to a
    registered state. *)
Definition stt_closed {Args : Type} (e : FsmBase (Args:=Args)) : Prop :=
  ∀ index t, m_stt e !! index = Some t → ∃ s, m_states e !! m_next t = Some (Some s).

(** Through its calls a state handler reaches the queue, the in-transition
    flag and the status and nothing else: the queue only grows, at its front
    and at its back, and the status can only go from [Running] to [Stopped].
    [queue_grown e e'] relates the engine before and after. *)
Definition queue_grown {Args : Type} (e e' : FsmBase (Args:=Args)) : Prop :=
  ∃ pre post flag status,
    (status = m_status e ∨ m_status e = Running ∧ status = Stopped) ∧
    e' = set_status status
           (set_in_transition flag (set_events (pre ++ m_events e ++ post) e)).

(** [requested e args c]: a registered state of [e] has a handler that,
    run with the arguments [args], makes the call [c]. *)
Definition requested {Args : Type} (e : FsmBase (Args:=Args)) (args : Args)
    (c : Call (Args:=Args)) : Prop :=
  ∃ id s h, m_states e !! id = Some (Some s) ∧ m_action s = Some h ∧
            c ∈ requests (h args).

(** No handler of a registered state makes a call on the engine. *)
Definition quiet {Args : Type} (e : FsmBase (Args:=Args)) : Prop :=
  ∀ id s h args, m_states e !! id = Some (Some s) → m_action s = Some h →
                 requests (h args) = [].

(** [grounded e n s]: the parent chain of [s] ends after [n] registered
    ancestors. *)
Inductive grounded {Args : Type} (e : FsmBase (Args:=Args)) : nat → State (Args:=Args) → Prop :=
| grounded_root s : m_parent s = 0 → grounded e 0 s
| grounded_child n s p :
    m_parent s ≠ 0 → m_states e !! m_parent s = Some (Some p) →
    grounded e n p → grounded e (S n) s.

(** Every registered state has a chain short enough for [chain_fuel]; it
    holds whenever the parent ids are registered and the chains are acyclic. *)
Definition chains_grounded {Args : Type} (e : FsmBase (Args:=Args)) : Prop :=
  ∀ id s, m_states e !! id = Some (Some s) → ∃ n, (n < chain_fuel e)%nat ∧ grounded e n s.

(** An outcome other than the dereference of a null state pointer. *)
Definition null_free {A : Type} (r : Result A) : Prop := r ≠ Undefined NullStatePointer.

(** Executable forms of the two invariants of the state map. *)
Definition states_nonnull_b {Args : Type} (e : FsmBase (Args:=Args)) : bool :=
  forallb (fun p => bool_decide (is_Some p)) (state_pointers e).

Definition stt_closed_b {Args : Type} (e : FsmBase (Args:=Args)) : bool :=
  forallb (fun row => match m_states e !! m_next (snd row) with
                      | Some (Some _) => true
                      | _ => false
                      end) (map_to_list (m_stt e)).

(** ** Scenarios *)

Module Scenarios.

(** Handlers over one numeric argument. *)
Definition succeed : N → Run (Args:=N) := fun _ => mkRun true [].
Definition fail : N → Run (Args:=N) := fun _ => mkRun false [].
(** A handler that asks its engine for a transition on [event]. *)
Definition chain (event : N) : N → Run (Args:=N) :=
  fun a => mkRun true [CallTransition event a].

Definition row (event next : N) : Transition (Args:=N) := mkTransition None event next.

(** Build an engine through the builder methods.  For each scenario,
    [X_run] is the construction and [X] the engine it yields. *)
Definition build (states : list (State (Args:=N))) (rows : list (N * Transition (Args:=N)))
    (start error : N) (stops : list N) : Result (FsmBase (Args:=N)) :=
  let e := snd (addStates states (FsmBase_new false)) in
  let e := foldl (fun e r => snd (addTransition (fst r) (snd r) e)) e rows in
  e ← setStartState start e;
  '(_, e) ← setErrorState error e;
  '(_, e) ← addStopStates stops e;
  Ok e.

Definition engine_of (r : Result (FsmBase (Args:=N))) : FsmBase (Args:=N) :=
  match r with
  | Ok e => e
  | Undefined _ => FsmBase_blank
  end.

Definition tick : N := 1.

(** S1, the traffic light: G=1, Y=2, R=3. *)
Definition S1_run : Result (FsmBase (Args:=N)) :=
  build [mkState 1 0 (Some succeed); mkState 2 0 (Some succeed);
         mkState 3 0 (Some succeed)]
        [(1, row tick 2); (2, row tick 3); (3, row tick 1)] 1 1 [3].
Definition S1 : FsmBase (Args:=N) := engine_of S1_run.

(** S2: the handler of Y fails; the error state is R. *)
Definition S2_run : Result (FsmBase (Args:=N)) :=
  build [mkState 1 0 (Some succeed); mkState 2 0 (Some fail);
         mkState 3 0 (Some succeed)]
        [(1, row tick 2); (2, row tick 3); (3, row tick 1)] 1 3 [3].
Definition S2 : FsmBase (Args:=N) := engine_of S2_run.

(** S2 started, with one raised [tick] carrying the argument 42. *)
Definition S2_raised_run : Result (FsmBase (Args:=N)) :=
  e ← start true S2; '(_, e) ← raise tick 42 e; Ok e.
Definition S2_raised : FsmBase (Args:=N) := engine_of S2_raised_run.

(** S2 after the step that faults. *)
Definition S2_faulted_run : Result (FsmBase (Args:=N)) :=
  '(_, e) ← step false S2_raised; Ok e.
Definition S2_faulted : FsmBase (Args:=N) := engine_of S2_faulted_run.

(** S4: A=1, B=2 with parent A, rows (A,x)→B and (B,x)→A with x=7. *)
Definition S4_run : Result (FsmBase (Args:=N)) :=
  build [mkState 1 0 (Some succeed); mkState 2 1 (Some succeed)]
        [(1, row 7 2); (2, row 7 1)] 1 1 [2].
Definition S4 : FsmBase (Args:=N) := engine_of S4_run.

(** S4 as the document gives it: the two states and the two rows, and no
    start, error or stop state. *)
Definition S4_bare : FsmBase (Args:=N) :=
  foldl (fun e r => snd (addTransition (fst r) (snd r) e))
        (snd (addStates [mkState 1 0 (Some succeed); mkState 2 1 (Some succeed)]
                        (FsmBase_new false)))
        [(1, row 7 2); (2, row 7 1)].

(** S5: the handler of state 2 requests a transition on event 2 while a
    raised event 3 is waiting. *)
Definition S5_run : Result (FsmBase (Args:=N)) :=
  build [mkState 1 0 (Some succeed); mkState 2 0 (Some (chain 2));
         mkState 3 0 (Some succeed)]
        [(1, row 1 2); (1, row 2 1); (1, row 3 1);
         (2, row 1 2); (2, row 2 3); (2, row 3 1);
         (3, row 1 3); (3, row 2 3); (3, row 3 3)] 1 1 [3].
Definition S5 : FsmBase (Args:=N) := engine_of S5_run.

Definition S5_first_run : Result (FsmBase (Args:=N)) :=
  e ← start true S5; '(_, e) ← raise 1 10 e; Ok e.
Definition S5_first : FsmBase (Args:=N) := engine_of S5_first_run.

Definition S5_raised_run : Result (FsmBase (Args:=N)) :=
  '(_, e) ← raise 3 30 S5_first; Ok e.
Definition S5_raised : FsmBase (Args:=N) := engine_of S5_raised_run.

(** [transition(2, 10)] called on it, and three steps of the driver. *)
Definition S5_pushed_run : Result (FsmBase (Args:=N)) :=
  '(_, e) ← transition 2 10 S5_raised; Ok e.
Definition S5_pushed : FsmBase (Args:=N) := engine_of S5_pushed_run.

Definition S5_drained_run : Result (FsmBase (Args:=N)) :=
  '(_, e) ← drive false 3 S5_raised; Ok e.
Definition S5_drained : FsmBase (Args:=N) := engine_of S5_drained_run.

(** S3: Parent=10 and Child=11 with parent 10; the only row is
    (Parent, tock)→Child with tock=4.  The engine starts in Child. *)
Definition S3_run : Result (FsmBase (Args:=N)) :=
  build [mkState 10 0 (Some succeed); mkState 11 10 (Some succeed)]
        [(10, row 4 11)] 11 10 [10].
Definition S3 : FsmBase (Args:=N) := engine_of S3_run.

(** S6: the handler of state 2 asks for two transitions in one run. *)
Definition twice (first second : N) : N → Run (Args:=N) :=
  fun a => mkRun true [CallTransition first a; CallTransition second a].

Definition S6_run : Result (FsmBase (Args:=N)) :=
  build [mkState 1 0 (Some succeed); mkState 2 0 (Some (twice 1 2))]
        [(1, row 1 2); (1, row 2 2); (2, row 1 1); (2, row 2 1)] 1 1 [1].
Definition S6 : FsmBase (Args:=N) := engine_of S6_run.

(** The traffic light halted while a raised [tick] is still queued. *)
Definition S1_halted_run : Result (FsmBase (Args:=N)) :=
  e ← start true S1; '(_, e) ← raise tick 5 e; Ok (halt e).
Definition S1_halted : FsmBase (Args:=N) := engine_of S1_halted_run.

(** One state whose only row leads to the unregistered id 9. *)
Definition dangling_run : Result (FsmBase (Args:=N)) :=
  build [mkState 1 0 (Some succeed)] [(1, row tick 9)] 1 1 [1].
Definition dangling : FsmBase (Args:=N) := engine_of dangling_run.

Definition dangling_raised_run : Result (FsmBase (Args:=N)) :=
  e ← start true dangling; '(_, e) ← raise tick 0 e; Ok e.
Definition dangling_raised : FsmBase (Args:=N) := engine_of dangling_raised_run.

(** An engine that holds state 2, and a batch whose second id collides. *)
Definition holds_two : FsmBase (Args:=N) :=
  snd (addState (mkState 2 0 (Some succeed)) (FsmBase_new false)).

Definition batch : list (State (Args:=N)) :=
  [mkState 1 0 (Some succeed); mkState 2 0 (Some fail)].

(** The traffic light started, with two raised [tick]s. *)
Definition S1_started_run : Result (FsmBase (Args:=N)) := start true S1.
Definition S1_started : FsmBase (Args:=N) := engine_of S1_started_run.

Definition S1_raised_run : Result (FsmBase (Args:=N)) :=
  '(_, e) ← raise tick 5 S1_started; '(_, e) ← raise tick 6 e; Ok e.
Definition S1_raised : FsmBase (Args:=N) := engine_of S1_raised_run.

(** After the first step it is in Y, after the second in the stop state R. *)
Definition S1_yellow_run : Result (FsmBase (Args:=N)) :=
  '(_, e) ← step false S1_raised; Ok e.
Definition S1_yellow : FsmBase (Args:=N) := engine_of S1_yellow_run.

Definition S1_red_run : Result (FsmBase (Args:=N)) :=
  '(_, e) ← step false S1_yellow; Ok e.
Definition S1_red : FsmBase (Args:=N) := engine_of S1_red_run.

(** S7: S5 with another handler for state 2, which raises event 1, requests
    a transition on event 2 and halts the engine. *)
Definition busy : N → Run (Args:=N) :=
  fun a => mkRun true [CallRaise 1 a; CallTransition 2 a; CallHalt].

Definition S7_run : Result (FsmBase (Args:=N)) :=
  build [mkState 1 0 (Some succeed); mkState 2 0 (Some busy);
         mkState 3 0 (Some succeed)]
        [(1, row 1 2); (1, row 2 1); (1, row 3 1);
         (2, row 1 2); (2, row 2 3); (2, row 3 1);
         (3, row 1 3); (3, row 2 3); (3, row 3 3)] 1 1 [3].
Definition S7 : FsmBase (Args:=N) := engine_of S7_run.

Definition S7_raised_run : Result (FsmBase (Args:=N)) :=
  e ← start true S7; '(_, e) ← raise 1 10 e; '(_, e) ← raise 3 30 e; Ok e.
Definition S7_raised : FsmBase (Args:=N) := engine_of S7_raised_run.

Definition S7_stepped_run : Result (FsmBase (Args:=N)) :=
  '(_, e) ← step false S7_raised; Ok e.
Definition S7_stepped : FsmBase (Args:=N) := engine_of S7_stepped_run.

(** S5 after the first of the three steps. *)
Definition S5_stepped_run : Result (FsmBase (Args:=N)) :=
  '(_, e) ← step false S5_raised; Ok e.
Definition S5_stepped : FsmBase (Args:=N) := engine_of S5_stepped_run.

End Scenarios.

(** ** Notions for the further properties *)

(** A sequence of [addTransition] calls. *)
Definition add_rows {Args : Type} (rows : list (N * Transition (Args:=Args)))
    (e : FsmBase (Args:=Args)) : FsmBase (Args:=Args) :=
  foldl (fun e r => snd (addTransition (fst r) (snd r) e)) e rows.

(** Every registered state is stored under its own id. *)
Definition keys_match {Args : Type} (e : FsmBase (Args:=Args)) : Prop :=
  ∀ id s, m_states e !! id = Some (Some s) → m_id s = id.

(** Invariant 2 of the data model: the start state, the error state and the
    stop states refer to registered states. *)
Definition references_registered {Args : Type} (e : FsmBase (Args:=Args)) : Prop :=
  (∀ s, m_start_state e = Some s → m_states e !! m_id s = Some (Some s)) ∧
  (∀ s, m_error_state e = Some s → m_states e !! m_id s = Some (Some s)) ∧
  (∀ s, s ∈ m_stop_states e → m_states e !! m_id s = Some (Some s)).

(** The state map and the three kinds of references are the same. *)
Definition same_references {Args : Type} (e e' : FsmBase (Args:=Args)) : Prop :=
  m_states e' = m_states e ∧ m_start_state e' = m_start_state e ∧
  m_error_state e' = m_error_state e ∧ m_stop_states e' = m_stop_states e.

(** [resolves e event s t]: [t] is the row on [event] of [s] or, when [s] has
    none, of its nearest registered ancestor that has one. *)
Inductive resolves {Args : Type} (e : FsmBase (Args:=Args)) (event : N)
  : State (Args:=Args) → Transition (Args:=Args) → Prop :=
| resolves_here s t :
    m_stt e !! SttIndex (m_id s) event = Some t → resolves e event s t
| resolves_above s p t :
    m_stt e !! SttIndex (m_id s) event = None →
    m_parent s ≠ 0 → m_states e !! m_parent s = Some (Some p) →
    resolves e event p t → resolves e event s t.

(** The members [step] leaves alone. *)
Definition same_configuration {Args : Type} (e e' : FsmBase (Args:=Args)) : Prop :=
  m_stt e' = m_stt e ∧ m_states e' = m_states e ∧ m_alphabet e' = m_alphabet e ∧
  m_start_state e' = m_start_state e ∧ m_error_state e' = m_error_state e ∧
  m_stop_states e' = m_stop_states e ∧ m_logger e' = m_logger e ∧
  m_silent e' = m_silent e.

(** Every guard of the table replaced through [g]. *)
Definition reguard {Args : Type} (g : option (Args → bool) → option (Args → bool))
    (t : Transition (Args:=Args)) : Transition (Args:=Args) :=
  mkTransition (g (m_handler t)) (m_event t) (m_next t).

Definition reguard_table {Args : Type} (g : option (Args → bool) → option (Args → bool))
    (e : FsmBase (Args:=Args)) : FsmBase (Args:=Args) :=
  set_stt (reguard g <$> m_stt e) e.

(** The engine [e] with another alphabet and with [pre] as the effects that
    went before its own. *)
Definition graft {Args : Type} (a : gset N) (pre : list (Effect (Args:=Args)))
    (e : FsmBase (Args:=Args)) : FsmBase (Args:=Args) :=
  mkFsm (m_events e) (m_logger e) (m_stt e) (m_states e) (m_stop_states e) (m_start_state e)
        (m_current e) (m_error_state e) (m_status e) (m_in_transition e)
        a (m_silent e) (pre ++ history e).

(** [Result] is a functor. *)
#[global] Instance Result_fmap : FMap Result := fun A B f m =>
  match m with
  | Ok a => Ok (f a)
  | Undefined u => Undefined u
  end.

(** An executable form of [chains_grounded]. *)
Fixpoint grounded_b {Args : Type} (fuel : nat) (e : FsmBase (Args:=Args))
    (s : State (Args:=Args)) : bool :=
  match fuel with
  | O => false
  | S fuel' =>
      if m_parent s =? 0 then true
      else match m_states e !! m_parent s with
           | Some (Some p) => grounded_b fuel' e p
           | _ => false
           end
  end.

Definition chains_grounded_b {Args : Type} (e : FsmBase (Args:=Args)) : bool :=
  forallb (fun p => match p with
                    | Some s => grounded_b (chain_fuel e) e s
                    | None => true
                    end) (state_pointers e).

(** * Properties *)

(** Case analysis on a [Result] bound with [←]. *)
Ltac bind_inv H :=
  match type of H with
  | (mbind _ ?m) = Ok _ =>
      let E := fresh "E" in
      destruct m eqn:E; cbn [mbind Result_bind] in H; [| discriminate H]
  | (mbind _ ?m) = _ =>
      let E := fresh "E" in
      destruct m eqn:E; cbn [mbind Result_bind] in H
  end.

(** ** State identifiers *)

Lemma lor_below_pow2 (a b n : N) : a < 2 ^ n → b < 2 ^ n → N.lor a b < 2 ^ n.
Proof.
  intros Ha Hb.
  destruct (N.eq_dec (N.lor a b) 0) as [-> | Hne]; [lia |].
  apply N.log2_lt_pow2; [lia |].
  rewrite N.log2_lor.
  destruct (N.eq_dec a 0) as [-> | Ha0], (N.eq_dec b 0) as [-> | Hb0].
  - rewrite N.lor_0_l in Hne. congruence.
  - rewrite N.max_r by (simpl; lia). apply N.log2_lt_pow2; lia.
  - rewrite N.max_l by (simpl; lia). apply N.log2_lt_pow2; lia.
  - apply N.max_lub_lt; apply N.log2_lt_pow2; lia.
Qed.

Lemma shifted_byte_below (r k : N) : r < 256 → k <= 24 → N.shiftl r k < 2 ^ 32.
Proof.
  intros Hr Hk. rewrite N.shiftl_mul_pow2.
  assert (2 ^ k <= 2 ^ 24) by (apply N.pow_le_mono_r; lia).
  change (2 ^ 32) with (256 * 2 ^ 24).
  assert (0 < 2 ^ k) by (apply N.neq_0_lt_0, N.pow_nonzero; lia).
  nia.
Qed.

(** One iteration of the loop stores the reduced byte without losing bits. *)
Lemma wrap32_lor_byte (result r k : N) :
  result < 2 ^ 32 → r < 256 → k <= 24 →
  wrap32 (N.lor result (N.shiftl r k)) = N.lor result (N.shiftl r k).
Proof.
  intros Hres Hr Hk. unfold wrap32. apply N.mod_small.
  apply lor_below_pow2; [done | by apply shifted_byte_below].
Qed.

Lemma generateFsmStateId_unfold (draws : nat → N) :
  generateFsmStateId draws =
  N.lor (N.lor (N.lor (draws 0%nat mod 256) (N.shiftl (draws 1%nat mod 256) 8))
               (N.shiftl (draws 2%nat mod 256) 16))
        (N.shiftl (draws 3%nat mod 256) 24).
Proof.
  unfold generateFsmStateId, sizeof_FsmStateId. cbn [generate_loop].
  change (N.shiftl 1 BITS_PER_BYTE) with 256.
  change (N.of_nat 0 * BITS_PER_BYTE) with 0.
  change (N.of_nat 1 * BITS_PER_BYTE) with 8.
  change (N.of_nat 2 * BITS_PER_BYTE) with 16.
  change (N.of_nat 3 * BITS_PER_BYTE) with 24.
  assert (Hb : ∀ n, draws n mod 256 < 256) by (intros; apply N.mod_lt; lia).
  assert (H8 : 8 <= 24) by lia.
  assert (H16 : 16 <= 24) by lia.
  assert (H24 : 24 <= 24) by lia.
  rewrite N.lor_0_l, N.shiftl_0_r.
  assert (H0 : draws 0%nat mod 256 < 2 ^ 32).
  { specialize (Hb 0%nat). change (2 ^ 32) with 4294967296. lia. }
  replace (wrap32 (draws 0%nat mod 256)) with (draws 0%nat mod 256)
    by (symmetry; apply N.mod_small, H0).
  rewrite (wrap32_lor_byte _ _ _ H0 (Hb 1%nat) H8).
  assert (H1 : N.lor (draws 0%nat mod 256) (N.shiftl (draws 1%nat mod 256) 8) < 2 ^ 32).
  { apply lor_below_pow2; [exact H0 | apply shifted_byte_below; [apply Hb | exact H8]]. }
  rewrite (wrap32_lor_byte _ _ _ H1 (Hb 2%nat) H16).
  apply wrap32_lor_byte; [| apply Hb | exact H24].
  apply lor_below_pow2; [exact H1 | apply shifted_byte_below; [apply Hb | exact H16]].
Qed.

(** C9 (amended).  The generated id is the combination of the four random
    draws, each reduced to a byte and placed at its byte position; it is the
    reserved value 0 exactly when every reduced byte is 0, and non-zero for
    every other outcome of the random source. *)
Theorem generateFsmStateId_zero_iff (draws : nat → N) :
  generateFsmStateId draws =
    N.lor (N.lor (N.lor (draws 0%nat mod 256) (N.shiftl (draws 1%nat mod 256) 8))
                 (N.shiftl (draws 2%nat mod 256) 16))
          (N.shiftl (draws 3%nat mod 256) 24) ∧
  generateFsmStateId draws < 2 ^ 32 ∧
  (generateFsmStateId draws = 0 ↔
   draws 0%nat mod 256 = 0 ∧ draws 1%nat mod 256 = 0 ∧
   draws 2%nat mod 256 = 0 ∧ draws 3%nat mod 256 = 0).
Proof.
  split; [apply generateFsmStateId_unfold |].
  rewrite generateFsmStateId_unfold.
  assert (Hb : ∀ n, draws n mod 256 < 256) by (intros; apply N.mod_lt; lia).
  split.
  - assert (H0 : draws 0%nat mod 256 < 2 ^ 32).
    { specialize (Hb 0%nat). change (2 ^ 32) with 4294967296. lia. }
    repeat apply lor_below_pow2; [exact H0 | ..];
      apply shifted_byte_below; first [apply Hb | lia].
  - rewrite !N.lor_eq_0_iff, !N.shiftl_eq_0_iff. tauto.
Qed.

(** C9 (counterexample).  A random source whose draws are all multiples of
    256 (here: all 0) yields the reserved id 0, so a constructed state can
    carry the "unset" sentinel. *)
Lemma generateFsmStateId_can_be_zero :
  m_id (State_new (Args:=N) (fun _ => 0)) = 0 ∧
  ¬ (∀ draws : nat → N, generateFsmStateId draws ≠ 0).
Proof.
  split; [reflexivity |].
  intros H. exact (H (fun _ => 0) eq_refl).
Qed.

Section Builder.

Context {Args : Type}.
Implicit Types (e : FsmBase (Args:=Args)) (t : Transition (Args:=Args)).

(** ** Transitions and the alphabet *)

Lemma updateAlphabet_alphabet t e :
  m_alphabet (updateAlphabet t e) = {[m_event t]} ∪ m_alphabet e.
Proof.
  unfold updateAlphabet. case_bool_decide as Hin; cbn; [| done].
  symmetry. apply subseteq_union_1_L. by apply singleton_subseteq_l.
Qed.

Lemma updateAlphabet_stt t e : m_stt (updateAlphabet t e) = m_stt e.
Proof. unfold updateAlphabet. by case_bool_decide. Qed.

Lemma updateAlphabet_states t e : m_states (updateAlphabet t e) = m_states e.
Proof. unfold updateAlphabet. by case_bool_decide. Qed.

(** The answer of [addTransition] and the table it leaves. *)
Lemma addTransition_table (state : N) t e :
  let index := SttIndex state (m_event t) in
  let r := addTransition state t e in
  fst r = negb (map_contains (m_stt e) index) ∧
  m_stt (snd r) = (if map_contains (m_stt e) index then m_stt e
                   else <[index := t]> (m_stt e)).
Proof.
  intros index r. subst r. unfold addTransition, map_emplace, map_contains.
  fold index. rewrite updateAlphabet_stt.
  by destruct (m_stt e !! index) eqn:Hrow; cbn.
Qed.

Lemma addTransition_states (state : N) t e :
  m_states (snd (addTransition state t e)) = m_states e.
Proof. unfold addTransition. cbn. apply updateAlphabet_states. Qed.

(** C3 (amended).  [addTransition] never consults the state map.  For every
    state id, registered or not, it returns [true] exactly when the packed
    (state, event) key is not in the table yet, and then stores the row; on a
    duplicate key it returns [false] and leaves the table as it is.  In both
    cases the alphabet afterwards holds the event of the transition, and the
    state map is untouched. *)
Theorem addTransition_ignores_state_map (state : N) t e :
  let index := SttIndex state (m_event t) in
  let r := addTransition state t e in
  fst r = negb (map_contains (m_stt e) index) ∧
  m_stt (snd r) = (if map_contains (m_stt e) index then m_stt e
                   else <[index := t]> (m_stt e)) ∧
  m_alphabet (snd r) = {[m_event t]} ∪ m_alphabet e ∧
  m_states (snd r) = m_states e ∧
  ∀ states, fst (addTransition state t (set_states states e)) = fst r.
Proof.
  intros index r.
  destruct (addTransition_table state t e) as [Hr Hstt]. fold index r in Hr, Hstt.
  repeat split; [done | done | | apply addTransition_states |].
  - subst r. unfold addTransition. cbn. apply updateAlphabet_alphabet.
  - intros states. rewrite Hr.
    by destruct (addTransition_table state t (set_states states e)) as [-> _].
Qed.

(** ** Halting *)

(** C5 (amended).  [halt] stops an engine that is running; called on an
    engine whose status is anything else (for instance [Error] after a handler
    failure) it returns at its guard and changes nothing. *)
Theorem halt_stops_only_running e :
  (m_status e = Running ∧ m_status (halt e) = Stopped) ∨
  (m_status e ≠ Running ∧ halt e = e).
Proof.
  unfold halt, running. case_bool_decide as Hrun; cbn; [left | right]; done.
Qed.

(** ** Copying *)

Lemma copy_members (this other : FsmBase (Args:=Args)) :
  let c := copy this other in
  m_stt c = m_stt other ∧ m_events c = m_events other ∧
  m_states c = m_states other ∧ m_stop_states c = m_stop_states other ∧
  m_start_state c = m_start_state other ∧ m_current c = m_current other ∧
  m_error_state c = m_error_state other ∧ m_status c = m_status other ∧
  m_in_transition c = m_in_transition other ∧ m_logger c = m_logger other ∧
  m_silent c = m_silent other.
Proof. cbn. repeat split. Qed.

(** [copy] has no assignment to [m_alphabet]; the target keeps its own. *)
Lemma copy_keeps_own_alphabet (this other : FsmBase (Args:=Args)) :
  m_alphabet (copy this other) = m_alphabet this.
Proof. reflexivity. Qed.

Lemma swap_keeps_own_alphabet (a b : FsmBase (Args:=Args)) :
  m_alphabet (fst (swap a b)) = m_alphabet a ∧ m_alphabet (snd (swap a b)) = m_alphabet b.
Proof. split; reflexivity. Qed.

Lemma FsmBase_copy_alphabet_empty (other : FsmBase (Args:=Args)) :
  m_alphabet (FsmBase_copy other) = ∅.
Proof. reflexivity. Qed.

(** ** Bulk registration *)

Lemma push_stop_states_members (states : list N) e e' :
  push_stop_states states e = Ok e' →
  m_states e' = m_states e ∧ ∃ added, m_stop_states e' = m_stop_states e ++ added.
Proof.
  revert e. induction states as [| state rest IH]; intros e Hpush; cbn in Hpush.
  - injection Hpush as <-. split; [done |]. exists []. by rewrite app_nil_r.
  - destruct (map_at (m_states e) state) as [ptr |] eqn:Hat; [| done]. cbn in Hpush.
    destruct (deref ptr) as [s |] eqn:Hptr; [| done]. cbn in Hpush.
    apply IH in Hpush as [Hst [added Hstop]]. cbn in Hst, Hstop.
    split; [done |]. exists (s :: added). by rewrite Hstop, <- app_assoc.
Qed.

(** [addStates] never replaces an entry of the state map. *)
Lemma addStates_keeps_entries (l : list (State (Args:=Args))) e id p :
  m_states e !! id = Some p → m_states (snd (addStates l e)) !! id = Some p.
Proof.
  revert e. induction l as [| s l IH]; intros e Hp; cbn; [done |].
  unfold map_contains, map_emplace.
  destruct (m_states e !! m_id s) eqn:Hs; cbn; [done |].
  apply IH. cbn. rewrite lookup_insert_ne; [done |].
  intros <-. congruence.
Qed.

(** A state of the batch that is reached before the first collision is
    registered, and stays registered when the call answers [false]. *)
Lemma addStates_registers_before_collision (s : State (Args:=Args)) l e :
  m_states e !! m_id s = None →
  m_states (snd (addStates (s :: l) e)) !! m_id s = Some (Some s).
Proof.
  intros Hfree. cbn. unfold map_contains, map_emplace. rewrite Hfree. cbn.
  apply addStates_keeps_entries. cbn. apply lookup_insert_eq.
Qed.

Lemma addStates_collision (s : State (Args:=Args)) l e :
  is_Some (m_states e !! m_id s) → addStates (s :: l) e = (false, e).
Proof.
  intros Hs. cbn. unfold map_contains. by rewrite bool_decide_eq_true_2.
Qed.

(** [addStopStates] checks every id before it adds the first one: when an id
    is not registered the call fails and the engine is unchanged. *)
Lemma addStopStates_all_or_nothing (states : list N) (id : N) e :
  id ∈ states → m_states e !! id = None →
  addStopStates states e = Ok (false, e).
Proof.
  intros Hin Hnone. unfold addStopStates.
  assert (Hall : all_registered e states = false).
  { apply not_true_iff_false. intros Hall.
    unfold all_registered in Hall. rewrite forallb_forall in Hall.
    apply list_elem_of_In in Hin. specialize (Hall _ Hin).
    unfold map_contains in Hall. apply bool_decide_eq_true_1 in Hall.
    rewrite Hnone in Hall. by destruct Hall. }
  by rewrite Hall.
Qed.

End Builder.

(** * Execution *)

Section Execution.

Context {Args : Type}.
Variable returns_void : bool.
Implicit Types (e : FsmBase (Args:=Args)) (args : Args) (event : N).

Lemma set_queue_id e : set_in_transition (m_in_transition e) (set_events (m_events e) e) = e.
Proof. by destruct e. Qed.

(** *** What a handler can change *)

Lemma queue_grown_refl e : queue_grown e e.
Proof.
  exists [], [], (m_in_transition e), (m_status e). split; [by left |].
  cbn. rewrite app_nil_r. by destruct e.
Qed.

Lemma queue_grown_trans e1 e2 e3 : queue_grown e1 e2 → queue_grown e2 e3 → queue_grown e1 e3.
Proof.
  intros (pre1 & post1 & f1 & st1 & Hst1 & ->) (pre2 & post2 & f2 & st2 & Hst2 & ->).
  exists (pre2 ++ pre1), (post1 ++ post2), f2, st2. cbn in *. split.
  - destruct Hst1 as [-> | [? ->]], Hst2 as [-> | [? ->]]; auto; done.
  - by rewrite <- !app_assoc.
Qed.

Lemma accept_not_running e event : m_status e ≠ Running → accept e event = Ok false.
Proof.
  intros Hst. unfold accept, running. by rewrite bool_decide_eq_false_2.
Qed.

Lemma transition_not_running e event args :
  m_status e ≠ Running → transition event args e = Ok (false, e).
Proof. intros Hst. unfold transition. by rewrite accept_not_running. Qed.

Lemma raise_not_running e event args :
  m_status e ≠ Running → raise event args e = Ok (false, e).
Proof. intros Hst. unfold raise. by rewrite accept_not_running. Qed.

Lemma transition_cases event args e r e' :
  transition event args e = Ok (r, e') →
  (r = false ∧ e' = e) ∨
  (r = true ∧ m_in_transition e = false ∧ accept e event = Ok true ∧
   e' = set_in_transition true (set_events ((event, args) :: m_events e) e)).
Proof.
  unfold transition. intros H. bind_inv H.
  destruct a, (m_in_transition e) eqn:Hflag; cbn in H; injection H as <- <-; auto.
Qed.

Lemma raise_cases event args e r e' :
  raise event args e = Ok (r, e') →
  (r = false ∧ e' = e) ∨
  (r = true ∧ accept e event = Ok true ∧
   e' = set_events (m_events e ++ [(event, args)]) e).
Proof.
  unfold raise. intros H. bind_inv H.
  destruct a; cbn in H; injection H as <- <-; auto.
Qed.

Lemma transition_queue_grown event args e r e' :
  transition event args e = Ok (r, e') → queue_grown e e'.
Proof.
  intros [[_ ->] | (_ & _ & _ & ->)]%transition_cases.
  - apply queue_grown_refl.
  - exists [(event, args)], [], true, (m_status e). split; [by left |].
    cbn. by rewrite app_nil_r.
Qed.

Lemma raise_queue_grown event args e r e' :
  raise event args e = Ok (r, e') → queue_grown e e'.
Proof.
  intros [[_ ->] | (_ & _ & ->)]%raise_cases.
  - apply queue_grown_refl.
  - exists [], [(event, args)], (m_in_transition e), (m_status e). split; [by left |].
    cbn. by destruct e.
Qed.

Lemma halt_not_running e : m_status e ≠ Running → halt e = e.
Proof. intros Hst. unfold halt, running. by rewrite bool_decide_eq_false_2. Qed.

Lemma halt_queue_grown e : queue_grown e (halt e).
Proof.
  unfold halt, running. case_bool_decide as Hrun; cbn [negb]; [| apply queue_grown_refl].
  exists [], [], (m_in_transition e), Stopped. split; [by right |].
  cbn. rewrite app_nil_r. by destruct e.
Qed.

Lemma handler_calls_queue_grown calls e e' :
  handler_calls calls e = Ok e' → queue_grown e e'.
Proof.
  revert e. induction calls as [| [event args | event args |] rest IH]; intros e H;
    cbn [handler_calls] in H.
  - injection H as <-. apply queue_grown_refl.
  - bind_inv H. destruct a as [r e1].
    eapply queue_grown_trans; [by eapply transition_queue_grown | by apply IH].
  - bind_inv H. destruct a as [r e1].
    eapply queue_grown_trans; [by eapply raise_queue_grown | by apply IH].
  - eapply queue_grown_trans; [apply halt_queue_grown | by apply IH].
Qed.

Lemma handler_calls_not_running calls e :
  m_status e ≠ Running → handler_calls calls e = Ok e.
Proof.
  intros Hst. induction calls as [| [event args | event args |] rest IH];
    cbn [handler_calls]; [done | | |].
  - by rewrite transition_not_running.
  - by rewrite raise_not_running.
  - by rewrite halt_not_running.
Qed.

Lemma action_cases (s : State (Args:=Args)) args e r e' :
  action returns_void s args e = Ok (r, e') →
  ∃ h, m_action s = Some h ∧
       r = (if returns_void then true else returned (h args)) ∧
       queue_grown (emit (Action (m_id s) args) e) e'.
Proof.
  unfold action. destruct (m_action s) as [h |]; [| done].
  intros H. bind_inv H. injection H as <- <-.
  exists h. repeat split. by eapply handler_calls_queue_grown.
Qed.

Lemma toErrorState_cases args e e' :
  toErrorState returns_void args e = Ok e' →
  ∃ err, m_error_state e = Some err ∧ is_Some (m_action err) ∧
         e' = emit (Action (m_id err) args) (set_status Error (set_current (m_id err) e)).
Proof.
  unfold toErrorState, get. destruct (m_error_state e) as [err |]; [| done].
  cbn. unfold action. destruct (m_action err) as [h |] eqn:Hh; [| done].
  rewrite handler_calls_not_running by (cbn; discriminate). cbn.
  intros [= <-]. exists err. rewrite Hh. eauto.
Qed.


(** The members a handler cannot reach, and what it can do to the others. *)
Lemma queue_grown_members e e' :
  queue_grown e e' →
  (∃ pre post, m_events e' = pre ++ m_events e ++ post) ∧
  history e' = history e ∧
  (m_status e' = m_status e ∨ m_status e = Running ∧ m_status e' = Stopped) ∧
  m_current e' = m_current e ∧
  m_error_state e' = m_error_state e ∧ m_states e' = m_states e ∧
  m_stt e' = m_stt e ∧ m_stop_states e' = m_stop_states e ∧
  m_start_state e' = m_start_state e ∧ m_alphabet e' = m_alphabet e.
Proof. intros (pre & post & flag & st & Hst & ->). cbn. eauto 12. Qed.

(** *** The parts of an executed transition *)

Lemma map_subscript_hit (m : gmap N (option (State (Args:=Args)))) (k : N) p :
  m !! k = Some p → map_subscript m k = (m, p).
Proof. unfold map_subscript. by intros ->. Qed.

Lemma map_subscript_miss (m : gmap N (option (State (Args:=Args)))) (k : N) :
  m !! k = None → map_subscript m k = (<[k := None]> m, None).
Proof. unfold map_subscript. by intros ->. Qed.

Lemma transition_finish_cases next copy success e r e' :
  transition_finish returns_void next copy success e = Ok (r, e') →
  (success = true ∧ r = StateChanged ∧
   e' = (if isStopState e next then emit StopSignal e else e)) ∨
  (success = false ∧ r = Fault ∧
   ∃ err, m_error_state e = Some err ∧ is_Some (m_action err) ∧
     e' = emit (Log ExecutionFailed) (emit StopSignal (emit (Action (m_id err) copy)
            (set_status Error (set_current (m_id err) e))))).
Proof.
  unfold transition_finish. destruct success; cbn [negb].
  - intros [= <- <-]. by left.
  - intros H. bind_inv H. injection H as <- <-.
    apply toErrorState_cases in E as (err & Herr & Hact & ->).
    right. eauto 8.
Qed.

(** The destination of an executed transition is a registered state. *)
Lemma transition_enter_destination next args e r e' :
  transition_enter returns_void next args e = Ok (r, e') →
  ∃ dst, m_states e !! next = Some (Some dst).
Proof.
  unfold transition_enter. cbn [m_states set_current].
  destruct (m_states e !! next) as [[dst |] |] eqn:Hnext.
  - eauto.
  - by rewrite (map_subscript_hit _ _ _ Hnext).
  - by rewrite (map_subscript_miss _ _ Hnext).
Qed.

Lemma transition_enter_cases next args e r e' :
  transition_enter returns_void next args e = Ok (r, e') →
  ∃ dst success mid,
    m_states e !! next = Some (Some dst) ∧
    (if hasAction dst
     then action returns_void dst args (set_current next e) = Ok (success, mid)
     else success = false ∧ mid = set_current next e) ∧
    transition_finish returns_void next args success mid = Ok (r, e').
Proof.
  intros H. destruct (transition_enter_destination _ _ _ _ _ H) as [dst Hdst].
  unfold transition_enter in H. cbn [m_states set_current] in H.
  rewrite (map_subscript_hit _ _ _ Hdst) in H. cbn [fst snd deref mbind Result_bind] in H.
  replace (set_states (m_states e) (set_current next e)) with (set_current next e) in H
    by (by destruct e).
  exists dst. destruct (hasAction dst).
  - bind_inv H. destruct a as [success mid]. eauto.
  - cbn [mbind Result_bind] in H. eauto 6.
Qed.

(** The table lookups read the table and the state map only. *)
Lemma lookup_fuel_members fuel e1 e2 state event :
  m_stt e1 = m_stt e2 → m_states e1 = m_states e2 →
  lookup_fuel fuel e1 state event = lookup_fuel fuel e2 state event.
Proof.
  intros Hstt Hstates. revert state.
  induction fuel as [| fuel IH]; intros state; cbn; [done |].
  destruct (deref state) as [st |]; cbn; [| done].
  rewrite Hstt, Hstates. destruct (m_stt e2 !! _); [done |].
  destruct (negb (hasParent st)); [done |].
  destruct (map_at (m_states e2) (m_parent st)); cbn; [apply IH | done].
Qed.

Lemma lookup_members e1 e2 state event :
  m_stt e1 = m_stt e2 → m_states e1 = m_states e2 →
  lookup e1 state event = lookup e2 state event.
Proof.
  intros Hstt Hstates. unfold lookup, chain_fuel. rewrite Hstates.
  by apply lookup_fuel_members.
Qed.

Lemma accept_loop_members fuel e1 e2 state event :
  m_stt e1 = m_stt e2 → m_states e1 = m_states e2 →
  accept_loop fuel e1 state event = accept_loop fuel e2 state event.
Proof.
  intros Hstt Hstates. revert state.
  induction fuel as [| fuel IH]; intros state; cbn; [done |].
  destruct (deref state) as [st |]; cbn; [| done].
  rewrite Hstt, Hstates. destruct (m_stt e2 !! _); [done |].
  destruct (m_parent st =? 0); [done |].
  destruct (map_at (m_states e2) (m_parent st)) as [[p |] |]; cbn; [apply IH | done | done].
Qed.

Lemma accept_members e1 e2 event :
  m_stt e1 = m_stt e2 → m_states e1 = m_states e2 →
  m_status e1 = m_status e2 → m_current e1 = m_current e2 →
  accept e1 event = accept e2 event.
Proof.
  intros Hstt Hstates Hstatus Hcur. unfold accept, running, current_at, chain_fuel.
  rewrite Hstatus, Hstates, Hcur. destruct (negb _); [done |].
  destruct (map_at _ _); cbn [mbind Result_bind]; [by apply accept_loop_members | done].
Qed.

Lemma transition_exec_cases event args e r e' :
  transition_exec returns_void event args e = Ok (r, e') →
  (m_status e ≠ Running ∧ r = m_status e ∧ e' = emit WatchdogReset e) ∨
  (m_status e = Running ∧
   ∃ cur t, m_states e !! m_current e = Some cur ∧ lookup e cur event = Ok (Some t) ∧
            transition_enter returns_void (m_next t) args (emit WatchdogReset e) = Ok (r, e')).
Proof.
  unfold transition_exec, running. cbn [m_status m_states m_current emit].
  case_bool_decide as Hrun; cbn [negb].
  - intros H. right. split; [done |].
    unfold map_at in H. destruct (m_states e !! m_current e) as [cur |] eqn:Hcur; [| done].
    cbn [mbind Result_bind] in H.
    rewrite (lookup_members _ e) in H by done.
    destruct (lookup e cur event) as [[t |] |] eqn:Hlook; cbn [mbind Result_bind] in H;
      [| done | done].
    eauto.
  - intros [= <- <-]. by left.
Qed.

Lemma step_cases e r e' :
  step returns_void e = Ok (r, e') →
  (m_events e = [] ∧ r = StateUnchanged ∧ e' = e) ∨
  (∃ event args rest e1,
     m_events e = (event, args) :: rest ∧
     transition_exec returns_void event args (set_events rest e) = Ok (r, e1) ∧
     e' = set_in_transition false e1).
Proof.
  unfold step. destruct (m_events e) as [| [event args] rest].
  - intros [= <- <-]. by left.
  - intros H. bind_inv H. destruct a as [rv e1]. injection H as <- <-.
    right. eauto 8.
Qed.

(** *** Steps of an engine that is not running *)

(** C6 (amended).  For an engine whose status is not [Running]: with an empty
    queue [step] returns [StateUnchanged] and changes nothing; otherwise it
    takes the front record off the queue, resets the watchdog, clears the
    in-transition flag and returns the latched status, leaving [current] and
    the status as they were. *)
Theorem step_not_running e :
  m_status e ≠ Running →
  step returns_void e =
  match m_events e with
  | [] => Ok (StateUnchanged, e)
  | _ :: rest =>
      Ok (m_status e, set_in_transition false (emit WatchdogReset (set_events rest e)))
  end.
Proof.
  intros Hst. unfold step. destruct (m_events e) as [| [event args] rest]; [done |].
  unfold transition_exec, running. cbn [m_status emit set_events fst snd].
  by rewrite bool_decide_eq_false_2.
Qed.

(** *** Steps that fault *)

(** What the engine looks like after the destination's handler ran (or was
    found missing), before the verdict on its result. *)
Lemma entered_members (dst : State (Args:=Args)) next args e success mid :
  (if hasAction dst
   then action returns_void dst args (set_current next e) = Ok (success, mid)
   else success = false ∧ mid = set_current next e) →
  m_error_state mid = m_error_state e ∧ m_states mid = m_states e ∧
  m_stt mid = m_stt e ∧
  (m_status mid = m_status e ∨ m_status e = Running ∧ m_status mid = Stopped) ∧
  m_current mid = next ∧
  m_stop_states mid = m_stop_states e ∧
  (∃ pre post, m_events mid = pre ++ m_events e ++ post) ∧
  (∃ out, history mid = history e ++ out) ∧
  (success = false →
   m_action dst = None ∨
   returns_void = false ∧ ∃ h, m_action dst = Some h ∧ returned (h args) = false).
Proof.
  unfold hasAction. destruct (m_action dst) as [h |] eqn:Hh.
  - rewrite bool_decide_eq_true_2 by eauto.
    intros (h' & Hh' & Hsucc & Hgrown)%action_cases.
    rewrite Hh in Hh'. injection Hh' as <-.
    apply queue_grown_members in Hgrown
      as (Hq & Hhist & Hst & Hcur & Herr & Hstates & Hstt & Hstop & _).
    cbn in *. repeat split; try done.
    + exists [Action (m_id dst) args]. done.
    + intros ->. right. destruct returns_void; [done |]. eauto.
  - rewrite bool_decide_eq_false_2 by (by intros [? ?]).
    intros [-> ->]. cbn. repeat split; try done.
    + by left.
    + exists [], []. by rewrite app_nil_r.
    + exists []. by rewrite app_nil_r.
    + by left.
Qed.

(** C7.  Whenever [step] returns [Fault], the record it took off the queue
    led into a registered destination whose handler is missing or returned
    [false]; afterwards [current] is the id of the error state, the status is
    [Error], and the last effects of the step are the call of the error
    state's handler with the arguments of that record, the pulse of the stop
    signal and the log line. *)
Theorem step_fault_enters_error_state e e' :
  status_latched e →
  step returns_void e = Ok (Fault, e') →
  ∃ event args rest err cur t dst,
    m_events e = (event, args) :: rest ∧
    m_error_state e = Some err ∧ m_error_state e' = Some err ∧
    m_current e' = m_id err ∧ m_status e' = Error ∧
    (∃ before, history e' =
       history e ++ before ++ [Action (m_id err) args; StopSignal; Log ExecutionFailed]) ∧
    m_states e !! m_current e = Some cur ∧ lookup e cur event = Ok (Some t) ∧
    m_states e !! m_next t = Some (Some dst) ∧
    (m_action dst = None ∨
     returns_void = false ∧ ∃ h, m_action dst = Some h ∧ returned (h args) = false).
Proof.
  intros Hlatched Hstep.
  apply step_cases in Hstep as [(_ & [=] & _) | (event & args & rest & e1 & Hq & Hexec & ->)].
  apply transition_exec_cases in Hexec
    as [(Hnot & Hr & _) | (Hrun & cur & t & Hcur & Hlook & Henter)].
  { cbn in Hr. destruct Hlatched as [H | [H | H]]; congruence. }
  cbn in Hcur.
  rewrite (lookup_members _ e) in Hlook by done.
  apply transition_enter_cases in Henter as (dst & success & mid & Hdst & Hmid & Hfin).
  apply entered_members in Hmid
    as (Herr & _ & _ & _ & _ & _ & _ & [out Hhist] & Hcause).
  apply transition_finish_cases in Hfin
    as [(_ & [=] & _) | (-> & _ & err & Herr' & _ & ->)].
  pose proof Herr' as Herr_mid. rewrite Herr in Herr'. cbn in Herr', Hdst, Hhist.
  exists event, args, rest, err, cur, t, dst. cbn.
  repeat split; try done.
  - exists (WatchdogReset :: out). rewrite Hhist.
    by rewrite <- !app_assoc.
  - by apply Hcause.
Qed.

(** *** The queue discipline *)

Lemma raise_enqueues_back event args e e' :
  raise event args e = Ok (true, e') → m_events e' = m_events e ++ [(event, args)].
Proof. by intros [[[=] _] | (_ & _ & ->)]%raise_cases. Qed.

Lemma transition_enqueues_front event args e e' :
  transition event args e = Ok (true, e') → m_events e' = (event, args) :: m_events e.
Proof. by intros [[[=] _] | (_ & _ & _ & ->)]%transition_cases. Qed.

(** What the calls of one handler run do to the queue: at most one record
    is put in front, by an accepted [transition], which needs a clear
    in-transition flag and sets it; the accepted raises are put at the back
    in the order of the calls. *)
Lemma handler_calls_queue calls e e' :
  handler_calls calls e = Ok e' →
  ∃ pre post, m_events e' = pre ++ m_events e ++ post ∧
    (pre = [] ∧ m_in_transition e' = m_in_transition e ∨
     m_in_transition e = false ∧ m_in_transition e' = true ∧ ∃ record, pre = [record]) ∧
    (∀ record, record ∈ pre → CallTransition record.1 record.2 ∈ calls) ∧
    (∀ record, record ∈ post → CallRaise record.1 record.2 ∈ calls).
Proof.
  revert e. induction calls as [| [event args | event args |] calls IH]; intros e H;
    cbn [handler_calls] in H.
  - injection H as <-. exists [], []. rewrite app_nil_r.
    split; [done |]. split; [by left |]. split; by intros record ?%elem_of_nil.
  - bind_inv H. destruct a as [r e1].
    apply IH in H as (pre & post & Hq & Hpre & Hfront & Hback).
    assert (Hback' : ∀ record, record ∈ post →
              CallRaise record.1 record.2 ∈ CallTransition event args :: calls)
      by (intros record Hin; right; by apply Hback).
    apply transition_cases in E as [[_ ->] | (_ & Hflag & _ & ->)].
    + exists pre, post. split; [done |]. split; [done |]. split; [| done].
      intros record Hin. right. by apply Hfront.
    + cbn in Hq, Hpre. destruct Hpre as [[-> Hflag'] | [[=] _]].
      exists [(event, args)], post. split; [done |]. split; [right; eauto |].
      split; [| done]. intros record ->%list_elem_of_singleton. by left.
  - bind_inv H. destruct a as [r e1].
    apply IH in H as (pre & post & Hq & Hpre & Hfront & Hback).
    assert (Hfront' : ∀ record, record ∈ pre →
              CallTransition record.1 record.2 ∈ CallRaise event args :: calls)
      by (intros record Hin; right; by apply Hfront).
    apply raise_cases in E as [[_ ->] | (_ & _ & ->)].
    + exists pre, post. split; [done |]. split; [done |]. split; [done |].
      intros record Hin. right. by apply Hback.
    + cbn in Hq, Hpre. exists pre, ((event, args) :: post).
      split; [by rewrite Hq, <- !app_assoc |]. split; [done |]. split; [done |].
      intros record [-> | Hin]%elem_of_cons; [by left | right; by apply Hback].
  - apply IH in H as (pre & post & Hq & Hpre & Hfront & Hback).
    assert (Hh : m_events (halt e) = m_events e ∧ m_in_transition (halt e) = m_in_transition e)
      by (unfold halt; by destruct (negb (running e))).
    destruct Hh as [Hhq Hhf]. rewrite Hhq in Hq. rewrite Hhf in Hpre.
    exists pre, post. split; [done |]. split; [done |].
    split; intros record Hin; right; auto.
Qed.

(** The handler run behind a successful [action]. *)
Lemma action_calls (s : State (Args:=Args)) args e r e' :
  action returns_void s args e = Ok (r, e') →
  ∃ h, m_action s = Some h ∧
       handler_calls (requests (h args)) (emit (Action (m_id s) args) e) = Ok e'.
Proof.
  unfold action. destruct (m_action s) as [h |]; [| done].
  intros H. bind_inv H. injection H as <- <-. eauto.
Qed.

(** A step takes the record at the front.  What it leaves in front of the
    records that were waiting is at most one record, requested through
    [transition] by the handler it ran; what it leaves behind them was
    raised by that handler. *)
Lemma step_queue e r e' x rest :
  step returns_void e = Ok (r, e') → m_events e = x :: rest →
  m_in_transition e' = false ∧
  ∃ pre post, m_events e' = pre ++ rest ++ post ∧
    (pre = [] ∨ m_in_transition e = false ∧ ∃ record, pre = [record]) ∧
    (m_status e ≠ Running → pre = [] ∧ post = []) ∧
    (∀ record, record ∈ pre → requested e x.2 (CallTransition record.1 record.2)) ∧
    (∀ record, record ∈ post → requested e x.2 (CallRaise record.1 record.2)).
Proof.
  intros [(Hq & _ & _) | (event & args & rest' & e1 & Hq & Hexec & ->)]%step_cases Hx;
    [congruence |].
  rewrite Hx in Hq. injection Hq as -> <-. split; [done |].
  assert (Hnone : ∃ pre post : list (N * Args),
            rest = pre ++ rest ++ post ∧
            (pre = [] ∨ m_in_transition e = false ∧ ∃ record, pre = [record]) ∧
            (m_status e ≠ Running → pre = [] ∧ post = []) ∧
            (∀ record, record ∈ pre →
               requested e (event, args).2 (CallTransition record.1 record.2)) ∧
            (∀ record, record ∈ post →
               requested e (event, args).2 (CallRaise record.1 record.2))).
  { exists [], []. rewrite app_nil_r. split; [done |]. split; [by left |].
    split; [done |]. split; by intros record ?%elem_of_nil. }
  apply transition_exec_cases in Hexec
    as [(_ & _ & ->) | (Hrun & cur & t & _ & _ & Henter)]; [exact Hnone |].
  cbn in Hrun.
  apply transition_enter_cases in Henter as (dst & success & mid & Hdst & Hmid & Hfin).
  cbn in Hdst.
  assert (Hq : m_events e1 = m_events mid).
  { apply transition_finish_cases in Hfin
      as [(_ & _ & ->) | (_ & _ & err & _ & _ & ->)]; cbn; [| done].
    by destruct (isStopState mid (m_next t)). }
  cbn. rewrite Hq. clear Hfin Hq.
  destruct (hasAction dst); [| by destruct Hmid as [_ ->]].
  apply action_calls in Hmid as (h & Hh & Hcalls).
  apply handler_calls_queue in Hcalls as (pre & post & Hq & Hpre & Hfront & Hback).
  cbn in Hq, Hpre. exists pre, post. split; [done |]. split.
  { destruct Hpre as [[-> _] | (Hflag & _ & Hone)]; [by left | by right]. }
  split; [done |].
  split; intros record Hin; exists (m_next t), dst, h; auto.
Qed.

(** A step of an engine whose handlers make no calls takes the front record
    and leaves the rest of the queue as it is. *)
Lemma step_queue_quiet e r e' x rest :
  quiet e → step returns_void e = Ok (r, e') → m_events e = x :: rest →
  m_events e' = rest.
Proof.
  intros Hquiet Hstep Hx.
  destruct (step_queue _ _ _ _ _ Hstep Hx) as (_ & pre & post & -> & _ & _ & Hfront & Hback).
  assert (Hpre : pre = []).
  { destruct pre as [| record pre]; [done |].
    destruct (Hfront record) as (id & s & h & Hs & Hh & Hin); [by left |].
    rewrite (Hquiet _ _ _ _ Hs Hh) in Hin. by apply elem_of_nil in Hin. }
  assert (Hpost : post = []).
  { destruct post as [| record post]; [done |].
    destruct (Hback record) as (id & s & h & Hs & Hh & Hin); [by left |].
    rewrite (Hquiet _ _ _ _ Hs Hh) in Hin. by apply elem_of_nil in Hin. }
  rewrite Hpre, Hpost. by rewrite app_nil_r.
Qed.

Lemma step_states e r e' : step returns_void e = Ok (r, e') → m_states e' = m_states e.
Proof.
  intros [(_ & _ & ->) | (event & args & rest & e1 & _ & Hexec & ->)]%step_cases;
    [done |].
  apply transition_exec_cases in Hexec
    as [(_ & _ & ->) | (_ & cur & t & _ & _ & Henter)]; [done |].
  apply transition_enter_cases in Henter as (dst & success & mid & _ & Hmid & Hfin).
  apply entered_members in Hmid as (_ & Hstates & _).
  apply transition_finish_cases in Hfin
    as [(_ & _ & ->) | (_ & _ & err & _ & _ & ->)]; cbn.
  - by destruct (isStopState mid (m_next t)).
  - done.
Qed.

(** Without calls from the handlers the driver takes the waiting records
    one by one, in their queue order. *)
Lemma drive_quiet n e taken e' :
  quiet e → drive returns_void n e = Ok (taken, e') →
  taken = take n (m_events e) ∧ m_events e' = drop n (m_events e).
Proof.
  revert e taken e'. induction n as [| n IH]; intros e taken e' Hquiet H; cbn [drive] in H.
  - injection H as <- <-. by rewrite take_0, drop_0.
  - bind_inv H. destruct a as [r e1]. bind_inv H. destruct a as [taken1 e2].
    injection H as <- <-.
    assert (Hquiet1 : quiet e1).
    { intros id s h args. rewrite (step_states _ _ _ E). apply Hquiet. }
    apply (IH _ _ _ Hquiet1) in E0 as [-> ->].
    destruct (m_events e) as [| x rest] eqn:Hq.
    + apply step_cases in E as [(_ & _ & ->) | (? & ? & ? & ? & Hq' & _)];
        [| congruence].
      rewrite Hq. by rewrite take_nil, drop_nil.
    + rewrite (step_queue_quiet _ _ _ _ _ Hquiet E Hq). done.
Qed.

Lemma drive_takes_front n e taken e' x rest :
  drive returns_void (S n) e = Ok (taken, e') →
  m_events e = x :: rest → ∃ l, taken = x :: l.
Proof.
  cbn [drive]. intros H Hq. bind_inv H. destruct a as [r e1].
  bind_inv H. destruct a as [taken1 e2]. injection H as <- <-.
  rewrite Hq. eauto.
Qed.

(** Records that wait in the queue are taken in their queue order, however
    many records the handlers put in front of them or behind them in
    between; those not yet taken still wait, in their order. *)
Lemma drive_keeps_order n e taken e' :
  drive returns_void n e = Ok (taken, e') →
  ∃ k pre post, take k (m_events e) `sublist_of` taken ∧
                m_events e' = pre ++ drop k (m_events e) ++ post.
Proof.
  revert e taken e'. induction n as [| n IH]; intros e taken e' H; cbn [drive] in H.
  - injection H as <- <-. exists 0%nat, [], [].
    split; [apply sublist_nil_l |]. by rewrite drop_0, app_nil_r.
  - bind_inv H. destruct a as [r e1]. bind_inv H. destruct a as [taken1 e2].
    injection H as <- <-.
    apply IH in E0 as (k1 & pre' & post' & Hsub & Hq').
    destruct (m_events e) as [| x rest] eqn:Hq.
    { apply step_cases in E as [(_ & _ & ->) | (? & ? & ? & ? & Hq1 & _)];
        [| congruence].
      rewrite Hq in Hsub, Hq'. by exists k1, pre', post'. }
    destruct (step_queue _ _ _ _ _ E Hq) as (_ & pre & post & Hq1 & _).
    rewrite Hq1 in Hsub, Hq'.
    destruct (decide (k1 ≤ length pre)%nat) as [Hle | Hgt].
    + exists 1%nat, (pre' ++ drop k1 pre), (post ++ post'). cbn. split.
      * rewrite take_0. apply sublist_skip, sublist_nil_l.
      * rewrite drop_0, Hq'. rewrite drop_app_le by done.
        by rewrite <- !app_assoc.
    + destruct (decide (k1 - length pre ≤ length rest)%nat) as [Hin | Hout].
      * exists (S (k1 - length pre)), pre', (post ++ post'). cbn. split.
        -- apply sublist_skip. etrans; [| exact Hsub].
           rewrite take_app_ge by lia. apply sublist_inserts_l.
           rewrite take_app_le by done. done.
        -- rewrite Hq'. rewrite drop_app_ge by lia.
           rewrite drop_app_le by done. by rewrite <- !app_assoc.
      * exists (S (length rest)), (m_events e2), []. cbn. split.
        -- apply sublist_skip. rewrite firstn_all. etrans; [| exact Hsub].
           rewrite take_app_ge by lia. apply sublist_inserts_l.
           rewrite take_app_ge by lia. by apply sublist_inserts_r.
        -- rewrite drop_all. by rewrite !app_nil_r.
Qed.

(** C8.  [raise] appends its record at the back of the queue and
    [transition] puts its record at the front.  [step] takes the front
    record off the queue: after it the records that were waiting behind that
    record are still there, in their order, preceded by at most one record,
    which the handler that ran requested through [transition], and followed
    by the records that handler raised; a step of an engine that is not
    running adds nothing.  So a driver takes the front record first; on an
    engine whose handlers make no calls it takes the waiting records one by
    one in their queue order, which for raised records is the order of the
    raises; and in general the waiting records are taken in their queue
    order, with handler-initiated records taken before the records that were
    waiting when they were enqueued. *)
Theorem queue_discipline :
  (∀ e event args e',
     raise event args e = Ok (true, e') →
     m_events e' = m_events e ++ [(event, args)]) ∧
  (∀ e event args e',
     transition event args e = Ok (true, e') →
     m_events e' = (event, args) :: m_events e) ∧
  (∀ e r e' x rest,
     step returns_void e = Ok (r, e') → m_events e = x :: rest →
     ∃ pre post, m_events e' = pre ++ rest ++ post ∧
       (length pre ≤ 1)%nat ∧
       (m_status e ≠ Running → pre = [] ∧ post = []) ∧
       (∀ record, record ∈ pre → requested e x.2 (CallTransition record.1 record.2)) ∧
       (∀ record, record ∈ post → requested e x.2 (CallRaise record.1 record.2))) ∧
  (∀ n e taken e',
     quiet e → drive returns_void n e = Ok (taken, e') →
     taken = take n (m_events e) ∧ m_events e' = drop n (m_events e)) ∧
  (∀ n e taken e',
     drive returns_void n e = Ok (taken, e') →
     (∀ x rest, (0 < n)%nat → m_events e = x :: rest → ∃ l, taken = x :: l) ∧
     ∃ k pre post, take k (m_events e) `sublist_of` taken ∧
                   m_events e' = pre ++ drop k (m_events e) ++ post).
Proof.
  split; [| split; [| split; [| split]]].
  - intros. by apply raise_enqueues_back.
  - intros. by apply transition_enqueues_front.
  - intros e r e' x rest Hstep Hq.
    destruct (step_queue _ _ _ _ _ Hstep Hq)
      as (_ & pre & post & Hq' & Hpre & Hidle & Hfront & Hback).
    exists pre, post. split; [done |]. split; [| done].
    destruct Hpre as [-> | (_ & record & ->)]; cbn; lia.
  - intros. by eapply drive_quiet.
  - intros n e taken e' H. split; [| by eapply drive_keeps_order].
    intros x rest Hn Hq. destruct n as [| n]; [lia |].
    by eapply drive_takes_front.
Qed.

(** *** The destination of a transition *)

Lemma null_free_bind {A B : Type} (m : Result A) (f : A → Result B) :
  null_free m → (∀ a, m = Ok a → null_free (f a)) → null_free (m ≫= f).
Proof.
  intros Hm Hf. destruct m as [a | u]; cbn; [by apply Hf |].
  intros [= ->]. by apply Hm.
Qed.

Lemma map_at_null_free {V : Type} (m : gmap N V) k : null_free (map_at m k).
Proof. unfold map_at. by destruct (m !! k). Qed.

Lemma map_at_nonnull e id p :
  states_nonnull e → map_at (m_states e) id = Ok p → ∃ s, p = Some s.
Proof.
  unfold map_at. intros Hnn. destruct (m_states e !! id) as [[s |] |] eqn:Hp; intros [=].
  - eauto.
  - by destruct (Hnn id).
Qed.

Lemma lookup_fuel_null_free fuel e (st : State (Args:=Args)) event :
  states_nonnull e → null_free (lookup_fuel fuel e (Some st) event).
Proof.
  intros Hnn. revert st. induction fuel as [| fuel IH]; intros st; cbn; [done |].
  destruct (m_stt e !! _); [done |].
  destruct (negb (hasParent st)); [done |].
  apply null_free_bind; [apply map_at_null_free |].
  intros p [s ->]%(map_at_nonnull _ _ _ Hnn). apply IH.
Qed.

Lemma accept_loop_null_free fuel e (st : State (Args:=Args)) event :
  null_free (accept_loop fuel e (Some st) event).
Proof.
  revert st. induction fuel as [| fuel IH]; intros st; cbn; [done |].
  destruct (m_stt e !! _); [done |].
  destruct (m_parent st =? 0); [done |].
  apply null_free_bind; [apply map_at_null_free |].
  intros [s |] _; [apply IH | done].
Qed.

Lemma accept_null_free e event : states_nonnull e → null_free (accept e event).
Proof.
  intros Hnn. unfold accept. destruct (negb (running e)); [done |].
  apply null_free_bind; [apply map_at_null_free |].
  intros p [s ->]%(map_at_nonnull _ _ _ Hnn). apply accept_loop_null_free.
Qed.

Lemma transition_null_free event args e :
  states_nonnull e → null_free (transition event args e).
Proof.
  intros Hnn. unfold transition. apply null_free_bind; [by apply accept_null_free |].
  intros acc _. by destruct (negb acc || m_in_transition e).
Qed.

Lemma queue_grown_nonnull e e' : queue_grown e e' → states_nonnull e → states_nonnull e'.
Proof. intros (pre & post & flag & st & _ & ->) Hnn. exact Hnn. Qed.

Lemma raise_null_free event args e :
  states_nonnull e → null_free (raise event args e).
Proof.
  intros Hnn. unfold raise. apply null_free_bind; [by apply accept_null_free |].
  intros acc _. by destruct (negb acc).
Qed.

Lemma handler_calls_null_free calls e :
  states_nonnull e → null_free (handler_calls calls e).
Proof.
  revert e. induction calls as [| [event args | event args |] rest IH]; intros e Hnn;
    cbn [handler_calls]; [done | | |].
  - apply null_free_bind; [by apply transition_null_free |].
    intros [r e1] Htr. apply IH.
    eapply queue_grown_nonnull; [by eapply transition_queue_grown | done].
  - apply null_free_bind; [by apply raise_null_free |].
    intros [r e1] Htr. apply IH.
    eapply queue_grown_nonnull; [by eapply raise_queue_grown | done].
  - apply IH. eapply queue_grown_nonnull; [apply halt_queue_grown | done].
Qed.

Lemma action_null_free (s : State (Args:=Args)) args e :
  states_nonnull e → null_free (action returns_void s args e).
Proof.
  intros Hnn. unfold action. destruct (m_action s) as [h |]; [| done].
  apply null_free_bind; [by apply handler_calls_null_free | done].
Qed.

Lemma toErrorState_null_free args e :
  states_nonnull e → null_free (toErrorState returns_void args e).
Proof.
  intros Hnn. unfold toErrorState.
  apply null_free_bind; [unfold get; by destruct (m_error_state e) |].
  intros err _. apply null_free_bind; [by apply action_null_free |].
  by intros [r e2] _.
Qed.

Lemma transition_finish_null_free next copy success e :
  states_nonnull e → null_free (transition_finish returns_void next copy success e).
Proof.
  intros Hnn. unfold transition_finish. destruct (negb success); [| done].
  apply null_free_bind; [by apply toErrorState_null_free | done].
Qed.

Lemma transition_enter_null_free next args e dst :
  states_nonnull e → m_states e !! next = Some (Some dst) →
  null_free (transition_enter returns_void next args e).
Proof.
  intros Hnn Hdst. unfold transition_enter. cbn [m_states set_current].
  rewrite (map_subscript_hit _ _ _ Hdst). cbn [fst snd deref mbind Result_bind].
  replace (set_states (m_states e) (set_current next e)) with (set_current next e)
    by (by destruct e).
  apply null_free_bind.
  - destruct (hasAction dst); [by apply action_null_free | done].
  - intros [success mid] Hmid. apply transition_finish_null_free.
    destruct (hasAction dst).
    + apply action_cases in Hmid as (_ & _ & _ & Hgrown).
      by eapply queue_grown_nonnull.
    + by injection Hmid as <- <-.
Qed.

(** A row found by [lookup] is a row of the table. *)
Lemma lookup_fuel_row fuel e state event t :
  lookup_fuel fuel e state event = Ok (Some t) → ∃ index, m_stt e !! index = Some t.
Proof.
  revert state. induction fuel as [| fuel IH]; intros state; cbn; [done |].
  destruct (deref state) as [st |]; cbn; [| done].
  destruct (m_stt e !! _) as [t' |] eqn:Hrow.
  - intros [= ->]. eauto.
  - destruct (negb (hasParent st)); [done |].
    destruct (map_at _ _) as [p |]; cbn; [apply IH | done].
Qed.

Lemma step_null_free e : states_nonnull e → stt_closed e → null_free (step returns_void e).
Proof.
  intros Hnn Hclosed. unfold step.
  destruct (m_events e) as [| [event args] rest]; [done |]. cbn [fst snd].
  apply null_free_bind; [| by intros [r e1] _].
  unfold transition_exec. cbn [emit set_events m_status m_states m_current].
  destruct (negb (running _)); [done |].
  apply null_free_bind; [apply map_at_null_free |].
  intros p [cur ->]%(map_at_nonnull _ _ _ Hnn).
  apply null_free_bind; [by apply lookup_fuel_null_free |].
  intros [t |] Hlook; cbn [mbind Result_bind]; [| done].
  apply lookup_fuel_row in Hlook as [index Hrow]. cbn in Hrow.
  destruct (Hclosed _ _ Hrow) as [dst Hdst].
  by eapply transition_enter_null_free.
Qed.

Lemma step_dangling_destination e event args rest cur t :
  m_status e = Running →
  m_events e = (event, args) :: rest →
  m_states e !! m_current e = Some cur →
  lookup e cur event = Ok (Some t) →
  (∀ dst, m_states e !! m_next t ≠ Some (Some dst)) →
  step returns_void e = Undefined NullStatePointer.
Proof.
  intros Hrun Hq Hcur Hlook Hdangling. unfold step. rewrite Hq. cbn [fst snd].
  unfold transition_exec, running. cbn [emit set_events m_status m_states m_current].
  rewrite bool_decide_eq_true_2 by done. cbn [negb].
  unfold map_at. rewrite Hcur. cbn [mbind Result_bind].
  rewrite (lookup_members _ e) by done. rewrite Hlook. cbn [mbind Result_bind].
  unfold transition_enter. cbn [m_states set_current emit set_events].
  destruct (m_states e !! m_next t) as [[dst |] |] eqn:Hnext.
  - by destruct (Hdangling dst).
  - by rewrite (map_subscript_hit _ _ _ Hnext).
  - by rewrite (map_subscript_miss _ _ Hnext).
Qed.

Lemma addTransition_unchecked_destination (state : N) (t : Transition (Args:=Args)) e :
  m_stt e !! SttIndex state (m_event t) = None →
  m_states e !! m_next t = None →
  fst (addTransition state t e) = true ∧
  m_stt (snd (addTransition state t e)) !! SttIndex state (m_event t) = Some t ∧
  ¬ stt_closed (snd (addTransition state t e)).
Proof.
  intros Hfree Hnext.
  destruct (addTransition_table state t e) as (Hr & Hstt).
  pose proof (addTransition_states state t e) as Hstates.
  cbn zeta in Hr, Hstt.
  unfold map_contains in Hr, Hstt. rewrite Hfree in Hr, Hstt.
  rewrite bool_decide_eq_false_2 in Hr, Hstt by (by intros [? ?]).
  assert (Hrow : m_stt (snd (addTransition state t e)) !! SttIndex state (m_event t) = Some t).
  { rewrite Hstt. apply lookup_insert_eq. }
  repeat split; [done | done |].
  intros Hclosed. destruct (Hclosed _ _ Hrow) as [dst Hdst].
  rewrite Hstates, Hnext in Hdst. done.
Qed.

(** C10.  A running [step] subscripts the state map with the destination of
    the resolved row and dereferences what it gets.  When that id is not a
    registered state the dereference hits a null pointer; when every row of
    the table leads to a registered state no step dereferences a null state
    pointer; and [addTransition] stores a row whose destination is not
    registered without complaint, so it does not establish that condition. *)
Theorem step_dereferences_unchecked_destination :
  (∀ e event args rest cur t,
     m_status e = Running →
     m_events e = (event, args) :: rest →
     m_states e !! m_current e = Some cur →
     lookup e cur event = Ok (Some t) →
     (∀ dst, m_states e !! m_next t ≠ Some (Some dst)) →
     step returns_void e = Undefined NullStatePointer) ∧
  (∀ e, states_nonnull e → stt_closed e → null_free (step returns_void e)) ∧
  (∀ state (t : Transition (Args:=Args)) e,
     m_stt e !! SttIndex state (m_event t) = None →
     m_states e !! m_next t = None →
     fst (addTransition state t e) = true ∧
     m_stt (snd (addTransition state t e)) !! SttIndex state (m_event t) = Some t ∧
     ¬ stt_closed (snd (addTransition state t e))).
Proof.
  split; [| split].
  - intros. by eapply step_dangling_destination.
  - intros. by apply step_null_free.
  - intros. by apply addTransition_unchecked_destination.
Qed.

Lemma states_nonnull_check e : states_nonnull_b e = true → states_nonnull e.
Proof.
  unfold states_nonnull_b, state_pointers. rewrite forallb_forall.
  intros Hall id Hnull.
  assert (Hin : In None (snd <$> map_to_list (m_states e))).
  { apply list_elem_of_In, list_elem_of_fmap. exists (id, None).
    split; [done | by apply elem_of_map_to_list]. }
  apply Hall in Hin. apply bool_decide_eq_true_1 in Hin. by destruct Hin.
Qed.

Lemma stt_closed_check e : stt_closed_b e = true → stt_closed e.
Proof.
  unfold stt_closed_b. rewrite forallb_forall. intros Hall index t Hrow.
  assert (Hin : In (index, t) (map_to_list (m_stt e))).
  { by apply list_elem_of_In, elem_of_map_to_list. }
  apply Hall in Hin. cbn in Hin.
  destruct (m_states e !! m_next t) as [[s |] |]; [eauto | done | done].
Qed.

Lemma quiet_check e :
  Forall (fun p : N * option (State (Args:=Args)) =>
            match p.2 with
            | Some s => match m_action s with
                        | Some h => ∀ args, requests (h args) = []
                        | None => True
                        end
            | None => True
            end) (map_to_list (m_states e)) →
  quiet e.
Proof.
  rewrite Forall_forall. intros Hall id s h args Hs Hh.
  specialize (Hall (id, Some s)). cbn in Hall. rewrite Hh in Hall.
  apply Hall. by apply elem_of_map_to_list.
Qed.

(** *** The latched status *)

Lemma FsmBase_new_latched silent : status_latched (FsmBase_new (Args:=Args) silent).
Proof. by left. Qed.

Lemma halt_latched e : status_latched e → status_latched (halt e).
Proof.
  intros H. unfold halt. destruct (negb (running e)); [done | by left].
Qed.

Lemma deterministic_status e b e' : deterministic e = Ok (b, e') → m_status e' = m_status e.
Proof.
  unfold deterministic. intros H. bind_inv H.
  destruct a; by injection H as <- <-.
Qed.

Lemma valid_status e b e' : valid e = Ok (b, e') → m_status e' = m_status e.
Proof.
  unfold valid. repeat (destruct (_ : bool); [by intros [= <- <-] |]).
  apply deterministic_status.
Qed.

Lemma start_latched check e e' : start check e = Ok e' → status_latched e → status_latched e'.
Proof.
  assert (Hun : ∀ e0 e1, start_unchecked e0 = Ok e1 → status_latched e1).
  { unfold start_unchecked. intros e0 e1 H. bind_inv H. injection H as <-.
    right. by left. }
  unfold start. destruct check; [| eauto].
  intros H Hl. bind_inv H. destruct a as [ok e1].
  destruct (negb ok); [| eauto].
  injection H as <-. apply valid_status in E. unfold status_latched. by rewrite E.
Qed.

Lemma stop_latched recurse e r e' :
  stop recurse e = Ok (r, e') → status_latched e → status_latched e'.
Proof.
  unfold stop. intros H Hl. destruct (negb (running e)); [by injection H as <- <- |].
  do 3 bind_inv H.
  repeat (destruct (_ : bool); [injection H as <- <-; first [by left | done] |]).
  done.
Qed.

Lemma raise_latched event args e r e' :
  raise event args e = Ok (r, e') → status_latched e → status_latched e'.
Proof. by intros [[_ ->] | (_ & _ & ->)]%raise_cases. Qed.

Lemma transition_latched event args e r e' :
  transition event args e = Ok (r, e') → status_latched e → status_latched e'.
Proof. by intros [[_ ->] | (_ & _ & _ & ->)]%transition_cases. Qed.

Lemma step_latched e r e' :
  step returns_void e = Ok (r, e') → status_latched e → status_latched e'.
Proof.
  intros [(_ & _ & ->) | (event & args & rest & e1 & _ & Hexec & ->)]%step_cases Hl;
    [done |].
  apply transition_exec_cases in Hexec
    as [(_ & _ & ->) | (_ & cur & t & _ & _ & Henter)]; [done |].
  apply transition_enter_cases in Henter as (dst & success & mid & _ & Hmid & Hfin).
  apply entered_members in Hmid as (_ & _ & _ & Hst & _).
  apply transition_finish_cases in Hfin
    as [(_ & _ & ->) | (_ & _ & err & _ & _ & ->)].
  - assert (Hmid : status_latched mid).
    { destruct Hst as [Hst | [_ Hst]]; [| by left].
      unfold status_latched. by rewrite Hst. }
    by destruct (isStopState mid (m_next t)).
  - right. by right.
Qed.

Lemma copy_latched (this other : FsmBase (Args:=Args)) :
  status_latched other → status_latched (copy this other).
Proof. done. Qed.

Lemma builders_keep_status (state : N) (t : Transition (Args:=Args)) (s : State (Args:=Args))
    (l : list (State (Args:=Args))) e :
  m_status (snd (addTransition state t e)) = m_status e ∧
  m_status (snd (addAlphabetSymbol state e)) = m_status e ∧
  m_status (snd (addState s e)) = m_status e ∧
  m_status (snd (addStates l e)) = m_status e.
Proof.
  repeat split.
  - unfold addTransition, updateAlphabet. cbn. by case_bool_decide.
  - unfold addState. by destruct (map_contains _ _).
  - revert e. induction l as [| x l IH]; intros e; cbn; [done |].
    destruct (map_contains _ _); [done |].
    destruct (negb _); [done |]. by rewrite IH.
Qed.

(** *** Termination of the walks over the parent chain *)

(** A result other than [Diverges] does not depend on the fuel left over. *)
Lemma lookup_fuel_more fuel extra e state event r :
  lookup_fuel fuel e state event = r → r ≠ Undefined Diverges →
  lookup_fuel (fuel + extra) e state event = r.
Proof.
  revert state. induction fuel as [| fuel IH]; intros state; cbn; [congruence |].
  destruct (deref state) as [st |]; cbn; [| done].
  destruct (m_stt e !! _); [done |].
  destruct (negb (hasParent st)); [done |].
  destruct (map_at _ _) as [p |]; cbn; [apply IH | done].
Qed.

Lemma accept_loop_more fuel extra e state event r :
  accept_loop fuel e state event = r → r ≠ Undefined Diverges →
  accept_loop (fuel + extra) e state event = r.
Proof.
  revert state. induction fuel as [| fuel IH]; intros state; cbn; [congruence |].
  destruct (deref state) as [st |]; cbn; [| done].
  destruct (m_stt e !! _); [done |].
  destruct (m_parent st =? 0); [done |].
  destruct (map_at _ _) as [[p |] |]; cbn; [apply IH | done | done].
Qed.

(** With a chain of [n] ancestors, [n + 1] units of fuel give a result. *)
Lemma lookup_fuel_grounded n fuel e (s : State (Args:=Args)) event :
  grounded e n s → (n < fuel)%nat → ∃ r, lookup_fuel fuel e (Some s) event = Ok r.
Proof.
  intros Hg. revert fuel. induction Hg as [s Hroot | n s p Hp Hreg _ IH]; intros fuel Hlt.
  - destruct fuel as [| fuel]; [lia |]. cbn.
    destruct (m_stt e !! _); [eauto |].
    unfold hasParent. rewrite Hroot. cbn. eauto.
  - destruct fuel as [| fuel]; [lia |]. cbn.
    destruct (m_stt e !! _); [eauto |].
    unfold hasParent. rewrite (proj2 (N.eqb_neq _ _) Hp). cbn.
    unfold map_at. rewrite Hreg. cbn. apply IH. lia.
Qed.

Lemma accept_loop_grounded n fuel e (s : State (Args:=Args)) event :
  grounded e n s → (n < fuel)%nat → ∃ b, accept_loop fuel e (Some s) event = Ok b.
Proof.
  intros Hg. revert fuel. induction Hg as [s Hroot | n s p Hp Hreg _ IH]; intros fuel Hlt.
  - destruct fuel as [| fuel]; [lia |]. cbn.
    destruct (m_stt e !! _); [eauto |].
    rewrite Hroot. cbn. eauto.
  - destruct fuel as [| fuel]; [lia |]. cbn.
    destruct (m_stt e !! _); [eauto |].
    rewrite (proj2 (N.eqb_neq _ _) Hp).
    unfold map_at. rewrite Hreg. cbn. apply IH. lia.
Qed.

Lemma accept_defined e event :
  chains_grounded e →
  (m_status e = Running → ∃ cur, m_states e !! m_current e = Some (Some cur)) →
  ∃ b, accept e event = Ok b.
Proof.
  intros Hchains Hcur. unfold accept, running.
  case_bool_decide as Hrun; cbn [negb]; [| eauto].
  destruct (Hcur Hrun) as [cur Hreg]. unfold current_at, map_at. rewrite Hreg.
  cbn [mbind Result_bind].
  destruct (Hchains _ _ Hreg) as (n & Hn & Hg).
  by eapply accept_loop_grounded.
Qed.

Lemma references_keep_status (id : N) (ids : list N) e :
  (∀ e', setStartState id e = Ok e' → m_status e' = m_status e) ∧
  (∀ r e', setErrorState id e = Ok (r, e') → m_status e' = m_status e) ∧
  (∀ r e', addStopState id e = Ok (r, e') → m_status e' = m_status e) ∧
  (∀ r e', addStopStates ids e = Ok (r, e') → m_status e' = m_status e).
Proof.
  split; [| split; [| split]].
  - unfold setStartState. intros e' H.
    destruct (negb _); [by injection H as <- |]. do 2 bind_inv H. by injection H as <-.
  - unfold setErrorState. intros r e' H.
    destruct (negb _); [by injection H as <- <- |]. do 2 bind_inv H. by injection H as <- <-.
  - unfold addStopState. intros r e' H.
    destruct (negb _); [by injection H as <- <- |]. do 2 bind_inv H. by injection H as <- <-.
  - unfold addStopStates. intros r e' H.
    destruct (negb _); [by injection H as <- <- |]. bind_inv H. injection H as <- <-.
    clear -E. revert e E. induction ids as [| x ids IH]; intros e H; cbn in H.
    + by injection H as <-.
    + do 2 bind_inv H. by apply IH in H.
Qed.

(** X21.  The status member of every engine a program can reach is
    [Stopped], [Running] or [Error]: the constants [StateUnchanged],
    [StateChanged] and [Fault] are return values of [step] and are never
    stored, whatever sequence of methods is called. *)
Lemma reachable_latched e : reachable returns_void e → status_latched e.
Proof.
  induction 1 as [silent | | state t e _ IH | event e _ IH | s e _ IH | l e _ IH
                  | id e e' _ IH H | id e r e' _ IH H | id e r e' _ IH H
                  | ids e r e' _ IH H | e r e' _ IH H | e r e' _ IH H
                  | check e e' _ IH H | recurse e r e' _ IH H | e _ IH
                  | event args e r e' _ IH H | event args e r e' _ IH H
                  | e r e' _ IH H | this other _ _ _ IH | a b _ _ _ IH | a b _ IH _ _].
  - by left.
  - by left.
  - unfold status_latched.
    by rewrite (proj1 (builders_keep_status state t (mkState 0 0 None) [] e)).
  - exact IH.
  - unfold status_latched.
    by rewrite (proj1 (proj2 (proj2 (builders_keep_status 0 (mkTransition None 0 0) s [] e)))).
  - unfold status_latched.
    by rewrite (proj2 (proj2 (proj2 (builders_keep_status 0 (mkTransition None 0 0)
                                       (mkState 0 0 None) l e)))).
  - unfold status_latched.
    by rewrite (proj1 (references_keep_status id [] e) _ H).
  - unfold status_latched.
    by rewrite (proj1 (proj2 (references_keep_status id [] e)) _ _ H).
  - unfold status_latched.
    by rewrite (proj1 (proj2 (proj2 (references_keep_status id [] e))) _ _ H).
  - unfold status_latched.
    by rewrite (proj2 (proj2 (proj2 (references_keep_status 0 ids e))) _ _ H).
  - unfold status_latched. by rewrite (deterministic_status _ _ _ H).
  - unfold status_latched. by rewrite (valid_status _ _ _ H).
  - by eapply start_latched.
  - by eapply stop_latched.
  - by apply halt_latched.
  - by eapply raise_latched.
  - by eapply transition_latched.
  - by eapply step_latched.
  - exact IH.
  - exact IH.
  - exact IH.
Qed.

(** *** The state map of a reachable engine *)

Lemma step_tables e r e' :
  step returns_void e = Ok (r, e') → m_states e' = m_states e ∧ m_stt e' = m_stt e.
Proof.
  intros [(_ & _ & ->) | (event & args & rest & e1 & _ & Hexec & ->)]%step_cases;
    [done |].
  apply transition_exec_cases in Hexec
    as [(_ & _ & ->) | (_ & cur & t & _ & _ & Henter)]; [done |].
  apply transition_enter_cases in Henter as (dst & success & mid & _ & Hmid & Hfin).
  apply entered_members in Hmid as (_ & Hstates & Hstt & _).
  apply transition_finish_cases in Hfin
    as [(_ & _ & ->) | (_ & _ & err & _ & _ & ->)]; cbn.
  - by destruct (isStopState mid (m_next t)).
  - done.
Qed.

Lemma addStates_nonnull (l : list (State (Args:=Args))) e :
  states_nonnull e → states_nonnull (snd (addStates l e)).
Proof.
  revert e. induction l as [| s l IH]; intros e Hnn; cbn; [done |].
  unfold map_contains, map_emplace.
  destruct (m_states e !! m_id s) eqn:Hs; cbn; [done |].
  apply IH. intros id. cbn.
  destruct (decide (m_id s = id)) as [<- | Hne].
  - by rewrite lookup_insert_eq.
  - rewrite lookup_insert_ne by done. apply Hnn.
Qed.

Lemma addState_nonnull (s : State (Args:=Args)) e :
  states_nonnull e → states_nonnull (snd (addState s e)).
Proof.
  intros Hnn. unfold addState, map_contains, map_emplace. cbn.
  destruct (m_states e !! m_id s) eqn:Hs; cbn; [done |].
  intros id. cbn.
  destruct (decide (m_id s = id)) as [<- | Hne].
  - by rewrite lookup_insert_eq.
  - rewrite lookup_insert_ne by done. apply Hnn.
Qed.

Lemma references_keep_states (id : N) (ids : list N) e :
  (∀ e', setStartState id e = Ok e' → m_states e' = m_states e) ∧
  (∀ r e', setErrorState id e = Ok (r, e') → m_states e' = m_states e) ∧
  (∀ r e', addStopState id e = Ok (r, e') → m_states e' = m_states e) ∧
  (∀ r e', addStopStates ids e = Ok (r, e') → m_states e' = m_states e).
Proof.
  split; [| split; [| split]].
  - unfold setStartState. intros e' H.
    destruct (negb _); [by injection H as <- |]. do 2 bind_inv H. by injection H as <-.
  - unfold setErrorState. intros r e' H.
    destruct (negb _); [by injection H as <- <- |]. do 2 bind_inv H. by injection H as <- <-.
  - unfold addStopState. intros r e' H.
    destruct (negb _); [by injection H as <- <- |]. do 2 bind_inv H. by injection H as <- <-.
  - unfold addStopStates. intros r e' H.
    destruct (negb _); [by injection H as <- <- |]. bind_inv H. injection H as <- <-.
    by apply push_stop_states_members in E as [-> _].
Qed.

Lemma deterministic_states e b e' : deterministic e = Ok (b, e') → m_states e' = m_states e.
Proof.
  unfold deterministic. intros H. bind_inv H.
  destruct a; by injection H as <- <-.
Qed.

Lemma valid_states e b e' : valid e = Ok (b, e') → m_states e' = m_states e.
Proof.
  unfold valid. repeat (destruct (_ : bool); [by intros [= <- <-] |]).
  apply deterministic_states.
Qed.

Lemma start_states check e e' : start check e = Ok e' → m_states e' = m_states e.
Proof.
  assert (Hun : ∀ e0 e1, start_unchecked e0 = Ok e1 → m_states e1 = m_states e0).
  { unfold start_unchecked. intros e0 e1 H. bind_inv H. by injection H as <-. }
  unfold start. destruct check; [| apply Hun].
  intros H. bind_inv H. destruct a as [ok e1]. apply valid_states in E.
  destruct (negb ok); [by injection H as <- |].
  apply Hun in H. congruence.
Qed.

Lemma stop_states recurse e r e' : stop recurse e = Ok (r, e') → m_states e' = m_states e.
Proof.
  unfold stop. intros H. destruct (negb (running e)); [by injection H as <- <- |].
  do 3 bind_inv H.
  repeat (destruct (_ : bool); [by injection H as <- <- |]).
  done.
Qed.

(** X22.  No method stores a null pointer in the state map and returns: in
    every engine a program can reach, each entry of the state map holds a
    state.  (The entry that [operator[]] adds for an unregistered
    destination is dereferenced by the same step.) *)
Lemma reachable_nonnull e : reachable returns_void e → states_nonnull e.
Proof.
  assert (Hsame : ∀ e1 e2, m_states e2 = m_states e1 → states_nonnull e1 → states_nonnull e2).
  { intros e1 e2 Heq Hnn id. rewrite Heq. apply Hnn. }
  induction 1 as [silent | | state t e _ IH | event e _ IH | s e _ IH | l e _ IH
                  | id e e' _ IH H | id e r e' _ IH H | id e r e' _ IH H
                  | ids e r e' _ IH H | e r e' _ IH H | e r e' _ IH H
                  | check e e' _ IH H | recurse e r e' _ IH H | e _ IH
                  | event args e r e' _ IH H | event args e r e' _ IH H
                  | e r e' _ IH H | this other _ _ _ IH | a b _ _ _ IH | a b _ IH _ _].
  - intros id. cbn. by rewrite lookup_empty.
  - intros id. cbn. by rewrite lookup_empty.
  - apply (Hsame e); [apply addTransition_states | done].
  - exact IH.
  - by apply addState_nonnull.
  - by apply addStates_nonnull.
  - apply (Hsame e); [by apply (proj1 (references_keep_states id [] e)) | done].
  - apply (Hsame e); [| done].
    by apply (proj1 (proj2 (references_keep_states id [] e)) r).
  - apply (Hsame e); [| done].
    by apply (proj1 (proj2 (proj2 (references_keep_states id [] e))) r).
  - apply (Hsame e); [| done].
    by apply (proj2 (proj2 (proj2 (references_keep_states 0 ids e))) r).
  - apply (Hsame e); [by eapply deterministic_states | done].
  - apply (Hsame e); [by eapply valid_states | done].
  - apply (Hsame e); [by eapply start_states | done].
  - apply (Hsame e); [by eapply stop_states | done].
  - unfold halt. by destruct (negb (running e)).
  - by apply raise_cases in H as [[_ ->] | (_ & _ & ->)].
  - by apply transition_cases in H as [[_ ->] | (_ & _ & _ & ->)].
  - apply (Hsame e); [by apply step_tables in H as [-> _] | done].
  - exact IH.
  - exact IH.
  - exact IH.
Qed.

End Execution.

(** * Validation *)

Section Validation.

Context {Args : Type}.
Implicit Types (e : FsmBase (Args:=Args)).

(** The symbols of the scan come out of a set, so each one is met once and
    the insertion into [accepts] always succeeds: the scan of one state never
    stops at the epsilon check. *)
Lemma scan_alphabet_no_epsilon e state accepts symbols msg :
  NoDup symbols → (∀ x, x ∈ symbols → x ∉ accepts) →
  scan_alphabet e state accepts symbols = Ok (Some msg) →
  ∃ st symbol, msg = MissingTransition st symbol.
Proof.
  intros Hnd. revert accepts.
  induction Hnd as [| symbol rest Hnotin Hnd IH]; intros accepts Hfresh H; cbn in H; [done |].
  bind_inv H. rename a into result. bind_inv H. rename a into st.
  destruct (negb _ && hasAction st).
  { injection H as <-. eauto. }
  unfold set_emplace in H.
  rewrite bool_decide_eq_false_2 in H by (apply Hfresh; left).
  cbn in H. eapply IH; [| exact H].
  intros x Hx. apply not_elem_of_union. split.
  - apply not_elem_of_singleton. by intros ->.
  - apply Hfresh. by right.
Qed.

Lemma scan_states_no_epsilon e states msg :
  scan_states e states = Ok (Some msg) → ∃ st symbol, msg = MissingTransition st symbol.
Proof.
  induction states as [| state rest IH]; cbn; [done |].
  intros H. bind_inv H. destruct a as [msg' |]; [| by apply IH].
  injection H as <-.
  eapply scan_alphabet_no_epsilon; [apply (NoDup_elements (m_alphabet e)) | | exact E].
  intros x _. apply not_elem_of_empty.
Qed.

(** Whenever [deterministic] answers [false] it has logged a missing row;
    it never reports an epsilon transition. *)
Lemma deterministic_false_is_missing_row e e' :
  deterministic e = Ok (false, e') →
  ∃ st symbol, e' = emit (Log (MissingTransition st symbol)) e.
Proof.
  unfold deterministic. intros H. bind_inv H.
  destruct a as [msg |]; [| done]. injection H as <-.
  apply scan_states_no_epsilon in E as (st & symbol & ->). eauto.
Qed.

(** A scan that passes has found, for every symbol, a row for the state or
    for one of its ancestors, unless the state has no handler. *)
Lemma scan_alphabet_pass e state accepts symbols :
  scan_alphabet e state accepts symbols = Ok None →
  ∀ symbol, symbol ∈ symbols →
    ∃ st result, deref state = Ok st ∧ lookup e state symbol = Ok result ∧
                 (hasAction st = true → is_Some result).
Proof.
  revert accepts. induction symbols as [| x rest IH]; intros accepts H symbol Hin.
  { by apply elem_of_nil in Hin. }
  cbn [scan_alphabet] in H. bind_inv H. rename a into result. bind_inv H. rename a into st.
  destruct (negb (bool_decide (is_Some result)) && hasAction st) eqn:Hmiss; [done |].
  destruct (negb (set_emplace x accepts).2); [done |].
  apply elem_of_cons in Hin as [-> | Hin]; [| by eapply IH].
  exists st, result. repeat split; [done |].
  intros Hact. rewrite Hact, andb_true_r in Hmiss.
  apply negb_false_iff in Hmiss. by apply bool_decide_eq_true_1 in Hmiss.
Qed.

Lemma scan_states_pass e states :
  scan_states e states = Ok None →
  ∀ state, state ∈ states → scan_alphabet e state ∅ (elements (m_alphabet e)) = Ok None.
Proof.
  induction states as [| x rest IH]; intros H state Hin.
  { by apply elem_of_nil in Hin. }
  cbn in H. bind_inv H. destruct a as [msg |]; [done |].
  apply elem_of_cons in Hin as [-> | Hin]; [done | by apply IH].
Qed.

(** Invariant 3 of the data model: after a successful validation every
    registered state that has a handler resolves every symbol of the
    alphabet, by its own row or by a row of an ancestor. *)
Lemma deterministic_complete e e' :
  deterministic e = Ok (true, e') →
  e' = e ∧
  ∀ id s symbol,
    m_states e !! id = Some (Some s) → symbol ∈ m_alphabet e → hasAction s = true →
    ∃ t, lookup e (Some s) symbol = Ok (Some t).
Proof.
  unfold deterministic. intros H. bind_inv H. destruct a as [msg |]; [done |].
  injection H as <-. split; [done |].
  intros id s symbol Hreg Hsym Hact.
  assert (Hin : Some s ∈ state_pointers e).
  { unfold state_pointers. apply list_elem_of_fmap. exists (id, Some s).
    split; [done | by apply elem_of_map_to_list]. }
  pose proof (scan_states_pass _ _ E _ Hin) as Hscan.
  destruct (scan_alphabet_pass _ _ _ _ Hscan symbol) as (st & result & Hst & Hlook & Hrow).
  { by apply elem_of_elements. }
  injection Hst as <-. destruct (Hrow Hact) as [t ->]. eauto.
Qed.

(** A state that has its own row for every symbol passes the scan, whatever
    rows its ancestors have for the same symbols. *)
Lemma scan_alphabet_direct_rows e (s : State (Args:=Args)) accepts symbols :
  NoDup symbols → (∀ x, x ∈ symbols → x ∉ accepts) →
  (∀ x, x ∈ symbols → is_Some (m_stt e !! SttIndex (m_id s) x)) →
  scan_alphabet e (Some s) accepts symbols = Ok None.
Proof.
  intros Hnd. revert accepts.
  induction Hnd as [| symbol rest Hnotin Hnd IH]; intros accepts Hfresh Hrows; [done |].
  cbn [scan_alphabet]. unfold lookup, chain_fuel. cbn [lookup_fuel deref mbind Result_bind].
  destruct (Hrows symbol) as [t Ht]; [by left |]. rewrite Ht.
  cbn [mbind Result_bind]. rewrite bool_decide_eq_true_2 by eauto. cbn [negb andb].
  unfold set_emplace. rewrite bool_decide_eq_false_2 by (apply Hfresh; left).
  cbn [fst snd negb]. apply IH.
  - intros x Hx. apply not_elem_of_union. split.
    + apply not_elem_of_singleton. by intros ->.
    + apply Hfresh. by right.
  - intros x Hx. apply Hrows. by right.
Qed.

Lemma deterministic_direct_rows e :
  states_nonnull e →
  (∀ id s symbol, m_states e !! id = Some (Some s) → symbol ∈ m_alphabet e →
                  is_Some (m_stt e !! SttIndex (m_id s) symbol)) →
  deterministic e = Ok (true, e).
Proof.
  intros Hnn Hrows. unfold deterministic.
  assert (Hscan : ∀ states, (∀ p, p ∈ states → p ∈ state_pointers e) →
                            scan_states e states = Ok None).
  { induction states as [| p rest IH]; intros Hsub; [done |].
    cbn [scan_states].
    assert (Hp : p ∈ state_pointers e) by (apply Hsub; left).
    unfold state_pointers in Hp. apply list_elem_of_fmap in Hp as ([id p'] & -> & Hin).
    apply elem_of_map_to_list in Hin. cbn.
    destruct p' as [s |]; [| by destruct (Hnn id)].
    rewrite (scan_alphabet_direct_rows e s ∅ (elements (m_alphabet e))).
    - cbn [mbind Result_bind]. apply IH. intros q Hq. apply Hsub. by right.
    - apply (NoDup_elements (m_alphabet e)).
    - intros x _. apply not_elem_of_empty.
    - intros x Hx. apply (Hrows id); [done | by apply elem_of_elements]. }
  by rewrite Hscan.
Qed.

End Validation.

(** * Steps of a well-formed engine are defined *)

Section Progress.

Context {Args : Type}.
Variable returns_void : bool.
Implicit Types (e : FsmBase (Args:=Args)) (args : Args) (event : N).

Lemma grounded_members e1 e2 n (s : State (Args:=Args)) :
  m_states e1 = m_states e2 → grounded e1 n s → grounded e2 n s.
Proof.
  intros Hst Hg. induction Hg as [s Hroot | n s p Hp Hreg _ IH].
  - by apply grounded_root.
  - eapply grounded_child; [done | by rewrite <- Hst | done].
Qed.

Lemma chains_grounded_members e1 e2 :
  m_states e1 = m_states e2 → chains_grounded e1 → chains_grounded e2.
Proof.
  intros Hst Hch id s Hreg. rewrite <- Hst in Hreg.
  destruct (Hch _ _ Hreg) as (n & Hn & Hg). exists n. split.
  - unfold chain_fuel in *. by rewrite <- Hst.
  - by eapply grounded_members.
Qed.

Lemma handler_calls_defined calls e :
  chains_grounded e →
  (m_status e = Running → ∃ cur, m_states e !! m_current e = Some (Some cur)) →
  ∃ e', handler_calls calls e = Ok e'.
Proof.
  revert e. induction calls as [| [event args | event args |] rest IH]; intros e Hch Hcur;
    cbn [handler_calls]; [eauto | | |].
  - destruct (accept_defined e event Hch Hcur) as [acc Hacc].
    unfold transition. rewrite Hacc. cbn [mbind Result_bind].
    destruct (negb acc || m_in_transition e); cbn [mbind Result_bind]; [by apply IH |].
    apply IH; [by apply (chains_grounded_members e) | done].
  - destruct (accept_defined e event Hch Hcur) as [acc Hacc].
    unfold raise. rewrite Hacc. cbn [mbind Result_bind].
    destruct (negb acc); cbn [mbind Result_bind]; [by apply IH |].
    apply IH; [by apply (chains_grounded_members e) | done].
  - apply IH.
    + apply (chains_grounded_members e); [| done]. unfold halt.
      by destruct (negb (running e)).
    + unfold halt. destruct (negb (running e)); [done |]. cbn. discriminate.
Qed.

Lemma action_defined (s : State (Args:=Args)) args e :
  is_Some (m_action s) → chains_grounded e →
  (m_status e = Running → ∃ cur, m_states e !! m_current e = Some (Some cur)) →
  ∃ r e', action returns_void s args e = Ok (r, e').
Proof.
  intros [h Hh] Hch Hcur. unfold action. rewrite Hh.
  destruct (handler_calls_defined (requests (h args)) (emit (Action (m_id s) args) e))
    as [e' He']; [by apply (chains_grounded_members e) | done |].
  rewrite He'. cbn. eauto.
Qed.

Lemma transition_finish_defined next copy success e :
  (∃ err, m_error_state e = Some err ∧ is_Some (m_action err)) →
  ∃ r e', transition_finish returns_void next copy success e = Ok (r, e').
Proof.
  intros (err & Herr & h & Hh). unfold transition_finish.
  destruct success; cbn [negb]; [eauto |].
  unfold toErrorState, get. rewrite Herr. cbn [mbind Result_bind].
  unfold action. rewrite Hh.
  rewrite handler_calls_not_running by (cbn; discriminate). cbn. eauto.
Qed.

Lemma transition_enter_defined next args e dst :
  m_states e !! next = Some (Some dst) →
  chains_grounded e →
  (∃ err, m_error_state e = Some err ∧ is_Some (m_action err)) →
  ∃ r e', transition_enter returns_void next args e = Ok (r, e').
Proof.
  intros Hdst Hch Herr. unfold transition_enter. cbn [m_states set_current].
  rewrite (map_subscript_hit _ _ _ Hdst). cbn [fst snd deref mbind Result_bind].
  replace (set_states (m_states e) (set_current next e)) with (set_current next e)
    by (by destruct e).
  unfold hasAction. destruct (m_action dst) as [h |] eqn:Hh.
  - rewrite bool_decide_eq_true_2 by eauto.
    destruct (action_defined dst args (set_current next e)) as (success & mid & Hmid).
    { rewrite Hh. eauto. }
    { by apply (chains_grounded_members e). }
    { intros _. cbn. eauto. }
    rewrite Hmid. cbn [mbind Result_bind].
    apply transition_finish_defined.
    apply action_cases in Hmid as (_ & _ & _ & Hgrown).
    apply queue_grown_members in Hgrown as (_ & _ & _ & _ & -> & _). done.
  - rewrite bool_decide_eq_false_2 by (by intros [? ?]). cbn [mbind Result_bind].
    by apply transition_finish_defined.
Qed.

(** X23.  [step] returns whenever the engine is well formed: every row
    leads to a registered state, the parent chains end, the error state is
    set and has a handler, and (when running) the current state is
    registered and resolves the event at the front of the queue. *)
Lemma step_defined e :
  stt_closed e → chains_grounded e →
  (∃ err, m_error_state e = Some err ∧ is_Some (m_action err)) →
  (m_status e = Running →
   ∀ event args rest, m_events e = (event, args) :: rest →
     ∃ cur t, m_states e !! m_current e = Some (Some cur) ∧
              lookup e (Some cur) event = Ok (Some t)) →
  ∃ r e', step returns_void e = Ok (r, e').
Proof.
  intros Hclosed Hch Herr Hfront. unfold step.
  destruct (m_events e) as [| [event args] rest] eqn:Hq; [eauto |]. cbn [fst snd].
  unfold transition_exec, running. cbn [emit set_events m_status m_states m_current].
  case_bool_decide as Hrun; cbn [negb]; [| cbn; eauto].
  destruct (Hfront Hrun event args rest eq_refl) as (cur & t & Hcur & Hlook).
  unfold map_at. rewrite Hcur. cbn [mbind Result_bind].
  rewrite (lookup_members _ e) by done. rewrite Hlook. cbn [mbind Result_bind].
  destruct (lookup_fuel_row _ _ _ _ _ Hlook) as [index Hrow].
  destruct (Hclosed _ _ Hrow) as [dst Hdst].
  destruct (transition_enter_defined (m_next t) args
              (emit WatchdogReset (set_events rest e)) dst) as (r & e' & Henter);
    [done | by apply (chains_grounded_members e) | done |].
  rewrite Henter. cbn. eauto.
Qed.

(** The last premise of [step_defined] follows from a successful validation
    when the current state has a handler and the event is in the alphabet. *)
Lemma validated_front_resolves e e' cur event :
  deterministic e = Ok (true, e') →
  m_states e !! m_current e = Some (Some cur) → hasAction cur = true →
  event ∈ m_alphabet e →
  ∃ t, lookup e (Some cur) event = Ok (Some t).
Proof.
  intros [_ Hall]%deterministic_complete Hcur Hact Hin. by eapply Hall.
Qed.

End Progress.

(** * The scenarios *)

Section ScenarioFacts.

Import Scenarios.

(** C1 (the code at S4).  B=2 has parent A=1 and both have a row on x=7, so
    x is accepted from B by its own row and by the row of its ancestor; the
    scan answers [true] all the same.  With no start state the checked start
    does nothing because [valid] misses the start state; once start, error
    and stop state are set it starts the engine. *)
Theorem S4_epsilon_not_detected :
  m_states S4 !! 2 = Some (Some (mkState 2 1 (Some succeed))) ∧
  m_stt S4 !! SttIndex 1 7 = Some (row 7 2) ∧
  m_stt S4 !! SttIndex 2 7 = Some (row 7 1) ∧
  deterministic S4_bare = Ok (true, S4_bare) ∧
  deterministic S4 = Ok (true, S4) ∧
  m_start_state S4_bare = None ∧
  start true S4_bare = Ok S4_bare ∧
  (∃ e, start true S4 = Ok e ∧ m_status e = Running ∧ m_current e = 1).
Proof.
  do 7 (split; [vm_compute; reflexivity |]).
  eexists. split; [vm_compute; reflexivity |]. split; vm_compute; reflexivity.
Qed.

(** C2 (the code at a colliding batch).  The engine holds state 2; the batch
    is state 1 followed by a second state 2.  [addStates] answers [false] at
    the collision, and state 1 stays registered. *)
Theorem addStates_partial_registration :
  m_states holds_two !! 1 = None ∧
  is_Some (m_states holds_two !! 2) ∧
  fst (addStates batch holds_two) = false ∧
  m_states (snd (addStates batch holds_two)) !! 1 = Some (Some (mkState 1 0 (Some succeed))) ∧
  m_states (snd (addStates batch holds_two)) ≠ m_states holds_two.
Proof.
  assert (H1 : m_states holds_two !! 1 = None) by (vm_compute; reflexivity).
  assert (H2 : m_states (snd (addStates batch holds_two)) !! 1
               = Some (Some (mkState 1 0 (Some succeed)))) by (vm_compute; reflexivity).
  assert (H3 : is_Some (m_states holds_two !! 2)) by (vm_compute; eauto).
  assert (H4 : fst (addStates batch holds_two) = false) by (vm_compute; reflexivity).
  split; [exact H1 |]. split; [exact H3 |]. split; [exact H4 |]. split; [exact H2 |].
  intros Heq. rewrite Heq, H1 in H2. discriminate.
Qed.

(** C4 (the code at the traffic light).  The alphabet of S1 is {tick}; the
    engine copy-constructed from it, the engine it was copy-assigned to and
    the engine move-constructed from it all have the empty alphabet of their
    own construction, next to the copied table. *)
Theorem copy_drops_alphabet :
  m_alphabet S1 = {[tick]} ∧
  m_alphabet (FsmBase_copy S1) = ∅ ∧
  m_alphabet (assign (FsmBase_new false) S1) = ∅ ∧
  m_alphabet (fst (FsmBase_move S1)) = ∅ ∧
  m_stt (FsmBase_copy S1) = m_stt S1 ∧
  m_alphabet (FsmBase_copy S1) ≠ m_alphabet S1.
Proof.
  assert (H1 : m_alphabet S1 = {[tick]}) by (vm_compute; reflexivity).
  split; [exact H1 |]. do 3 (split; [reflexivity |]). split; [reflexivity |].
  change (m_alphabet (FsmBase_copy S1)) with (∅ : gset N). rewrite H1.
  intros Heq. assert (Hin : tick ∈ (∅ : gset N)).
  { rewrite Heq. apply elem_of_singleton. reflexivity. }
  exact (not_elem_of_empty tick Hin).
Qed.

(** Every scenario engine is the defined result of its construction. *)
Example scenario_engines_defined :
  S1_run = Ok S1 ∧
  S2_run = Ok S2 ∧
  S2_raised_run = Ok S2_raised ∧
  S2_faulted_run = Ok S2_faulted ∧
  S4_run = Ok S4 ∧
  S5_run = Ok S5 ∧
  S5_first_run = Ok S5_first ∧
  S5_raised_run = Ok S5_raised ∧
  S5_pushed_run = Ok S5_pushed ∧
  S5_drained_run = Ok S5_drained ∧
  S3_run = Ok S3 ∧
  S6_run = Ok S6 ∧
  S1_halted_run = Ok S1_halted ∧
  dangling_run = Ok dangling ∧
  dangling_raised_run = Ok dangling_raised.
Proof. repeat (split; [vm_compute; reflexivity |]). vm_compute. reflexivity. Qed.

(** The scenarios of the design document, run on the embedding. *)
Example S1_traffic_light :
  (e ← start true S1;
   '(_, e) ← raise tick 0 e; '(r1, e1) ← step false e;
   '(_, e) ← raise tick 0 e1; '(r2, e2) ← step false e;
   '(stopped, e3) ← stop false e2;
   Ok (r1, m_current e1, r2, m_current e2, last (history e2), stopped, m_status e3))
  = Ok (StateChanged, 2, StateChanged, 3, Some StopSignal, true, Stopped).
Proof. vm_compute. reflexivity. Qed.

Example S3_fall_through :
  (e ← start true S3;
   acc ← accept e 4;
   '(_, e) ← raise 4 0 e; '(r, e) ← step false e;
   Ok (acc, r, m_current e))
  = Ok (true, StateChanged, 11).
Proof. vm_compute. reflexivity. Qed.

Example S5_handler_transition_first :
  ('(taken, _) ← drive false 3 S5_raised; Ok taken) = Ok [(1, 10); (2, 10); (3, 30)].
Proof. vm_compute. reflexivity. Qed.

Example S6_second_transition_rejected :
  (e ← start true S6;
   '(_, e) ← raise 1 7 e; '(r, e) ← step false e;
   Ok (r, m_current e, m_events e))
  = Ok (StateChanged, 2, [(1, 7)]).
Proof. vm_compute. reflexivity. Qed.

(** C3 (counterexample).  No state is registered, and the transition attached
    to the unknown state 5 is accepted. *)
Lemma addTransition_accepts_unknown_state :
  m_states (FsmBase_new (Args:=N) false) !! 5 = None ∧
  fst (addTransition 5 (row tick 2) (FsmBase_new false)) = true.
Proof. split; vm_compute; reflexivity. Qed.

(** C5 (counterexample).  The step of S2 faults and leaves the status
    [Error]; [halt] called then leaves it [Error]. *)
Lemma halt_leaves_error_status :
  step false S2_raised = Ok (Fault, S2_faulted) ∧
  m_status S2_faulted = Error ∧
  m_status (halt S2_faulted) = Error ∧
  m_status (halt S2_faulted) ≠ Stopped.
Proof.
  split; [vm_compute; reflexivity |]. split; [vm_compute; reflexivity |].
  split; [vm_compute; reflexivity |]. vm_compute. discriminate.
Qed.

(** C6 (counterexample).  A stopped engine with an empty queue gets
    [StateUnchanged], not its status; a stopped engine with a queued record
    loses that record to the step. *)
Lemma stopped_step_pops_queue :
  m_status (FsmBase_new (Args:=N) false) = Stopped ∧
  step false (FsmBase_new (Args:=N) false) = Ok (StateUnchanged, FsmBase_new false) ∧
  m_status S1_halted = Stopped ∧
  m_events S1_halted = [(tick, 5)] ∧
  (∃ e', step false S1_halted = Ok (Stopped, e') ∧ m_events e' = []).
Proof.
  do 4 (split; [vm_compute; reflexivity |]).
  eexists. split; vm_compute; reflexivity.
Qed.

(** C6 at the halted traffic light: the queued [tick] is taken although the
    engine is stopped. *)
Lemma step_not_running_witness :
  m_status S1_halted ≠ Running ∧
  step false S1_halted =
  Ok (Stopped, set_in_transition false (emit WatchdogReset (set_events [] S1_halted))).
Proof.
  assert (Hst : m_status S1_halted ≠ Running) by (vm_compute; discriminate).
  split; [exact Hst |].
  exact (step_not_running false S1_halted Hst).
Defined.

(** C7 at S2: the handler of Y fails on the raised [tick]. *)
Lemma step_fault_witness :
  status_latched S2_raised ∧
  step false S2_raised = Ok (Fault, S2_faulted) ∧
  ∃ event args rest err cur t dst,
    m_events S2_raised = (event, args) :: rest ∧
    m_error_state S2_raised = Some err ∧ m_error_state S2_faulted = Some err ∧
    m_current S2_faulted = m_id err ∧ m_status S2_faulted = Error ∧
    (∃ before, history S2_faulted =
       history S2_raised ++ before ++ [Action (m_id err) args; StopSignal; Log ExecutionFailed]) ∧
    m_states S2_raised !! m_current S2_raised = Some cur ∧
    lookup S2_raised cur event = Ok (Some t) ∧
    m_states S2_raised !! m_next t = Some (Some dst) ∧
    (m_action dst = None ∨
     false = false ∧ ∃ h, m_action dst = Some h ∧ returned (h args) = false).
Proof.
  assert (Hl : status_latched S2_raised) by (right; left; vm_compute; reflexivity).
  assert (Hstep : step false S2_raised = Ok (Fault, S2_faulted)) by (vm_compute; reflexivity).
  split; [exact Hl |]. split; [exact Hstep |].
  exact (step_fault_enters_error_state false S2_raised S2_faulted Hl Hstep).
Defined.

(** C8 at S5: a second raise, a transition request, and three steps of the
    driver; at S7, a step whose handler raises and requests a transition; at
    the traffic light, whose handlers make no calls, two steps. *)
Lemma queue_discipline_witness :
  m_events S5_raised = m_events S5_first ++ [(3, 30)] ∧
  m_events S5_pushed = (2, 10) :: m_events S5_raised ∧
  (m_events S7_raised = [(1, 10); (3, 30)] ∧
   m_events S7_stepped = [(2, 10); (3, 30); (1, 10)] ∧
   ∃ pre post, m_events S7_stepped = pre ++ [(3, 30)] ++ post ∧
     (length pre ≤ 1)%nat ∧
     (m_status S7_raised ≠ Running → pre = [] ∧ post = []) ∧
     (∀ record, record ∈ pre → requested S7_raised 10 (CallTransition record.1 record.2)) ∧
     (∀ record, record ∈ post → requested S7_raised 10 (CallRaise record.1 record.2))) ∧
  (quiet S1_raised ∧
   [(tick, 5); (tick, 6)] = take 2 (m_events S1_raised) ∧
   m_events S1_red = drop 2 (m_events S1_raised)) ∧
  (∃ l, [(1, 10); (2, 10); (3, 30)] = (1, 10) :: l) ∧
  (∃ k pre post, take k (m_events S5_raised) `sublist_of` [(1, 10); (2, 10); (3, 30)] ∧
                 m_events S5_drained = pre ++ drop k (m_events S5_raised) ++ post).
Proof.
  destruct (queue_discipline (Args:=N) false)
    as (Hraise & Htransition & Hstep & Hquiet & Hdrive).
  split; [| split; [| split; [| split]]].
  - apply (Hraise S5_first 3 30 S5_raised). vm_compute. reflexivity.
  - apply (Htransition S5_raised 2 10 S5_pushed). vm_compute. reflexivity.
  - split; [vm_compute; reflexivity |]. split; [vm_compute; reflexivity |].
    apply (Hstep S7_raised StateChanged S7_stepped (1, 10) [(3, 30)]);
      vm_compute; reflexivity.
  - assert (Hq : quiet S1_raised).
    { apply quiet_check. vm_compute. repeat (constructor; [reflexivity |]). constructor. }
    split; [exact Hq |].
    apply (Hquiet 2%nat S1_raised [(tick, 5); (tick, 6)] S1_red Hq).
    vm_compute. reflexivity.
  - assert (Hrun : drive false 3 S5_raised = Ok ([(1, 10); (2, 10); (3, 30)], S5_drained))
      by (vm_compute; reflexivity).
    destruct (Hdrive 3%nat S5_raised _ S5_drained Hrun) as [Hfront Horder].
    split; [| exact Horder].
    apply (Hfront (1, 10) [(3, 30)]); [lia | vm_compute; reflexivity].
Defined.

(** C10 at the engine with the dangling row, which passes [valid], at S5,
    whose rows all lead to registered states, and at a fresh engine. *)
Lemma step_dereferences_unchecked_destination_witness :
  valid dangling = Ok (true, dangling) ∧
  step false dangling_raised = Undefined NullStatePointer ∧
  null_free (step false S5_raised) ∧
  fst (addTransition 1 (row tick 9) (FsmBase_new false)) = true ∧
  ¬ stt_closed (snd (addTransition 1 (row tick 9) (FsmBase_new false))).
Proof.
  destruct (step_dereferences_unchecked_destination (Args:=N) false)
    as (Hdangling & Hsafe & Hadd).
  split; [vm_compute; reflexivity |]. split; [| split].
  - apply (Hdangling dangling_raised tick 0 [] (Some (mkState 1 0 (Some succeed))) (row tick 9));
      try (vm_compute; reflexivity).
    intros dst. vm_compute. discriminate.
  - apply Hsafe.
    + apply states_nonnull_check. vm_compute. reflexivity.
    + apply stt_closed_check. vm_compute. reflexivity.
  - destruct (Hadd 1 (row tick 9) (FsmBase_new false)) as (Hr & _ & Hopen);
      try (vm_compute; reflexivity).
    split; [exact Hr | exact Hopen].
Defined.

End ScenarioFacts.

(** * Further properties of the tables *)

Section Tables.

Context {Args : Type}.
Implicit Types (e : FsmBase (Args:=Args)) (t : Transition (Args:=Args)).

(** On 32-bit values the two halves of the packed index do not overlap. *)
Lemma land_low_high (a b : N) : a < 2 ^ 32 → N.land a (N.shiftl b 32) = 0.
Proof.
  intros Ha. apply N.bits_inj. intros n. rewrite N.land_spec, N.bits_0.
  destruct (N.lt_ge_cases n 32) as [Hlt | Hge].
  - rewrite (N.shiftl_spec_low _ _ _ Hlt). apply andb_false_r.
  - destruct (N.eq_dec a 0) as [-> | Hne]; [by rewrite N.bits_0 |].
    rewrite N.bits_above_log2; [done |].
    apply N.lt_le_trans with 32; [| done]. apply N.log2_lt_pow2; lia.
Qed.

Lemma SttIndex_sum (stateId eventId : N) :
  stateId < 2 ^ 32 → eventId < 2 ^ 32 →
  SttIndex stateId eventId = stateId + eventId * 2 ^ 32.
Proof.
  intros Hs He. unfold SttIndex, wrap32. rewrite !N.mod_small by done.
  rewrite <- N.lxor_lor by (by apply land_low_high).
  rewrite <- N.add_nocarry_lxor by (by apply land_low_high).
  by rewrite N.shiftl_mul_pow2.
Qed.

(** The state id is the low half of the index and the event the high half. *)
Lemma SttIndex_decode (stateId eventId : N) :
  stateId < 2 ^ 32 → eventId < 2 ^ 32 →
  SttIndex stateId eventId mod 2 ^ 32 = stateId ∧
  SttIndex stateId eventId / 2 ^ 32 = eventId.
Proof.
  intros Hs He. rewrite SttIndex_sum by done.
  assert (Hnz : 2 ^ 32 ≠ 0) by (apply N.pow_nonzero; lia). split.
  - rewrite N.Div0.mod_add. by apply N.mod_small.
  - rewrite N.div_add by done. rewrite N.div_small by done. lia.
Qed.

Lemma SttIndex_inj (s1 ev1 s2 ev2 : N) :
  s1 < 2 ^ 32 → ev1 < 2 ^ 32 → s2 < 2 ^ 32 → ev2 < 2 ^ 32 →
  SttIndex s1 ev1 = SttIndex s2 ev2 → s1 = s2 ∧ ev1 = ev2.
Proof.
  intros H1 H2 H3 H4 Heq.
  destruct (SttIndex_decode s1 ev1 H1 H2) as [Hs1 He1].
  destruct (SttIndex_decode s2 ev2 H3 H4) as [Hs2 He2].
  rewrite Heq in Hs1, He1. split; congruence.
Qed.

(** X1.  Rows are independent: with 32-bit state ids and events, a call of
    [addTransition] for the pair (state, event) leaves the row of every
    other pair as it was. *)
Theorem rows_are_independent (state : N) t (state' event' : N) e :
  state < 2 ^ 32 → m_event t < 2 ^ 32 → state' < 2 ^ 32 → event' < 2 ^ 32 →
  (state', event') ≠ (state, m_event t) →
  m_stt (snd (addTransition state t e)) !! SttIndex state' event' =
  m_stt e !! SttIndex state' event'.
Proof.
  intros H1 H2 H3 H4 Hne.
  destruct (addTransition_table state t e) as [_ Hstt]. cbn zeta in Hstt.
  rewrite Hstt. destruct (map_contains _ _); [done |].
  apply lookup_insert_ne. intros Heq.
  apply SttIndex_inj in Heq as [Hs He]; [| done ..].
  apply Hne. congruence.
Qed.

Lemma addTransition_alphabet (state : N) t e :
  m_alphabet (snd (addTransition state t e)) = {[m_event t]} ∪ m_alphabet e.
Proof. unfold addTransition. cbn. apply updateAlphabet_alphabet. Qed.

Lemma add_rows_cons (state : N) t (rows : list (N * Transition (Args:=Args))) e :
  add_rows ((state, t) :: rows) e = add_rows rows (snd (addTransition state t e)).
Proof. reflexivity. Qed.

(** X2.  After any sequence of [addTransition] calls, accepted or rejected,
    the alphabet is what it was before together with the events of all
    transitions passed in; [addAlphabetSymbol] adds its symbol and reports
    whether it was new. *)
Theorem alphabet_after_rows (rows : list (N * Transition (Args:=Args))) (symbol : N) e :
  m_alphabet (add_rows rows e) = list_to_set ((fun r => m_event (snd r)) <$> rows) ∪ m_alphabet e ∧
  m_alphabet (snd (addAlphabetSymbol symbol e)) = {[symbol]} ∪ m_alphabet e ∧
  (fst (addAlphabetSymbol symbol e) = true ↔ symbol ∉ m_alphabet e).
Proof.
  split; [| split].
  - revert e. induction rows as [| [state t] rows IH]; intros e.
    + cbn. by rewrite union_empty_l_L.
    + rewrite add_rows_cons, IH, addTransition_alphabet, fmap_cons, list_to_set_cons.
      cbn [snd]. rewrite union_assoc_L. f_equal. apply union_comm_L.
  - unfold addAlphabetSymbol, set_emplace. case_bool_decide as Hin; cbn; [| done].
    symmetry. apply subseteq_union_1_L. by apply singleton_subseteq_l.
  - unfold addAlphabetSymbol, set_emplace. case_bool_decide as Hin; cbn; [| done].
    split; [discriminate | done].
Qed.

Lemma addTransition_keeps_rows (state : N) t e index t0 :
  m_stt e !! index = Some t0 →
  m_stt (snd (addTransition state t e)) !! index = Some t0.
Proof.
  intros Hrow. destruct (addTransition_table state t e) as [_ Hstt]. cbn zeta in Hstt.
  rewrite Hstt. unfold map_contains.
  destruct (m_stt e !! SttIndex state (m_event t)) as [t1 |] eqn:Hkey.
  - by rewrite bool_decide_eq_true_2 by eauto.
  - rewrite bool_decide_eq_false_2 by (by intros [? ?]).
    rewrite lookup_insert_ne; [done |]. intros <-. congruence.
Qed.

(** X3.  A stored row is never replaced: whatever [addTransition] calls
    follow, the row stays in the table under its key, and every later
    transition for the same key is rejected. *)
Theorem rows_are_never_replaced (rows : list (N * Transition (Args:=Args))) e index t0 :
  m_stt e !! index = Some t0 →
  m_stt (add_rows rows e) !! index = Some t0 ∧
  ∀ state t, SttIndex state (m_event t) = index →
    fst (addTransition state t (add_rows rows e)) = false ∧
    m_stt (snd (addTransition state t (add_rows rows e))) = m_stt (add_rows rows e).
Proof.
  intros Hrow.
  assert (Hkept : m_stt (add_rows rows e) !! index = Some t0).
  { revert e Hrow. induction rows as [| [state t] rows IH]; intros e Hrow; [done |].
    rewrite add_rows_cons. by apply IH, addTransition_keeps_rows. }
  split; [done |]. intros state t Hidx.
  destruct (addTransition_table state t (add_rows rows e)) as [Hr Hstt].
  cbn zeta in Hr, Hstt. rewrite Hidx in Hr, Hstt.
  unfold map_contains in Hr, Hstt.
  rewrite bool_decide_eq_true_2 in Hr, Hstt by eauto. done.
Qed.

End Tables.

(** * What the operations leave alone *)

Section Frames.

Context {Args : Type}.
Variable returns_void : bool.
Implicit Types (e : FsmBase (Args:=Args)) (args : Args) (event : N).

Lemma same_configuration_refl e : same_configuration e e.
Proof. by repeat split. Qed.

Lemma same_configuration_trans e1 e2 e3 :
  same_configuration e1 e2 → same_configuration e2 e3 → same_configuration e1 e3.
Proof.
  unfold same_configuration.
  intros (-> & -> & -> & -> & -> & -> & -> & ->) H. exact H.
Qed.

Lemma queue_grown_configuration e e' : queue_grown e e' → same_configuration e e'.
Proof. intros (pre & post & flag & st & _ & ->). by repeat split. Qed.

Lemma transition_finish_configuration next copy success e r e' :
  transition_finish returns_void next copy success e = Ok (r, e') →
  same_configuration e e'.
Proof.
  intros [(_ & _ & ->) | (_ & _ & err & _ & _ & ->)]%transition_finish_cases.
  - destruct (isStopState e next); by repeat split.
  - by repeat split.
Qed.

Lemma transition_enter_configuration next args e r e' :
  transition_enter returns_void next args e = Ok (r, e') → same_configuration e e'.
Proof.
  intros (dst & success & mid & _ & Hmid & Hfin)%transition_enter_cases.
  apply transition_finish_configuration in Hfin.
  eapply same_configuration_trans; [| exact Hfin].
  destruct (hasAction dst).
  - apply action_cases in Hmid as (_ & _ & _ & Hgrown).
    apply queue_grown_configuration in Hgrown.
    eapply same_configuration_trans; [| exact Hgrown]. by repeat split.
  - destruct Hmid as [_ ->]. by repeat split.
Qed.

Lemma step_configuration e r e' :
  step returns_void e = Ok (r, e') → same_configuration e e'.
Proof.
  intros [(_ & _ & ->) | (event & args & rest & e1 & _ & Hexec & ->)]%step_cases.
  { apply same_configuration_refl. }
  apply transition_exec_cases in Hexec
    as [(_ & _ & ->) | (_ & cur & t & _ & _ & Henter)]; [by repeat split |].
  apply transition_enter_configuration in Henter.
  destruct Henter as (? & ? & ? & ? & ? & ? & ? & ?). by repeat split.
Qed.

(** X4.  With state handlers that call back into the engine through its
    operation methods only ([transition], [raise], [halt]: the handlers of
    this development; a handler that calls a builder method is not covered),
    [step] changes the queue, the current state, the status and the
    in-transition flag and nothing else: the table, the state map, the
    alphabet, the start, error and stop states, the logger and the silence
    flag of the engine are the same after every step, and so after any number
    of steps of a driver. *)
Theorem step_keeps_configuration (n : nat) e taken e' :
  drive returns_void n e = Ok (taken, e') → same_configuration e e'.
Proof.
  revert e taken e'. induction n as [| n IH]; intros e taken e' H; cbn [drive] in H.
  - injection H as <- <-. apply same_configuration_refl.
  - bind_inv H. destruct a as [r e1]. bind_inv H. destruct a as [taken1 e2].
    injection H as <- <-.
    eapply same_configuration_trans; [by eapply step_configuration | by eapply IH].
Qed.

Lemma same_configuration_references e e' : same_configuration e e' → same_references e e'.
Proof. intros (_ & ? & _ & ? & ? & ? & _). by repeat split. Qed.

Lemma deterministic_configuration e b e' :
  deterministic e = Ok (b, e') → same_configuration e e'.
Proof.
  unfold deterministic. intros H. bind_inv H.
  destruct a; injection H as <- <-; by repeat split.
Qed.

Lemma valid_configuration e b e' : valid e = Ok (b, e') → same_configuration e e'.
Proof.
  unfold valid.
  repeat (destruct (_ : bool); [intros [= <- <-]; apply same_configuration_refl |]).
  apply deterministic_configuration.
Qed.

Lemma start_configuration check e e' : start check e = Ok e' → same_configuration e e'.
Proof.
  assert (Hun : ∀ e0 e1, start_unchecked e0 = Ok e1 → same_configuration e0 e1).
  { unfold start_unchecked. intros e0 e1 H. bind_inv H. injection H as <-.
    by repeat split. }
  unfold start. destruct check; [| apply Hun].
  intros H. bind_inv H. destruct a as [ok e1]. apply valid_configuration in E.
  destruct (negb ok); [by injection H as <- |].
  eapply same_configuration_trans; [exact E | by apply Hun].
Qed.

Lemma stop_configuration recurse e r e' :
  stop recurse e = Ok (r, e') → same_configuration e e'.
Proof.
  unfold stop. intros H.
  destruct (negb (running e)); [injection H as <- <-; apply same_configuration_refl |].
  do 3 bind_inv H.
  repeat (destruct (_ : bool); [injection H as <- <-; by repeat split |]).
  done.
Qed.

End Frames.

(** * Invariants of the references *)

Section References.

Context {Args : Type}.
Variable returns_void : bool.
Implicit Types (e : FsmBase (Args:=Args)).

Lemma push_stop_states_added (ids : list N) e e' :
  push_stop_states ids e = Ok e' →
  ∃ added, Forall2 (fun id s => m_states e !! id = Some (Some s)) ids added ∧
           e' = set_stop_states (m_stop_states e ++ added) e.
Proof.
  revert e. induction ids as [| id ids IH]; intros e H; cbn in H.
  - injection H as <-. exists []. split; [constructor |].
    rewrite app_nil_r. by destruct e.
  - unfold map_at in H. destruct (m_states e !! id) as [[s |] |] eqn:Hid; [| done | done].
    cbn in H. apply IH in H as (added & Hall & ->). cbn in Hall.
    exists (s :: added). split; [by constructor |].
    cbn. by rewrite <- app_assoc.
Qed.

Lemma forallb_false_elem {A : Type} (f : A → bool) (l : list A) :
  forallb f l = false → ∃ x, x ∈ l ∧ f x = false.
Proof.
  induction l as [| x l IH]; cbn; [done |].
  destruct (f x) eqn:Hx; cbn.
  - intros (y & Hin & Hy)%IH. exists y. split; [by right | done].
  - intros _. exists x. split; [by left | done].
Qed.

(** X5.  [addStopStates] is all or nothing.  The call fails exactly when one
    of the ids is not registered, and then the engine is unchanged; when it
    succeeds, the registered states of all ids are appended to the stop
    states, in the order of the ids, and nothing else changes. *)
Theorem addStopStates_verdict (ids : list N) e r e' :
  addStopStates ids e = Ok (r, e') →
  (r = false ∧ e' = e ∧ ∃ id, id ∈ ids ∧ m_states e !! id = None) ∨
  (r = true ∧
   ∃ added, Forall2 (fun id s => m_states e !! id = Some (Some s)) ids added ∧
            e' = set_stop_states (m_stop_states e ++ added) e).
Proof.
  unfold addStopStates. intros H.
  destruct (all_registered e ids) eqn:Hall; cbn [negb] in H.
  - bind_inv H. injection H as <- <-. right. split; [done |].
    by apply push_stop_states_added.
  - injection H as <- <-. left. repeat split.
    unfold all_registered in Hall.
    apply forallb_false_elem in Hall as (id & Hin & Hid).
    exists id. split; [done |].
    unfold map_contains in Hid. apply bool_decide_eq_false_1 in Hid.
    destruct (m_states e !! id) eqn:Hs; [| done].
    exfalso. apply Hid. eauto.
Qed.

(** The two invariants move along unchanged references. *)
Lemma referenced_same e e' :
  same_references e e' →
  keys_match e ∧ references_registered e → keys_match e' ∧ references_registered e'.
Proof.
  intros (Hs & Hstart & Herr & Hstop) [Hk (H1 & H2 & H3)].
  unfold keys_match, references_registered.
  rewrite Hs, Hstart, Herr, Hstop. done.
Qed.

(** They survive the registration of a state under a free id. *)
Lemma referenced_insert (s : State (Args:=Args)) e e' :
  m_states e !! m_id s = None →
  m_states e' = <[m_id s := Some s]> (m_states e) →
  m_start_state e' = m_start_state e → m_error_state e' = m_error_state e →
  m_stop_states e' = m_stop_states e →
  keys_match e ∧ references_registered e → keys_match e' ∧ references_registered e'.
Proof.
  intros Hfree Hs Hstart Herr Hstop [Hk (H1 & H2 & H3)].
  assert (Hkeep : ∀ id p, m_states e !! id = Some p → m_states e' !! id = Some p).
  { intros id p Hp. rewrite Hs, lookup_insert_ne; [done |]. intros <-. congruence. }
  unfold keys_match, references_registered. rewrite Hstart, Herr, Hstop.
  split; [| by repeat split; intros; apply Hkeep; auto].
  intros id s' Hreg. rewrite Hs in Hreg.
  destruct (decide (m_id s = id)) as [<- | Hne].
  - rewrite lookup_insert_eq in Hreg. congruence.
  - rewrite lookup_insert_ne in Hreg by done. by apply Hk.
Qed.

Lemma addState_referenced (s : State (Args:=Args)) e :
  keys_match e ∧ references_registered e →
  keys_match (snd (addState s e)) ∧ references_registered (snd (addState s e)).
Proof.
  intros Hinv. unfold addState, map_contains, map_emplace. cbn.
  destruct (m_states e !! m_id s) eqn:Hs; cbn; [done |].
  by apply (referenced_insert s e).
Qed.

Lemma addStates_referenced (l : list (State (Args:=Args))) e :
  keys_match e ∧ references_registered e →
  keys_match (snd (addStates l e)) ∧ references_registered (snd (addStates l e)).
Proof.
  revert e. induction l as [| s l IH]; intros e Hinv; cbn; [done |].
  unfold map_contains, map_emplace.
  destruct (m_states e !! m_id s) eqn:Hs; cbn; [done |].
  apply IH. by apply (referenced_insert s e).
Qed.

Lemma reachable_referenced e :
  reachable returns_void e → keys_match e ∧ references_registered e.
Proof.
  induction 1 as [silent | | state t e _ IH | event e _ IH | s e _ IH | l e _ IH
                  | id e e' _ IH H | id e r e' _ IH H | id e r e' _ IH H
                  | ids e r e' _ IH H | e r e' _ IH H | e r e' _ IH H
                  | check e e' _ IH H | recurse e r e' _ IH H | e _ IH
                  | event args e r e' _ IH H | event args e r e' _ IH H
                  | e r e' _ IH H | this other _ _ _ IH | a b _ _ _ IH | a b _ IH _ _].
  - split; [intros id s; cbn; by rewrite lookup_empty |].
    repeat split; cbn; [done | done |]. intros s Hin. by apply elem_of_nil in Hin.
  - split; [intros id s; cbn; by rewrite lookup_empty |].
    repeat split; cbn; [done | done |]. intros s Hin. by apply elem_of_nil in Hin.
  - apply (referenced_same e); [| done].
    split; [apply addTransition_states |].
    unfold addTransition, updateAlphabet. cbn. by case_bool_decide.
  - exact IH.
  - by apply addState_referenced.
  - by apply addStates_referenced.
  - unfold setStartState in H. destruct (negb _); [by injection H as <- |].
    unfold map_at in H. destruct (m_states e !! id) as [[s |] |] eqn:Hid; [| done | done].
    injection H as <-. destruct IH as [Hk (H1 & H2 & H3)].
    split; [done |]. repeat split; cbn; [| done | done].
    intros s' [= <-]. by rewrite (Hk _ _ Hid).
  - unfold setErrorState in H. destruct (negb _); [by injection H as <- <- |].
    unfold map_at in H. destruct (m_states e !! id) as [[s |] |] eqn:Hid; [| done | done].
    injection H as <- <-. destruct IH as [Hk (H1 & H2 & H3)].
    split; [done |]. repeat split; cbn; [done | | done].
    intros s' [= <-]. by rewrite (Hk _ _ Hid).
  - unfold addStopState in H. destruct (negb _); [by injection H as <- <- |].
    unfold map_at in H. destruct (m_states e !! id) as [[s |] |] eqn:Hid; [| done | done].
    injection H as <- <-. destruct IH as [Hk (H1 & H2 & H3)].
    split; [done |]. repeat split; cbn; [done | done |].
    intros s' [Hin | ->%list_elem_of_singleton]%elem_of_app; [by apply H3 |].
    by rewrite (Hk _ _ Hid).
  - unfold addStopStates in H. destruct (negb _); [by injection H as <- <- |].
    bind_inv H. injection H as <- <-.
    apply push_stop_states_added in E as (added & Hall & ->).
    destruct IH as [Hk (H1 & H2 & H3)].
    split; [done |]. repeat split; cbn; [done | done |].
    intros s' [Hin | Hin]%elem_of_app; [by apply H3 |].
    clear -Hall Hin Hk. induction Hall as [| id s ids added Hid _ IHall].
    + by apply elem_of_nil in Hin.
    + apply elem_of_cons in Hin as [-> | Hin]; [| by apply IHall].
      by rewrite (Hk _ _ Hid).
  - apply (referenced_same e); [| done].
    by apply deterministic_configuration, same_configuration_references in H.
  - apply (referenced_same e); [| done].
    by apply valid_configuration, same_configuration_references in H.
  - apply (referenced_same e); [| done].
    by apply start_configuration, same_configuration_references in H.
  - apply (referenced_same e); [| done].
    by apply stop_configuration, same_configuration_references in H.
  - unfold halt. by destruct (negb (running e)).
  - by apply raise_cases in H as [[_ ->] | (_ & _ & ->)].
  - by apply transition_cases in H as [[_ ->] | (_ & _ & _ & ->)].
  - apply (referenced_same e); [| done].
    by apply step_configuration, same_configuration_references in H.
  - exact IH.
  - exact IH.
  - exact IH.
Qed.

(** X6.  Every engine that a program can reach keeps each registered state
    under the state's own id, and its start state, error state and stop
    states refer to registered states. *)
Theorem reachable_references_registered e :
  reachable returns_void e → keys_match e ∧ references_registered e.
Proof. apply reachable_referenced. Qed.

(** One state of a batch: rejected when its id is taken, stored otherwise. *)
Lemma addStates_cons (s : State (Args:=Args)) l e :
  addStates (s :: l) e =
  match m_states e !! m_id s with
  | Some _ => (false, e)
  | None => addStates l (emit (Log (AddingState (m_id s)))
                           (set_states (<[m_id s := Some s]> (m_states e)) e))
  end.
Proof.
  cbn [addStates]. unfold map_contains, map_emplace.
  destruct (m_states e !! m_id s) eqn:Hs.
  - by rewrite bool_decide_eq_true_2 by eauto.
  - rewrite bool_decide_eq_false_2 by (by intros [? ?]). done.
Qed.

Lemma addStates_true_iff (l : list (State (Args:=Args))) e :
  fst (addStates l e) = true ↔
  NoDup (m_id <$> l) ∧ ∀ s, s ∈ l → m_states e !! m_id s = None.
Proof.
  revert e. induction l as [| s l IH]; intros e.
  - cbn. split; [| done]. intros _. split; [constructor |]. by intros s' ?%elem_of_nil.
  - rewrite addStates_cons, fmap_cons, NoDup_cons.
    destruct (m_states e !! m_id s) eqn:Hs.
    + cbn. split; [done |]. intros [_ Hfree].
      specialize (Hfree s (list_elem_of_here _ _)). congruence.
    + rewrite IH. cbn [m_states emit set_states]. split.
      * intros [Hnd Hfree]. split; [split; [| done] |].
        -- intros (s' & Heq & Hin)%list_elem_of_fmap.
           specialize (Hfree s' Hin). rewrite <- Heq, lookup_insert_eq in Hfree. done.
        -- intros s' [-> | Hin]%elem_of_cons; [done |].
           specialize (Hfree s' Hin).
           destruct (decide (m_id s = m_id s')) as [Heq | Hne].
           ++ rewrite Heq, lookup_insert_eq in Hfree. done.
           ++ by rewrite lookup_insert_ne in Hfree.
      * intros [[Hnotin Hnd] Hfree]. split; [done |].
        intros s' Hin. rewrite lookup_insert_ne.
        -- apply Hfree. by right.
        -- intros Heq. apply Hnotin. apply list_elem_of_fmap. by exists s'.
Qed.

Lemma addStates_prefix (l : list (State (Args:=Args))) e :
  ∃ stored rest, l = stored ++ rest ∧
    (fst (addStates l e) = true → rest = []) ∧
    (∀ s, s ∈ stored → m_states (snd (addStates l e)) !! m_id s = Some (Some s)) ∧
    (∀ id, is_Some (m_states (snd (addStates l e)) !! id) ↔
           is_Some (m_states e !! id) ∨ id ∈ m_id <$> stored).
Proof.
  revert e. induction l as [| s l IH]; intros e.
  - exists [], []. cbn. split; [done |]. split; [done |].
    split; [by intros s ?%elem_of_nil |].
    intros id. split; [by left | by intros [? | ?%elem_of_nil]].
  - rewrite addStates_cons. destruct (m_states e !! m_id s) eqn:Hs.
    + exists [], (s :: l). cbn. split; [done |]. split; [done |].
      split; [by intros s' ?%elem_of_nil |].
      intros id. split; [by left | by intros [? | ?%elem_of_nil]].
    + destruct (IH (emit (Log (AddingState (m_id s)))
                      (set_states (<[m_id s := Some s]> (m_states e)) e)))
        as (stored & rest & -> & Htrue & Hstored & Hdom).
      exists (s :: stored), rest. split; [done |]. split; [done |]. split.
      * intros s' [-> | Hin]%elem_of_cons; [| by apply Hstored].
        apply addStates_keeps_entries. cbn. apply lookup_insert_eq.
      * intros id. rewrite Hdom. cbn [m_states emit set_states].
        rewrite fmap_cons, elem_of_cons.
        destruct (decide (m_id s = id)) as [<- | Hne].
        -- rewrite lookup_insert_eq. split; [intros _; right; by left |].
           intros _. left. eauto.
        -- rewrite lookup_insert_ne by done. split; [tauto |].
           intros [? | [? | ?]]; [tauto | congruence | tauto].
Qed.

(** X20.  What [addStates] registers.  The call answers [true] exactly when
    the ids of the batch are pairwise distinct and none of them is taken.
    In every case it stores a leading part of the batch, the whole batch
    when it answers [true]: every stored state is found under its id, the
    registered ids afterwards are the ids registered before and the ids of
    the stored part, and no entry that was there before is replaced. *)
Theorem addStates_verdict (l : list (State (Args:=Args))) e :
  (fst (addStates l e) = true ↔
   NoDup (m_id <$> l) ∧ ∀ s, s ∈ l → m_states e !! m_id s = None) ∧
  (∃ stored rest, l = stored ++ rest ∧
    (fst (addStates l e) = true → rest = []) ∧
    (∀ s, s ∈ stored → m_states (snd (addStates l e)) !! m_id s = Some (Some s)) ∧
    (∀ id, is_Some (m_states (snd (addStates l e)) !! id) ↔
           is_Some (m_states e !! id) ∨ id ∈ m_id <$> stored)) ∧
  (∀ id p, m_states e !! id = Some p → m_states (snd (addStates l e)) !! id = Some p).
Proof.
  split; [apply addStates_true_iff |]. split; [apply addStates_prefix |].
  intros id p. apply addStates_keeps_entries.
Qed.

End References.

(** * Further properties of validation and start *)

Section Checks.

Context {Args : Type}.
Implicit Types (e : FsmBase (Args:=Args)).

Lemma scan_alphabet_failure e state accepts symbols msg :
  NoDup symbols → (∀ x, x ∈ symbols → x ∉ accepts) →
  scan_alphabet e state accepts symbols = Ok (Some msg) →
  ∃ st symbol, deref state = Ok st ∧ symbol ∈ symbols ∧ hasAction st = true ∧
               lookup e state symbol = Ok None ∧ msg = MissingTransition (m_id st) symbol.
Proof.
  intros Hnd. revert accepts.
  induction Hnd as [| symbol rest Hnotin Hnd IH]; intros accepts Hfresh H; [done |].
  cbn [scan_alphabet] in H. bind_inv H. rename a into result. bind_inv H. rename a into st.
  destruct (negb (bool_decide (is_Some result)) && hasAction st) eqn:Hmiss.
  - injection H as <-. apply andb_true_iff in Hmiss as [Hnone Hact].
    apply negb_true_iff, bool_decide_eq_false_1 in Hnone.
    exists st, symbol. repeat split; [by left | done |].
    destruct result; [| done]. exfalso. apply Hnone. eauto.
  - unfold set_emplace in H.
    rewrite bool_decide_eq_false_2 in H by (apply Hfresh; left).
    cbn [fst snd negb] in H.
    destruct (IH ({[symbol]} ∪ accepts)) as (st' & symbol' & Hst & Hin & Hrest); [| done |].
    + intros x Hx. apply not_elem_of_union. split.
      * apply not_elem_of_singleton. by intros ->.
      * apply Hfresh. by right.
    + exists st', symbol'. repeat split; [done | by right | apply Hrest ..].
Qed.

Lemma scan_states_failure e states msg :
  scan_states e states = Ok (Some msg) →
  ∃ state st symbol, state ∈ states ∧ deref state = Ok st ∧ symbol ∈ m_alphabet e ∧
    hasAction st = true ∧ lookup e state symbol = Ok None ∧
    msg = MissingTransition (m_id st) symbol.
Proof.
  induction states as [| state rest IH]; cbn [scan_states]; [done |].
  intros H. bind_inv H. destruct a as [msg' |].
  - injection H as <-.
    apply scan_alphabet_failure in E as (st & symbol & Hst & Hin & Hact & Hlook & ->).
    + exists state, st, symbol. repeat split; try done; [by left |].
      by apply elem_of_elements in Hin.
    + apply (NoDup_elements (m_alphabet e)).
    + intros x _. apply not_elem_of_empty.
  - apply IH in H as (state' & st & symbol & Hin & Hrest).
    exists state', st, symbol. split; [by right | done].
Qed.

(** X7.  What the answer of [deterministic] means.  It answers [true], and
    leaves the engine as it is, exactly when every registered state that has
    a handler resolves every symbol of the alphabet through its own row or a
    row of an ancestor.  It answers [false] exactly when some registered
    state with a handler misses a row for a symbol, and then that pair is
    logged; the rows that ancestors add for a symbol never make it fail. *)
Theorem deterministic_verdict e b e' :
  deterministic e = Ok (b, e') →
  (b = true ∧ e' = e ∧
   ∀ id s symbol,
     m_states e !! id = Some (Some s) → symbol ∈ m_alphabet e → hasAction s = true →
     ∃ t, lookup e (Some s) symbol = Ok (Some t)) ∨
  (b = false ∧
   ∃ id s symbol,
     m_states e !! id = Some (Some s) ∧ symbol ∈ m_alphabet e ∧ hasAction s = true ∧
     lookup e (Some s) symbol = Ok None ∧
     e' = emit (Log (MissingTransition (m_id s) symbol)) e).
Proof.
  intros H. destruct b.
  - left. split; [done |]. by apply deterministic_complete.
  - right. split; [done |]. unfold deterministic in H. bind_inv H.
    destruct a as [msg |]; [| done]. injection H as <-.
    apply scan_states_failure in E
      as (state & st & symbol & Hin & Hst & Hsym & Hact & Hlook & ->).
    unfold state_pointers in Hin.
    apply list_elem_of_fmap in Hin as ([id p] & -> & Hin).
    apply elem_of_map_to_list in Hin. cbn in Hst, Hlook.
    destruct p as [s |]; [| done]. injection Hst as <-.
    exists id, s, symbol. done.
Qed.

Lemma valid_true e e' :
  valid e = Ok (true, e') →
  (m_status e = Running ∨ m_status e = Stopped) ∧ size (m_states e) ≠ 0%nat ∧
  is_Some (m_start_state e) ∧ m_stop_states e ≠ [] ∧ is_Some (m_error_state e) ∧
  deterministic e = Ok (true, e').
Proof.
  unfold valid. intros H.
  destruct (bool_decide (m_status e = Running)) eqn:Hrun;
    destruct (bool_decide (m_status e = Stopped)) eqn:Hstop; cbn in H; try done.
  all: destruct (bool_decide (size (m_states e) = 0%nat)) eqn:Hsize; [done |].
  all: destruct (bool_decide (is_Some (m_start_state e))) eqn:Hstart; cbn in H; [| done].
  all: destruct (bool_decide (length (m_stop_states e) = 0%nat)) eqn:Hstops; [done |].
  all: destruct (bool_decide (is_Some (m_error_state e))) eqn:Herr; cbn in H; [| done].
  all: apply bool_decide_eq_false_1 in Hsize; apply bool_decide_eq_true_1 in Hstart;
    apply bool_decide_eq_false_1 in Hstops; apply bool_decide_eq_true_1 in Herr.
  all: assert (m_stop_states e ≠ []) by (intros Hnil; apply Hstops; by rewrite Hnil).
  - apply bool_decide_eq_true_1 in Hrun. repeat split; auto.
  - apply bool_decide_eq_true_1 in Hrun. repeat split; auto.
  - apply bool_decide_eq_true_1 in Hstop. repeat split; auto.
Qed.

Lemma valid_false_members e e' :
  valid e = Ok (false, e') →
  m_status e' = m_status e ∧ m_current e' = m_current e ∧ m_events e' = m_events e ∧
  m_in_transition e' = m_in_transition e.
Proof.
  unfold valid. repeat (destruct (_ : bool); [by intros [= <-] |]).
  unfold deterministic. intros H. bind_inv H.
  destruct a; [by injection H as <- | done].
Qed.

(** X8.  A checked start either starts the engine or leaves status, current
    state and queue alone.  When it starts the engine, the start state is
    set and [current] is its id, the status was [Running] or [Stopped] and
    is [Running] now, there is at least one registered state, at least one
    stop state and an error state, and every registered state that has a
    handler resolves every symbol of the alphabet. *)
Theorem checked_start_guarantees e e' :
  start true e = Ok e' →
  (∃ s, m_start_state e = Some s ∧
        e' = set_status Running (set_current (m_id s) e) ∧
        (m_status e = Running ∨ m_status e = Stopped) ∧
        size (m_states e) ≠ 0%nat ∧ m_stop_states e ≠ [] ∧ is_Some (m_error_state e) ∧
        ∀ id st symbol,
          m_states e !! id = Some (Some st) → symbol ∈ m_alphabet e → hasAction st = true →
          ∃ t, lookup e (Some st) symbol = Ok (Some t)) ∨
  (valid e = Ok (false, e') ∧ m_status e' = m_status e ∧ m_current e' = m_current e ∧
   m_events e' = m_events e).
Proof.
  unfold start. intros H. bind_inv H. destruct a as [[] e1]; cbn [negb] in H.
  - left. destruct (valid_true _ _ E) as (Hst & Hsize & Hstart & Hstops & Herr & Hdet).
    apply deterministic_complete in Hdet as [-> Hall].
    unfold start_unchecked, get in H. destruct (m_start_state e) as [s |]; [| done].
    injection H as <-. exists s. repeat split; auto.
  - injection H as <-. right. split; [done |].
    destruct (valid_false_members _ _ E) as (? & ? & ? & _). done.
Qed.

End Checks.

(** * Further properties of lookup and acceptance *)

Section Resolution.

Context {Args : Type}.
Implicit Types (e : FsmBase (Args:=Args)) (event : N).

Lemma lookup_fuel_resolves fuel e (s : State (Args:=Args)) event t :
  lookup_fuel fuel e (Some s) event = Ok (Some t) → resolves e event s t.
Proof.
  revert s. induction fuel as [| fuel IH]; intros s; cbn; [done |].
  destruct (m_stt e !! SttIndex (m_id s) event) as [t' |] eqn:Hrow.
  - intros [= ->]. by apply resolves_here.
  - unfold hasParent. destruct (m_parent s =? 0) eqn:Hp; cbn; [done |].
    apply N.eqb_neq in Hp. unfold map_at.
    destruct (m_states e !! m_parent s) as [[p |] |] eqn:Hreg; cbn; [| by destruct fuel | done].
    intros H. eapply resolves_above; eauto.
Qed.

Lemma resolves_lookup_fuel e (s : State (Args:=Args)) event t :
  resolves e event s t → ∃ fuel, lookup_fuel fuel e (Some s) event = Ok (Some t).
Proof.
  induction 1 as [s t Hrow | s p t Hrow Hp Hreg _ [fuel IH]].
  - exists 1%nat. cbn. by rewrite Hrow.
  - exists (S fuel). cbn. rewrite Hrow. unfold hasParent.
    rewrite (proj2 (N.eqb_neq _ _) Hp). cbn. unfold map_at. rewrite Hreg. done.
Qed.

Lemma lookup_fuel_agree fuel1 fuel2 e state event r1 r2 :
  lookup_fuel fuel1 e state event = Ok r1 → lookup_fuel fuel2 e state event = Ok r2 →
  r1 = r2.
Proof.
  intros H1 H2.
  pose proof (lookup_fuel_more fuel1 fuel2 e state event _ H1 ltac:(done)) as H1'.
  pose proof (lookup_fuel_more fuel2 fuel1 e state event _ H2 ltac:(done)) as H2'.
  rewrite Nat.add_comm in H2'. congruence.
Qed.

(** X9.  [lookup] finds the nearest row: whenever it returns, the row it
    reports for an event is the row of the state itself if it has one, and
    otherwise the row of the nearest registered ancestor that has one; it
    reports no row exactly when no state of the parent chain has one. *)
Theorem lookup_nearest_row e (s : State (Args:=Args)) event r :
  lookup e (Some s) event = Ok r → ∀ t, r = Some t ↔ resolves e event s t.
Proof.
  intros Hlook t. split.
  - intros ->. by eapply lookup_fuel_resolves.
  - intros [fuel Hfuel]%resolves_lookup_fuel.
    by eapply lookup_fuel_agree.
Qed.

Lemma accept_loop_lookup fuel e (s : State (Args:=Args)) event b :
  states_nonnull e → accept_loop fuel e (Some s) event = Ok b →
  ∃ r, lookup_fuel fuel e (Some s) event = Ok r ∧ b = bool_decide (is_Some r).
Proof.
  intros Hnn. revert s. induction fuel as [| fuel IH]; intros s; cbn; [done |].
  destruct (m_stt e !! SttIndex (m_id s) event) as [t |] eqn:Hrow.
  - intros [= <-]. exists (Some t). split; [done |].
    symmetry. apply bool_decide_eq_true_2. eauto.
  - unfold hasParent. destruct (m_parent s =? 0) eqn:Hp; cbn.
    + intros [= <-]. exists None. split; [done |].
      symmetry. apply bool_decide_eq_false_2. by intros [? ?].
    + unfold map_at. destruct (m_states e !! m_parent s) as [[p |] |] eqn:Hreg; cbn.
      * apply IH.
      * by destruct (Hnn (m_parent s)).
      * done.
Qed.

(** X10.  [accept] and [lookup] agree.  On an engine without null entries,
    whenever [accept] returns, it answers [true] exactly when the engine is
    running and [lookup], started at the current state, finds a row for the
    event. *)
Theorem accept_agrees_with_lookup e event b :
  states_nonnull e → accept e event = Ok b →
  (b = true ↔
   m_status e = Running ∧
   ∃ cur t, m_states e !! m_current e = Some (Some cur) ∧
            lookup e (Some cur) event = Ok (Some t)).
Proof.
  intros Hnn. unfold accept, running, current_at, map_at.
  case_bool_decide as Hrun; cbn [negb].
  - destruct (m_states e !! m_current e) as [[cur |] |] eqn:Hcur; cbn [mbind Result_bind];
      [| by destruct (Hnn (m_current e)) | done].
    intros (r & Hlook & ->)%accept_loop_lookup; [| done].
    split.
    + intros [t ->]%bool_decide_eq_true_1. split; [done |]. exists cur, t. done.
    + intros (_ & cur' & t & [= <-] & Hlook').
      unfold lookup in Hlook'. rewrite Hlook in Hlook'. injection Hlook' as ->.
      apply bool_decide_eq_true_2. eauto.
  - intros [= <-]. split; [done |]. by intros [? _].
Qed.

End Resolution.

(** * Further properties of execution *)

Section Steps.

Context {Args : Type}.
Variable returns_void : bool.
Implicit Types (e : FsmBase (Args:=Args)) (args : Args) (event : N).

(** The status after the calls of a handler that was entered on a running
    engine: [Stopped] if [halt] was among them, [Running] otherwise. *)
Lemma handler_calls_status calls e e' :
  handler_calls calls e = Ok e' → m_status e = Running →
  (CallHalt ∈ calls ∧ m_status e' = Stopped) ∨ ((CallHalt ∉ calls) ∧ m_status e' = Running).
Proof.
  revert e. induction calls as [| [event args | event args |] calls IH]; intros e H Hrun;
    cbn [handler_calls] in H.
  - injection H as <-. right. split; [apply not_elem_of_nil | done].
  - bind_inv H. destruct a as [r e1].
    assert (Hrun1 : m_status e1 = Running)
      by (by apply transition_cases in E as [[_ ->] | (_ & _ & _ & ->)]).
    destruct (IH _ H Hrun1) as [[Hin Hst] | [Hout Hst]].
    + left. split; [by right | done].
    + right. split; [| done]. by intros [[=] | ?]%elem_of_cons.
  - bind_inv H. destruct a as [r e1].
    assert (Hrun1 : m_status e1 = Running)
      by (by apply raise_cases in E as [[_ ->] | (_ & _ & ->)]).
    destruct (IH _ H Hrun1) as [[Hin Hst] | [Hout Hst]].
    + left. split; [by right | done].
    + right. split; [| done]. by intros [[=] | ?]%elem_of_cons.
  - left. split; [by left |].
    assert (Hhalt : m_status (halt e) = Stopped).
    { unfold halt, running. by rewrite bool_decide_eq_true_2. }
    rewrite handler_calls_not_running in H by (rewrite Hhalt; discriminate).
    by injection H as <-.
Qed.

Lemma step_changed_cases e e' :
  status_latched e →
  step returns_void e = Ok (StateChanged, e') →
  ∃ event args rest cur t dst h,
    m_events e = (event, args) :: rest ∧ m_status e = Running ∧
    m_states e !! m_current e = Some cur ∧ lookup e cur event = Ok (Some t) ∧
    m_states e !! m_next t = Some (Some dst) ∧ m_action dst = Some h ∧
    (if returns_void then True else returned (h args) = true) ∧
    m_current e' = m_next t ∧
    ((CallHalt ∈ requests (h args) ∧ m_status e' = Stopped) ∨
     ((CallHalt ∉ requests (h args)) ∧ m_status e' = Running)) ∧
    m_in_transition e' = false ∧
    history e' = history e ++ [WatchdogReset; Action (m_id dst) args] ++
                 (if isStopState e (m_next t) then [StopSignal] else []).
Proof.
  intros Hlatched Hstep.
  apply step_cases in Hstep as [(_ & [=] & _) | (event & args & rest & e1 & Hq & Hexec & ->)].
  apply transition_exec_cases in Hexec
    as [(Hnot & Hr & _) | (Hrun & cur & t & Hcur & Hlook & Henter)].
  { cbn in Hr. destruct Hlatched as [H | [H | H]]; congruence. }
  cbn in Hcur, Hrun. rewrite (lookup_members _ e) in Hlook by done.
  apply transition_enter_cases in Henter as (dst & success & mid & Hdst & Hmid & Hfin).
  apply transition_finish_cases in Hfin
    as [(-> & _ & ->) | (_ & [=] & _)].
  cbn in Hdst. unfold hasAction in Hmid.
  destruct (m_action dst) as [h |] eqn:Hh.
  2: { rewrite bool_decide_eq_false_2 in Hmid by (by intros [? ?]). by destruct Hmid. }
  rewrite bool_decide_eq_true_2 in Hmid by eauto.
  pose proof (action_calls _ _ _ _ _ _ Hmid) as (h1 & Hh1 & Hcalls).
  rewrite Hh in Hh1. injection Hh1 as <-.
  apply handler_calls_status in Hcalls; [| done].
  apply action_cases in Hmid as (h' & Hh' & Hsucc & Hgrown).
  rewrite Hh in Hh'. injection Hh' as <-.
  apply queue_grown_members in Hgrown
    as (_ & Hhist & _ & Hcurrent & _ & _ & _ & Hstop & _).
  cbn in Hhist, Hcurrent, Hstop.
  assert (Hsame : isStopState mid (m_next t) = isStopState e (m_next t))
    by (unfold isStopState; by rewrite Hstop).
  rewrite Hsame.
  exists event, args, rest, cur, t, dst, h.
  split; [done |]. split; [done |]. split; [done |]. split; [done |].
  split; [done |]. split; [done |].
  split; [destruct returns_void; [done | by symmetry] |].
  destruct (isStopState e (m_next t)); cbn; rewrite Hhist, <- ?app_assoc; done.
Qed.

(** X11.  (For handlers that call back through [transition], [raise] and
    [halt].)  Whenever [step] returns [StateChanged], the engine was running,
    the record at the front of the queue resolved to a row whose destination
    is a registered state with a handler, that handler was called with the
    arguments of the record and reported success; afterwards [current] is
    the destination of the row, the status is [Stopped] if the handler
    called [halt] and still [Running] otherwise, the in-transition flag is
    clear, and the stop signal was pulsed exactly when the destination is a
    stop state. *)
Theorem step_changed_enters_destination e e' :
  status_latched e →
  step returns_void e = Ok (StateChanged, e') →
  ∃ event args rest cur t dst h,
    m_events e = (event, args) :: rest ∧ m_status e = Running ∧
    m_states e !! m_current e = Some cur ∧ lookup e cur event = Ok (Some t) ∧
    m_states e !! m_next t = Some (Some dst) ∧ m_action dst = Some h ∧
    (if returns_void then True else returned (h args) = true) ∧
    m_current e' = m_next t ∧
    ((CallHalt ∈ requests (h args) ∧ m_status e' = Stopped) ∨
     ((CallHalt ∉ requests (h args)) ∧ m_status e' = Running)) ∧
    m_in_transition e' = false ∧
    history e' = history e ++ [WatchdogReset; Action (m_id dst) args] ++
                 (if isStopState e (m_next t) then [StopSignal] else []).
Proof. apply step_changed_cases. Qed.

(** X12.  (For handlers that call back through [transition], [raise] and
    [halt].)  A step takes one record off the queue and puts at most one in
    front: the queue after the step is the rest of the old queue, preceded
    by at most one record, which the handler requested through [transition],
    and followed by the records the handler raised.  No record is put in
    front when the in-transition flag was set at the call, none is added at
    all by an engine that is not running, and the flag is clear after every
    step that took a record. *)
Theorem step_adds_at_most_one_record e r e' x rest :
  step returns_void e = Ok (r, e') → m_events e = x :: rest →
  m_in_transition e' = false ∧
  ∃ pre post, m_events e' = pre ++ rest ++ post ∧
    (pre = [] ∨ m_in_transition e = false ∧ ∃ record, pre = [record]) ∧
    (m_status e ≠ Running → pre = [] ∧ post = []) ∧
    (∀ record, record ∈ post → requested e x.2 (CallRaise record.1 record.2)).
Proof.
  intros Hstep Hq.
  destruct (step_queue _ _ _ _ _ _ Hstep Hq)
    as (Hflag & pre & post & Hq' & Hpre & Hidle & _ & Hback).
  split; [done |]. exists pre, post. auto.
Qed.

(** X13.  Only one handler-initiated record is in flight.  After an accepted
    call of [transition] every further call is rejected and changes nothing,
    until a step has run, which clears the flag. *)
Theorem transition_rejects_second event args e e1 :
  transition event args e = Ok (true, e1) →
  m_in_transition e1 = true ∧
  (∀ event' args' r e2, transition event' args' e1 = Ok (r, e2) → r = false ∧ e2 = e1) ∧
  (∀ r e2, step returns_void e1 = Ok (r, e2) → m_in_transition e2 = false).
Proof.
  intros [[[=] _] | (_ & _ & _ & ->)]%transition_cases.
  split; [done |]. split.
  - intros event' args' r e2 [[-> ->] | (_ & [=] & _)]%transition_cases. done.
  - intros r e2 [(Hq & _) | (? & ? & ? & e' & _ & _ & ->)]%step_cases; done.
Qed.

(** A step of an engine that is not running. *)
Lemma step_idle e :
  m_status e ≠ Running →
  step returns_void e =
  match m_events e with
  | [] => Ok (StateUnchanged, e)
  | _ :: rest =>
      Ok (m_status e, set_in_transition false (emit WatchdogReset (set_events rest e)))
  end.
Proof.
  intros Hst. unfold step. destruct (m_events e) as [| [event args] rest]; [done |].
  unfold transition_exec, running. cbn [m_status emit set_events fst snd].
  by rewrite bool_decide_eq_false_2.
Qed.

Lemma drive_idle (n : nat) e :
  m_status e ≠ Running →
  ∃ e', drive returns_void n e = Ok (take n (m_events e), e') ∧
        m_events e' = drop n (m_events e) ∧
        m_status e' = m_status e ∧ m_current e' = m_current e ∧
        history e' = history e ++ replicate (n `min` length (m_events e)) WatchdogReset.
Proof.
  revert e. induction n as [| n IH]; intros e Hst.
  - exists e. cbn. rewrite take_0, drop_0, app_nil_r. done.
  - cbn [drive]. rewrite step_idle by done.
    destruct (m_events e) as [| x rest] eqn:Hq; cbn [mbind Result_bind].
    + destruct (IH e Hst) as (e' & Hdrive & Hq' & Hst' & Hcur & Hhist).
      rewrite Hdrive. cbn [mbind Result_bind]. exists e'.
      rewrite Hq in *. rewrite take_nil in *. rewrite drop_nil in *.
      cbn in Hhist |- *. rewrite Nat.min_0_r in Hhist. done.
    + destruct (IH (set_in_transition false (emit WatchdogReset (set_events rest e))))
        as (e' & Hdrive & Hq' & Hst' & Hcur & Hhist); [done |].
      rewrite Hdrive. cbn [mbind Result_bind]. exists e'. cbn in *.
      repeat split; try done.
      rewrite Hhist, <- app_assoc. done.
Qed.

(** X15.  An engine that is not running drains its queue without running a
    handler: [n] steps of the driver take the first [n] records off the
    queue (all of them when it holds fewer), reset the watchdog once per
    record taken, and leave the status and the current state as they were. *)
Theorem stopped_engine_drains_queue (n : nat) e :
  m_status e ≠ Running →
  ∃ e', drive returns_void n e = Ok (take n (m_events e), e') ∧
        m_events e' = drop n (m_events e) ∧
        m_status e' = m_status e ∧ m_current e' = m_current e ∧
        history e' = history e ++ replicate (n `min` length (m_events e)) WatchdogReset.
Proof. apply drive_idle. Qed.

(** X16.  After a step into a stop state the engine can be stopped.  On an
    engine that keeps its states under their own ids and has an error state,
    when [step] returns [StateChanged] and the new current state is a stop
    state, the stop signal is the last effect of the step and [stop]
    succeeds at once, with or without waiting, and sets the status to
    [Stopped]. *)
Theorem stop_after_stop_state (recurse : bool) e e' :
  status_latched e → keys_match e → is_Some (m_error_state e) →
  step returns_void e = Ok (StateChanged, e') →
  isStopState e' (m_current e') = true →
  last (history e') = Some StopSignal ∧
  stop recurse e' = Ok (true, set_status Stopped e').
Proof.
  intros Hl Hk [err Herr] Hstep Hstops.
  pose proof (step_configuration _ _ _ _ Hstep)
    as (_ & Hstates & _ & _ & Herr' & Hstop' & _).
  destruct (step_changed_cases _ _ Hl Hstep)
    as (event & args & rest & cur & t & dst & h & _ & _ & _ & _ & Hdst & _ & _ &
        Hcur & Hstatus & _ & Hhist).
  assert (Heq : isStopState e (m_next t) = true).
  { rewrite <- Hstops, Hcur. unfold isStopState. by rewrite Hstop'. }
  split.
  - rewrite Hhist, Heq. cbn. by rewrite !last_app.
  - destruct Hstatus as [[_ Hhalted] | [_ Hrun]].
    + unfold stop, running. rewrite bool_decide_eq_false_2 by (rewrite Hhalted; discriminate).
      cbn [negb]. do 2 f_equal. destruct e'. cbn in Hhalted. by rewrite Hhalted.
    + unfold stop, running. rewrite bool_decide_eq_true_2 by done. cbn [negb].
      rewrite Hstates, Hcur. unfold map_at. rewrite Hdst. cbn [mbind Result_bind deref].
      rewrite Herr', Herr. cbn [mbind Result_bind get].
      destruct (m_id dst =? m_id err); [done |].
      rewrite (Hk _ _ Hdst). unfold isStopState in Heq. rewrite Hstop'.
      by rewrite Heq.
Qed.

(** X17.  What the methods do to the status [Error].  On an engine whose
    status is [Error], [halt] and [stop] change nothing ([stop] reports
    success), [raise] and [transition] are rejected, [valid] fails, so that
    a checked start does nothing, and any number of driver steps and every
    builder method leave the status [Error].  An unchecked start with a
    start state set makes the status [Running] again, and a copy assignment
    or a swap gives the engine the status of the other engine. *)
Theorem error_status_persists e :
  m_status e = Error →
  halt e = e ∧
  (∀ recurse, stop recurse e = Ok (true, e)) ∧
  (∀ event args, raise event args e = Ok (false, e)) ∧
  (∀ event args, transition event args e = Ok (false, e)) ∧
  valid e = Ok (false, e) ∧
  start true e = Ok e ∧
  (∀ n, ∃ taken e', drive returns_void n e = Ok (taken, e') ∧ m_status e' = Error) ∧
  (∀ state t, m_status (snd (addTransition state t e)) = Error) ∧
  (∀ symbol, m_status (snd (addAlphabetSymbol symbol e)) = Error) ∧
  (∀ s, m_status (snd (addState s e)) = Error) ∧
  (∀ l, m_status (snd (addStates l e)) = Error) ∧
  (∀ id e', setStartState id e = Ok e' → m_status e' = Error) ∧
  (∀ id r e', setErrorState id e = Ok (r, e') → m_status e' = Error) ∧
  (∀ id r e', addStopState id e = Ok (r, e') → m_status e' = Error) ∧
  (∀ ids r e', addStopStates ids e = Ok (r, e') → m_status e' = Error) ∧
  (∀ s, m_start_state e = Some s →
        start false e = Ok (set_status Running (set_current (m_id s) e))) ∧
  (∀ other, m_status (assign e other) = m_status other ∧
            m_status (fst (swap e other)) = m_status other).
Proof.
  intros Herr.
  assert (Hnot : m_status e ≠ Running) by (rewrite Herr; discriminate).
  assert (Hvalid : valid e = Ok (false, e)).
  { unfold valid. rewrite Herr.
    rewrite !bool_decide_eq_false_2 by discriminate. done. }
  split; [| split; [| split; [| split; [| split; [| split; [| split]]]]]].
  - unfold halt, running. by rewrite bool_decide_eq_false_2.
  - intros recurse. unfold stop, running. by rewrite bool_decide_eq_false_2.
  - intros. by apply raise_not_running.
  - intros. by apply transition_not_running.
  - done.
  - unfold start. by rewrite Hvalid.
  - intros n. destruct (drive_idle n e Hnot) as (e' & H1 & _ & H2 & _).
    exists (take n (m_events e)), e'. split; [done | congruence].
  - split; [| split; [| split; [| split]]].
    + intros state t. rewrite <- Herr.
      apply (builders_keep_status state t (mkState 0 0 None) [] e).
    + intros symbol. rewrite <- Herr.
      apply (builders_keep_status symbol (mkTransition None 0 0) (mkState 0 0 None) [] e).
    + intros s. rewrite <- Herr.
      apply (builders_keep_status 0 (mkTransition None 0 0) s [] e).
    + intros l. rewrite <- Herr.
      apply (builders_keep_status 0 (mkTransition None 0 0) (mkState 0 0 None) l e).
    + split; [| split; [| split; [| split; [| split]]]].
      * intros id e' H. rewrite <- Herr.
        destruct (references_keep_status id [] e) as (Hkeep & _). by apply Hkeep.
      * intros id r e' H. rewrite <- Herr.
        destruct (references_keep_status id [] e) as (_ & Hkeep & _). by apply (Hkeep r).
      * intros id r e' H. rewrite <- Herr.
        destruct (references_keep_status id [] e) as (_ & _ & Hkeep & _). by apply (Hkeep r).
      * intros ids r e' H. rewrite <- Herr.
        destruct (references_keep_status 0 ids e) as (_ & _ & _ & Hkeep). by apply (Hkeep r).
      * intros s Hs. unfold start, start_unchecked, get. by rewrite Hs.
      * done.
Qed.

(** X18.  A swap gives each engine what [copy] would give it from the other,
    so each keeps its own alphabet; a move is that swap, and move
    construction leaves the source with the members of a blank engine.
    Swapping twice restores both engines. *)
Theorem swap_is_an_involution (a b : FsmBase (Args:=Args)) :
  swap a b = (copy a b, copy b a) ∧
  move a b = swap a b ∧
  FsmBase_move b = (FsmBase_copy b, copy b FsmBase_blank) ∧
  swap (fst (swap a b)) (snd (swap a b)) = (a, b).
Proof. destruct a, b. done. Qed.

End Steps.

(** * Guards *)

Section Guards.

Context {Args : Type}.
Variable returns_void : bool.
Variable g : option (Args → bool) → option (Args → bool).
Implicit Types (e : FsmBase (Args:=Args)) (args : Args) (event : N).

Local Abbreviation R := (reguard_table g).

Lemma reguard_row e index : m_stt (R e) !! index = reguard g <$> (m_stt e !! index).
Proof. unfold reguard_table. cbn. apply lookup_fmap. Qed.

Lemma lookup_fuel_reguard fuel e state event :
  lookup_fuel fuel (R e) state event =
  fmap (M:=Result) (fmap (M:=option) (reguard g)) (lookup_fuel fuel e state event).
Proof.
  revert state. induction fuel as [| fuel IH]; intros state; cbn [lookup_fuel]; [done |].
  destruct (deref state) as [st |]; cbn [mbind Result_bind]; [| done].
  rewrite reguard_row. destruct (m_stt e !! _); cbn [fmap option_fmap option_map]; [done |].
  destruct (negb (hasParent st)); [done |].
  change (m_states (R e)) with (m_states e).
  destruct (map_at (m_states e) (m_parent st)); cbn [mbind Result_bind]; [apply IH | done].
Qed.

Lemma accept_loop_reguard fuel e state event :
  accept_loop fuel (R e) state event = accept_loop fuel e state event.
Proof.
  revert state. induction fuel as [| fuel IH]; intros state; cbn [accept_loop]; [done |].
  destruct (deref state) as [st |]; cbn [mbind Result_bind]; [| done].
  rewrite reguard_row. destruct (m_stt e !! _); cbn [fmap option_fmap option_map]; [done |].
  destruct (m_parent st =? 0); [done |].
  change (m_states (R e)) with (m_states e).
  destruct (map_at (m_states e) (m_parent st)) as [[p |] |]; cbn [mbind Result_bind];
    [apply IH | done | done].
Qed.

Lemma accept_reguard e event : accept (R e) event = accept e event.
Proof.
  unfold accept. change (running (R e)) with (running e).
  destruct (negb (running e)); [done |].
  change (current_at (R e)) with (current_at e).
  destruct (current_at e); cbn [mbind Result_bind]; [| done].
  apply accept_loop_reguard.
Qed.

Lemma transition_reguard event args e :
  transition event args (R e) = (fun p => (fst p, R (snd p))) <$> transition event args e.
Proof.
  unfold transition. rewrite accept_reguard.
  destruct (accept e event) as [acc |]; cbn [mbind Result_bind]; [| done].
  change (m_in_transition (R e)) with (m_in_transition e).
  by destruct (negb acc || m_in_transition e).
Qed.

Lemma raise_reguard event args e :
  raise event args (R e) = (fun p => (fst p, R (snd p))) <$> raise event args e.
Proof.
  unfold raise. rewrite accept_reguard.
  destruct (accept e event) as [acc |]; cbn [mbind Result_bind]; [| done].
  by destruct (negb acc).
Qed.

Lemma handler_calls_reguard calls e :
  handler_calls calls (R e) = R <$> handler_calls calls e.
Proof.
  revert e. induction calls as [| [event args | event args |] rest IH]; intros e;
    cbn [handler_calls]; [done | | |].
  - rewrite transition_reguard.
    destruct (transition event args e) as [[r e1] |]; cbn; [apply IH | done].
  - rewrite raise_reguard.
    destruct (raise event args e) as [[r e1] |]; cbn; [apply IH | done].
  - rewrite <- IH. f_equal. unfold halt.
    change (running (R e)) with (running e). by destruct (negb (running e)).
Qed.

Lemma action_reguard (s : State (Args:=Args)) args e :
  action returns_void s args (R e) =
  (fun p => (fst p, R (snd p))) <$> action returns_void s args e.
Proof.
  unfold action. destruct (m_action s) as [h |]; [| done].
  change (emit (Action (m_id s) args) (R e)) with (R (emit (Action (m_id s) args) e)).
  rewrite handler_calls_reguard.
  by destruct (handler_calls _ _).
Qed.

Lemma toErrorState_reguard args e :
  toErrorState returns_void args (R e) = R <$> toErrorState returns_void args e.
Proof.
  unfold toErrorState. change (m_error_state (R e)) with (m_error_state e).
  destruct (get (m_error_state e)) as [err |]; cbn [mbind Result_bind]; [| done].
  change (set_status Error (set_current (m_id err) (R e)))
    with (R (set_status Error (set_current (m_id err) e))).
  rewrite action_reguard. by destruct (action _ _ _ _) as [[r e2] |].
Qed.

Lemma transition_finish_reguard next copy success e :
  transition_finish returns_void next copy success (R e) =
  (fun p => (fst p, R (snd p))) <$> transition_finish returns_void next copy success e.
Proof.
  unfold transition_finish. destruct (negb success).
  - rewrite toErrorState_reguard. by destruct (toErrorState _ _ _).
  - change (isStopState (R e) next) with (isStopState e next).
    by destruct (isStopState e next).
Qed.

Lemma transition_enter_reguard next args e :
  transition_enter returns_void next args (R e) =
  (fun p => (fst p, R (snd p))) <$> transition_enter returns_void next args e.
Proof.
  unfold transition_enter. cbn [m_states set_current].
  change (m_states (R e)) with (m_states e).
  destruct (map_subscript (m_states e) next) as [m p]. cbn [fst snd].
  destruct (deref p) as [st |]; cbn [mbind Result_bind]; [| done].
  change (set_states m (set_current next (R e))) with (R (set_states m (set_current next e))).
  destruct (hasAction st).
  - rewrite action_reguard.
    destruct (action _ _ _ _) as [[success mid] |]; cbn; [| done].
    apply transition_finish_reguard.
  - cbn [mbind Result_bind]. apply transition_finish_reguard.
Qed.

Lemma transition_exec_reguard event args e :
  transition_exec returns_void event args (R e) =
  (fun p => (fst p, R (snd p))) <$> transition_exec returns_void event args e.
Proof.
  unfold transition_exec.
  change (emit WatchdogReset (R e)) with (R (emit WatchdogReset e)).
  change (running (R (emit WatchdogReset e))) with (running (emit WatchdogReset e)).
  destruct (negb (running _)); [done |].
  change (m_states (R (emit WatchdogReset e))) with (m_states (emit WatchdogReset e)).
  change (m_current (R (emit WatchdogReset e))) with (m_current (emit WatchdogReset e)).
  destruct (map_at _ _) as [state |]; cbn [mbind Result_bind]; [| done].
  unfold lookup. change (chain_fuel (R (emit WatchdogReset e)))
    with (chain_fuel (emit WatchdogReset e)).
  rewrite lookup_fuel_reguard.
  destruct (lookup_fuel _ _ _ _) as [[t |] |]; cbn; [| done | done].
  apply transition_enter_reguard.
Qed.

(** X14.  The guards of the rows are never consulted.  Replacing every guard
    of the table, by whatever rule, changes neither the status a step
    returns nor anything the step does to the engine: the step on the
    changed table gives the same result, with the same change of guards
    applied to its table. *)
Theorem step_ignores_guards e :
  step returns_void (R e) = (fun p => (fst p, R (snd p))) <$> step returns_void e.
Proof.
  unfold step. change (m_events (R e)) with (m_events e).
  destruct (m_events e) as [| value rest]; [done |].
  change (set_events rest (R e)) with (R (set_events rest e)).
  rewrite transition_exec_reguard.
  by destruct (transition_exec _ _ _ _) as [[r e1] |].
Qed.

End Guards.

Section Identifiers.

(** A value below [2 ^ k] shares no bit with a value shifted left by [k]. *)
Lemma land_low_shifted (a b k : N) : a < 2 ^ k → N.land a (N.shiftl b k) = 0.
Proof.
  intros Ha. apply N.bits_inj. intros n. rewrite N.land_spec, N.bits_0.
  destruct (N.lt_ge_cases n k) as [Hlt | Hge].
  - rewrite (N.shiftl_spec_low _ _ _ Hlt). apply andb_false_r.
  - destruct (N.eq_dec a 0) as [-> | Hne]; [by rewrite N.bits_0 |].
    rewrite N.bits_above_log2; [done |].
    apply N.lt_le_trans with k; [| done]. apply N.log2_lt_pow2; lia.
Qed.

Lemma lor_shifted_sum (a b k : N) :
  a < 2 ^ k → N.lor a (N.shiftl b k) = a + b * 2 ^ k.
Proof.
  intros Ha.
  rewrite <- N.lxor_lor by (by apply land_low_shifted).
  rewrite <- N.add_nocarry_lxor by (by apply land_low_shifted).
  by rewrite N.shiftl_mul_pow2.
Qed.

(** The generated id as a sum of its four bytes. *)
Lemma generateFsmStateId_sum (draws : nat → N) :
  generateFsmStateId draws =
  draws 0%nat mod 256 + draws 1%nat mod 256 * 256 +
  draws 2%nat mod 256 * 65536 + draws 3%nat mod 256 * 16777216.
Proof.
  rewrite generateFsmStateId_unfold.
  assert (Hb : ∀ n, draws n mod 256 < 256) by (intros; apply N.mod_lt; lia).
  pose proof (Hb 0%nat) as H0. pose proof (Hb 1%nat) as H1.
  pose proof (Hb 2%nat) as H2.
  rewrite (lor_shifted_sum (draws 0%nat mod 256) _ 8) by exact H0.
  change (2 ^ 8) with 256.
  rewrite (lor_shifted_sum _ _ 16) by (change (2 ^ 16) with 65536; lia).
  change (2 ^ 16) with 65536.
  rewrite (lor_shifted_sum _ _ 24) by (change (2 ^ 24) with 16777216; lia).
  reflexivity.
Qed.

(** X19.  The generated id stores the four draws byte by byte: byte [num] of
    the id is draw [num] reduced modulo 256, so that two runs of the
    generator give the same id exactly when their reduced draws agree. *)
Theorem generated_id_bytes (draws draws' : nat → N) :
  generateFsmStateId draws mod 256 = draws 0%nat mod 256 ∧
  N.shiftr (generateFsmStateId draws) 8 mod 256 = draws 1%nat mod 256 ∧
  N.shiftr (generateFsmStateId draws) 16 mod 256 = draws 2%nat mod 256 ∧
  N.shiftr (generateFsmStateId draws) 24 = draws 3%nat mod 256 ∧
  (generateFsmStateId draws = generateFsmStateId draws' ↔
   ∀ num, (num < sizeof_FsmStateId)%nat → draws num mod 256 = draws' num mod 256).
Proof.
  assert (Hbytes : ∀ d : nat → N,
    generateFsmStateId d mod 256 = d 0%nat mod 256 ∧
    N.shiftr (generateFsmStateId d) 8 mod 256 = d 1%nat mod 256 ∧
    N.shiftr (generateFsmStateId d) 16 mod 256 = d 2%nat mod 256 ∧
    N.shiftr (generateFsmStateId d) 24 = d 3%nat mod 256).
  { intros d. rewrite !N.shiftr_div_pow2, generateFsmStateId_sum.
    change (2 ^ 8) with 256. change (2 ^ 16) with 65536.
    change (2 ^ 24) with 16777216.
    assert (Hb : ∀ n, d n mod 256 < 256) by (intros; apply N.mod_lt; lia).
    pose proof (Hb 0%nat) as H0. pose proof (Hb 1%nat) as H1.
    pose proof (Hb 2%nat) as H2. pose proof (Hb 3%nat) as H3.
    generalize dependent (d 0%nat mod 256). intros b0 H0.
    generalize dependent (d 1%nat mod 256). intros b1 H1.
    generalize dependent (d 2%nat mod 256). intros b2 H2.
    generalize dependent (d 3%nat mod 256). intros b3 H3.
    split; [| split; [| split]].
    - symmetry. apply (N.mod_unique _ _ (b1 + b2 * 256 + b3 * 65536)); lia.
    - assert (Hq : (b0 + b1 * 256 + b2 * 65536 + b3 * 16777216) / 256 =
                   b1 + b2 * 256 + b3 * 65536)
        by (symmetry; apply (N.div_unique _ _ _ b0); lia).
      rewrite Hq. symmetry. apply (N.mod_unique _ _ (b2 + b3 * 256)); lia.
    - assert (Hq : (b0 + b1 * 256 + b2 * 65536 + b3 * 16777216) / 65536 =
                   b2 + b3 * 256)
        by (symmetry; apply (N.div_unique _ _ _ (b0 + b1 * 256)); lia).
      rewrite Hq. symmetry. apply (N.mod_unique _ _ b3); lia.
    - symmetry. apply (N.div_unique _ _ _ (b0 + b1 * 256 + b2 * 65536)); lia. }
  destruct (Hbytes draws) as (A0 & A1 & A2 & A3).
  do 4 (split; [done |]).
  destruct (Hbytes draws') as (B0 & B1 & B2 & B3).
  split.
  - intros Heq num Hnum. rewrite Heq in A0, A1, A2, A3.
    unfold sizeof_FsmStateId in Hnum.
    destruct num as [| [| [| [| num]]]]; [congruence .. | lia].
  - intros Hall. rewrite !generateFsmStateId_sum.
    unfold sizeof_FsmStateId in Hall.
    rewrite (Hall 0%nat), (Hall 1%nat), (Hall 2%nat), (Hall 3%nat) by lia.
    done.
Qed.

End Identifiers.

(** * Copies *)

Section Copies.

Context {Args : Type}.
Variable returns_void : bool.
Variable a : gset N.
Variable pre : list (Effect (Args:=Args)).
Implicit Types (e : FsmBase (Args:=Args)) (args : Args) (event : N).

Local Abbreviation G := (graft a pre).

Lemma emit_graft x e : emit x (G e) = G (emit x e).
Proof. unfold emit, graft. cbn. by rewrite app_assoc. Qed.

Lemma accept_graft e event : accept (G e) event = accept e event.
Proof. by apply accept_members. Qed.

Lemma transition_graft event args e :
  transition event args (G e) = (fun p => (fst p, G (snd p))) <$> transition event args e.
Proof.
  unfold transition. rewrite accept_graft.
  destruct (accept e event) as [acc |]; cbn [mbind Result_bind]; [| done].
  change (m_in_transition (G e)) with (m_in_transition e).
  by destruct (negb acc || m_in_transition e).
Qed.

Lemma raise_graft event args e :
  raise event args (G e) = (fun p => (fst p, G (snd p))) <$> raise event args e.
Proof.
  unfold raise. rewrite accept_graft.
  destruct (accept e event) as [acc |]; cbn [mbind Result_bind]; [| done].
  by destruct (negb acc).
Qed.

Lemma handler_calls_graft calls e :
  handler_calls calls (G e) = G <$> handler_calls calls e.
Proof.
  revert e. induction calls as [| [event args | event args |] rest IH]; intros e;
    cbn [handler_calls]; [done | | |].
  - rewrite transition_graft.
    destruct (transition event args e) as [[r e1] |]; cbn; [apply IH | done].
  - rewrite raise_graft.
    destruct (raise event args e) as [[r e1] |]; cbn; [apply IH | done].
  - rewrite <- IH. f_equal. unfold halt.
    change (running (G e)) with (running e). by destruct (negb (running e)).
Qed.

Lemma action_graft (s : State (Args:=Args)) args e :
  action returns_void s args (G e) =
  (fun p => (fst p, G (snd p))) <$> action returns_void s args e.
Proof.
  unfold action. destruct (m_action s) as [h |]; [| done].
  rewrite emit_graft, handler_calls_graft.
  by destruct (handler_calls _ _).
Qed.

Lemma toErrorState_graft args e :
  toErrorState returns_void args (G e) = G <$> toErrorState returns_void args e.
Proof.
  unfold toErrorState. change (m_error_state (G e)) with (m_error_state e).
  destruct (get (m_error_state e)) as [err |]; cbn [mbind Result_bind]; [| done].
  change (set_status Error (set_current (m_id err) (G e)))
    with (G (set_status Error (set_current (m_id err) e))).
  rewrite action_graft. by destruct (action _ _ _ _) as [[r e2] |].
Qed.

Lemma transition_finish_graft next copy success e :
  transition_finish returns_void next copy success (G e) =
  (fun p => (fst p, G (snd p))) <$> transition_finish returns_void next copy success e.
Proof.
  unfold transition_finish. destruct (negb success).
  - rewrite toErrorState_graft.
    destruct (toErrorState _ _ _) as [e1 |]; cbn; [| done].
    by rewrite !emit_graft.
  - change (isStopState (G e) next) with (isStopState e next).
    destruct (isStopState e next); cbn; [| done]. by rewrite emit_graft.
Qed.

Lemma transition_enter_graft next args e :
  transition_enter returns_void next args (G e) =
  (fun p => (fst p, G (snd p))) <$> transition_enter returns_void next args e.
Proof.
  unfold transition_enter. cbn [m_states set_current].
  change (m_states (G e)) with (m_states e).
  destruct (map_subscript (m_states e) next) as [m p]. cbn [fst snd].
  destruct (deref p) as [st |]; cbn [mbind Result_bind]; [| done].
  change (set_states m (set_current next (G e))) with (G (set_states m (set_current next e))).
  destruct (hasAction st).
  - rewrite action_graft.
    destruct (action _ _ _ _) as [[success mid] |]; cbn; [| done].
    apply transition_finish_graft.
  - cbn [mbind Result_bind]. apply transition_finish_graft.
Qed.

Lemma transition_exec_graft event args e :
  transition_exec returns_void event args (G e) =
  (fun p => (fst p, G (snd p))) <$> transition_exec returns_void event args e.
Proof.
  unfold transition_exec. rewrite emit_graft.
  change (running (G (emit WatchdogReset e))) with (running (emit WatchdogReset e)).
  destruct (negb (running _)); [done |].
  change (m_states (G (emit WatchdogReset e))) with (m_states (emit WatchdogReset e)).
  change (m_current (G (emit WatchdogReset e))) with (m_current (emit WatchdogReset e)).
  destruct (map_at _ _) as [state |]; cbn [mbind Result_bind]; [| done].
  rewrite (lookup_members (G (emit WatchdogReset e)) (emit WatchdogReset e)) by done.
  destruct (lookup _ _ _) as [[t |] |]; cbn; [| done | done].
  apply transition_enter_graft.
Qed.

Lemma step_graft e :
  step returns_void (G e) = (fun p => (fst p, G (snd p))) <$> step returns_void e.
Proof.
  unfold step. change (m_events (G e)) with (m_events e).
  destruct (m_events e) as [| value rest]; [done |].
  change (set_events rest (G e)) with (G (set_events rest e)).
  rewrite transition_exec_graft.
  by destruct (transition_exec _ _ _ _) as [[r e1] |].
Qed.

End Copies.

Section CopiedEngines.

Context {Args : Type}.
Variable returns_void : bool.
Implicit Types (this other : FsmBase (Args:=Args)).

Lemma copy_graft this other :
  copy this other = graft (m_alphabet this) (history this) (FsmBase_copy other).
Proof. unfold copy, graft, FsmBase_copy. cbn. by rewrite app_nil_r. Qed.

(** X24.  A copy steps like its original, when the handlers of the
    registered states make no calls on the engine.  (The states, and with
    them the handlers, are shared between a copy and its original; a handler
    that calls an engine calls the one it was bound to, which this
    development does not tell apart from the one that runs it.)  [step]
    reads neither the alphabet, which [copy] leaves out, nor anything else
    that a copy does not share with its original: on the copy it has the
    same outcome as on the original, returns the same status, has the same
    effects on the collaborators, and leaves the copied members with the
    same values; the alphabet of the copy stays what it was. *)
Theorem copy_steps_like_original this other :
  quiet other →
  match step returns_void other with
  | Ok (r, e1) =>
      ∃ e2 new, step returns_void (copy this other) = Ok (r, e2) ∧
                copy e2 e1 = e2 ∧ m_alphabet e2 = m_alphabet this ∧
                history e1 = history other ++ new ∧ history e2 = history this ++ new
  | Undefined u => step returns_void (copy this other) = Undefined u
  end.
Proof.
  intros _. rewrite (copy_graft this other).
  replace (step returns_void other)
    with (step returns_void (graft (m_alphabet other) (history other) (FsmBase_copy other))).
  2: { f_equal. rewrite <- copy_graft. by destruct other. }
  rewrite !step_graft.
  destruct (step returns_void (FsmBase_copy other)) as [[r e0] |]; cbn; [| done].
  exists (graft (m_alphabet this) (history this) e0), (history e0).
  repeat split.
Qed.

End CopiedEngines.

(** * The further properties at the scenarios *)

Section Instances.

Import Scenarios.

Lemma grounded_b_sound {Args : Type} (fuel : nat) (e : FsmBase (Args:=Args)) s :
  grounded_b fuel e s = true → ∃ n, (n < fuel)%nat ∧ grounded e n s.
Proof.
  revert s. induction fuel as [| fuel IH]; intros s H; cbn in H; [done |].
  destruct (m_parent s =? 0) eqn:Hp.
  - apply N.eqb_eq in Hp. exists 0%nat. split; [lia | by constructor].
  - apply N.eqb_neq in Hp.
    destruct (m_states e !! m_parent s) as [[p |] |] eqn:Hs; [| done | done].
    apply IH in H as (n & Hn & Hg). exists (S n). split; [lia |].
    by apply (grounded_child e n s p).
Qed.

Lemma chains_grounded_check {Args : Type} (e : FsmBase (Args:=Args)) :
  chains_grounded_b e = true → chains_grounded e.
Proof.
  unfold chains_grounded_b, state_pointers. rewrite forallb_forall.
  intros Hall id s Hs.
  assert (Hin : In (Some s) (snd <$> map_to_list (m_states e))).
  { apply list_elem_of_In, list_elem_of_fmap. exists (id, Some s).
    split; [done | by apply elem_of_map_to_list]. }
  apply Hall in Hin. by apply grounded_b_sound.
Qed.

(** Engines made by the builder, and what the driver makes of them, are
    reachable. *)
Lemma reachable_add_rows {Args : Type} rv (rows : list (N * Transition (Args:=Args))) e :
  reachable rv e → reachable rv (add_rows rows e).
Proof.
  revert e. induction rows as [| [state t] rows IH]; intros e He; [done |].
  apply IH. by apply reach_addTransition.
Qed.

Lemma reachable_build rv states rows start error stops e :
  build states rows start error stops = Ok e → reachable rv e.
Proof.
  unfold build. intros H.
  destruct (setStartState start _) as [f |] eqn:E; cbn [mbind Result_bind] in H;
    [| discriminate H].
  destruct (setErrorState error f) as [[r1 e1] |] eqn:E1; cbn [mbind Result_bind] in H;
    [| discriminate H].
  destruct (addStopStates stops e1) as [[r2 e2] |] eqn:E2; cbn [mbind Result_bind] in H;
    [| discriminate H].
  injection H as <-.
  apply (reach_addStopStates rv stops e1 r2 e2); [| done].
  apply (reach_setErrorState rv error f r1 e1); [| done].
  apply (reach_setStartState rv start
           (add_rows rows (snd (addStates states (FsmBase_new false)))) f); [| exact E].
  apply (reachable_add_rows rv rows). apply reach_addStates. apply reach_new.
Qed.

Lemma reachable_drive {Args : Type} rv (n : nat) (e : FsmBase (Args:=Args)) taken e' :
  reachable rv e → drive rv n e = Ok (taken, e') → reachable rv e'.
Proof.
  revert e taken e'. induction n as [| n IH]; intros e taken e' He H; cbn [drive] in H.
  - by injection H as <- <-.
  - destruct (step rv e) as [[r e1] |] eqn:Hstep; cbn [mbind Result_bind] in H;
      [| discriminate H].
    assert (He1 : reachable rv e1) by (by apply (reach_step rv e r e1)).
    destruct (m_events e) as [| x rest].
    + destruct (drive rv n e1) as [[taken' e2] |] eqn:Hd; cbn [mbind Result_bind] in H;
        [| discriminate H].
      injection H as <- <-. by apply (IH e1 taken' e2).
    + destruct (drive rv n e1) as [[taken' e2] |] eqn:Hd; cbn [mbind Result_bind] in H;
        [| discriminate H].
      injection H as <- <-. by apply (IH e1 taken' e2).
Qed.

Lemma S2_faulted_reachable : reachable false S2_faulted.
Proof.
  apply (reach_step false S2_raised Fault S2_faulted); [| vm_compute; reflexivity].
  assert (H2 : reachable false S2).
  { apply (reachable_build false
             [mkState 1 0 (Some succeed); mkState 2 0 (Some fail); mkState 3 0 (Some succeed)]
             [(1, row tick 2); (2, row tick 3); (3, row tick 1)] 1 3 [3]).
    vm_compute. reflexivity. }
  assert (H3 : reachable false (engine_of (start true S2))).
  { apply (reach_start false true S2); [exact H2 | vm_compute; reflexivity]. }
  apply (reach_raise false tick 42 (engine_of (start true S2)) true S2_raised);
    [exact H3 | vm_compute; reflexivity].
Qed.

Lemma S5_drained_reachable : reachable false S5_drained.
Proof.
  assert (H5 : reachable false S5).
  { apply (reachable_build false
             [mkState 1 0 (Some succeed); mkState 2 0 (Some (chain 2));
              mkState 3 0 (Some succeed)]
             [(1, row 1 2); (1, row 2 1); (1, row 3 1);
              (2, row 1 2); (2, row 2 3); (2, row 3 1);
              (3, row 1 3); (3, row 2 3); (3, row 3 3)] 1 1 [3]).
    vm_compute. reflexivity. }
  assert (Hs : reachable false (engine_of (start true S5))).
  { apply (reach_start false true S5); [exact H5 | vm_compute; reflexivity]. }
  assert (Hf : reachable false S5_first).
  { apply (reach_raise false 1 10 (engine_of (start true S5)) true S5_first);
      [exact Hs | vm_compute; reflexivity]. }
  assert (Hr : reachable false S5_raised).
  { apply (reach_raise false 3 30 S5_first true S5_raised);
      [exact Hf | vm_compute; reflexivity]. }
  apply (reachable_drive false 3 S5_raised [(1, 10); (2, 10); (3, 30)] S5_drained);
    [exact Hr | vm_compute; reflexivity].
Qed.

Example further_engines_defined :
  S1_started_run = Ok S1_started ∧
  S1_raised_run = Ok S1_raised ∧
  S1_yellow_run = Ok S1_yellow ∧
  S1_red_run = Ok S1_red ∧
  S5_stepped_run = Ok S5_stepped ∧
  S7_run = Ok S7 ∧
  S7_raised_run = Ok S7_raised ∧
  S7_stepped_run = Ok S7_stepped.
Proof. do 7 (split; [vm_compute; reflexivity |]). vm_compute. reflexivity. Qed.

(** X1 at the traffic light: a second row for G on [tick] leaves the row
    of Y alone. *)
Lemma rows_are_independent_witness :
  (2, tick) ≠ (1, m_event (row tick 3)) ∧
  m_stt (snd (addTransition 1 (row tick 3) S1)) !! SttIndex 2 tick =
  m_stt S1 !! SttIndex 2 tick.
Proof.
  assert (Hne : (2, tick) ≠ (1, m_event (row tick 3))) by (intros H; inversion H).
  split; [exact Hne |].
  apply (rows_are_independent 1 (row tick 3) 2 tick S1);
    [vm_compute; reflexivity | vm_compute; reflexivity | vm_compute; reflexivity
    | vm_compute; reflexivity | exact Hne].
Defined.

(** X3 at the traffic light: the row of G survives a second row for G. *)
Lemma rows_are_never_replaced_witness :
  m_stt S1 !! SttIndex 1 tick = Some (row tick 2) ∧
  m_stt (add_rows [(1, row tick 3)] S1) !! SttIndex 1 tick = Some (row tick 2) ∧
  ∀ state t, SttIndex state (m_event t) = SttIndex 1 tick →
    fst (addTransition state t (add_rows [(1, row tick 3)] S1)) = false ∧
    m_stt (snd (addTransition state t (add_rows [(1, row tick 3)] S1))) =
    m_stt (add_rows [(1, row tick 3)] S1).
Proof.
  assert (H : m_stt S1 !! SttIndex 1 tick = Some (row tick 2)) by (vm_compute; reflexivity).
  split; [exact H |].
  exact (rows_are_never_replaced [(1, row tick 3)] S1 (SttIndex 1 tick) (row tick 2) H).
Defined.

(** X4 at S5: three steps of the driver. *)
Lemma step_keeps_configuration_witness :
  drive false 3 S5_raised = Ok ([(1, 10); (2, 10); (3, 30)], S5_drained) ∧
  same_configuration S5_raised S5_drained.
Proof.
  assert (H : drive false 3 S5_raised = Ok ([(1, 10); (2, 10); (3, 30)], S5_drained))
    by (vm_compute; reflexivity).
  split; [exact H |].
  exact (step_keeps_configuration false 3 S5_raised _ S5_drained H).
Defined.

(** X5 at the traffic light: the batch with the unregistered id 9 fails. *)
Lemma addStopStates_verdict_witness :
  addStopStates [1; 9] S1 = Ok (false, S1) ∧
  ((false = false ∧ S1 = S1 ∧ ∃ id, id ∈ [1; 9] ∧ m_states S1 !! id = None) ∨
   (false = true ∧
    ∃ added, Forall2 (fun id s => m_states S1 !! id = Some (Some s)) [1; 9] added ∧
             S1 = set_stop_states (m_stop_states S1 ++ added) S1)).
Proof.
  assert (H : addStopStates [1; 9] S1 = Ok (false, S1)) by (vm_compute; reflexivity).
  split; [exact H |].
  exact (addStopStates_verdict [1; 9] S1 false S1 H).
Defined.

(** X6 at S2 after its fault. *)
Lemma reachable_references_registered_witness :
  reachable false S2_faulted ∧ keys_match S2_faulted ∧ references_registered S2_faulted.
Proof.
  split; [exact S2_faulted_reachable |].
  exact (reachable_references_registered false S2_faulted S2_faulted_reachable).
Defined.

(** X7 at the traffic light, which is complete. *)
Lemma deterministic_verdict_witness :
  deterministic S1 = Ok (true, S1) ∧
  ∀ id s symbol,
    m_states S1 !! id = Some (Some s) → symbol ∈ m_alphabet S1 → hasAction s = true →
    ∃ t, lookup S1 (Some s) symbol = Ok (Some t).
Proof.
  assert (H : deterministic S1 = Ok (true, S1)) by (vm_compute; reflexivity).
  split; [exact H |].
  destruct (deterministic_verdict S1 true S1 H) as [(_ & _ & Hall) | (Hf & _)];
    [exact Hall | discriminate Hf].
Defined.

(** X8 at the traffic light. *)
Lemma checked_start_guarantees_witness :
  start true S1 = Ok S1_started ∧
  ((∃ s, m_start_state S1 = Some s ∧
         S1_started = set_status Running (set_current (m_id s) S1) ∧
         (m_status S1 = Running ∨ m_status S1 = Stopped) ∧
         size (m_states S1) ≠ 0%nat ∧ m_stop_states S1 ≠ [] ∧ is_Some (m_error_state S1) ∧
         ∀ id st symbol,
           m_states S1 !! id = Some (Some st) → symbol ∈ m_alphabet S1 → hasAction st = true →
           ∃ t, lookup S1 (Some st) symbol = Ok (Some t)) ∨
   (valid S1 = Ok (false, S1_started) ∧ m_status S1_started = m_status S1 ∧
    m_current S1_started = m_current S1 ∧ m_events S1_started = m_events S1)).
Proof.
  assert (H : start true S1 = Ok S1_started) by (vm_compute; reflexivity).
  split; [exact H |].
  exact (checked_start_guarantees S1 S1_started H).
Defined.

(** X9 at S3: the child has no row on [tock] and its parent has one. *)
Lemma lookup_nearest_row_witness :
  lookup S3 (Some (mkState 11 10 (Some succeed))) 4 = Ok (Some (row 4 11)) ∧
  ∀ t, Some (row 4 11) = Some t ↔ resolves S3 4 (mkState 11 10 (Some succeed)) t.
Proof.
  assert (H : lookup S3 (Some (mkState 11 10 (Some succeed))) 4 = Ok (Some (row 4 11)))
    by (vm_compute; reflexivity).
  split; [exact H |].
  exact (lookup_nearest_row S3 (mkState 11 10 (Some succeed)) 4 (Some (row 4 11)) H).
Defined.

(** X10 at S5 with its two raised events. *)
Lemma accept_agrees_with_lookup_witness :
  states_nonnull S5_raised ∧ accept S5_raised 1 = Ok true ∧
  (true = true ↔
   m_status S5_raised = Running ∧
   ∃ cur t, m_states S5_raised !! m_current S5_raised = Some (Some cur) ∧
            lookup S5_raised (Some cur) 1 = Ok (Some t)).
Proof.
  assert (Hnn : states_nonnull S5_raised)
    by (apply states_nonnull_check; vm_compute; reflexivity).
  assert (H : accept S5_raised 1 = Ok true) by (vm_compute; reflexivity).
  split; [exact Hnn |]. split; [exact H |].
  exact (accept_agrees_with_lookup S5_raised 1 true Hnn H).
Defined.

(** X11 at S7: the handler of the destination halts the engine. *)
Lemma step_changed_enters_destination_witness :
  status_latched S7_raised ∧
  step false S7_raised = Ok (StateChanged, S7_stepped) ∧
  m_status S7_stepped = Stopped ∧
  ∃ event args rest cur t dst h,
    m_events S7_raised = (event, args) :: rest ∧ m_status S7_raised = Running ∧
    m_states S7_raised !! m_current S7_raised = Some cur ∧
    lookup S7_raised cur event = Ok (Some t) ∧
    m_states S7_raised !! m_next t = Some (Some dst) ∧ m_action dst = Some h ∧
    returned (h args) = true ∧
    m_current S7_stepped = m_next t ∧
    ((CallHalt ∈ requests (h args) ∧ m_status S7_stepped = Stopped) ∨
     ((CallHalt ∉ requests (h args)) ∧ m_status S7_stepped = Running)) ∧
    m_in_transition S7_stepped = false ∧
    history S7_stepped = history S7_raised ++ [WatchdogReset; Action (m_id dst) args] ++
                 (if isStopState S7_raised (m_next t) then [StopSignal] else []).
Proof.
  assert (Hl : status_latched S7_raised) by (right; left; vm_compute; reflexivity).
  assert (H : step false S7_raised = Ok (StateChanged, S7_stepped))
    by (vm_compute; reflexivity).
  split; [exact Hl |]. split; [exact H |]. split; [vm_compute; reflexivity |].
  exact (step_changed_enters_destination false S7_raised S7_stepped Hl H).
Defined.

(** X12 at S7: the handler of state 2 raises a record, which goes to the
    back, and requests a transition, which goes to the front. *)
Lemma step_adds_at_most_one_record_witness :
  step false S7_raised = Ok (StateChanged, S7_stepped) ∧
  m_events S7_raised = [(1, 10); (3, 30)] ∧
  m_events S7_stepped = [(2, 10); (3, 30); (1, 10)] ∧
  m_in_transition S7_stepped = false ∧
  ∃ pre post, m_events S7_stepped = pre ++ [(3, 30)] ++ post ∧
    (pre = [] ∨ m_in_transition S7_raised = false ∧ ∃ record, pre = [record]) ∧
    (m_status S7_raised ≠ Running → pre = [] ∧ post = []) ∧
    (∀ record, record ∈ post → requested S7_raised 10 (CallRaise record.1 record.2)).
Proof.
  assert (H : step false S7_raised = Ok (StateChanged, S7_stepped))
    by (vm_compute; reflexivity).
  assert (Hq : m_events S7_raised = [(1, 10); (3, 30)]) by (vm_compute; reflexivity).
  split; [exact H |]. split; [exact Hq |]. split; [vm_compute; reflexivity |].
  exact (step_adds_at_most_one_record false S7_raised StateChanged S7_stepped
           (1, 10) [(3, 30)] H Hq).
Defined.

(** X13 at S5: the accepted request sets the flag. *)
Lemma transition_rejects_second_witness :
  transition 2 10 S5_raised = Ok (true, S5_pushed) ∧
  m_in_transition S5_pushed = true ∧
  (∀ event' args' r e2,
     transition event' args' S5_pushed = Ok (r, e2) → r = false ∧ e2 = S5_pushed) ∧
  (∀ r e2, step false S5_pushed = Ok (r, e2) → m_in_transition e2 = false).
Proof.
  assert (H : transition 2 10 S5_raised = Ok (true, S5_pushed)) by (vm_compute; reflexivity).
  split; [exact H |].
  exact (transition_rejects_second false 2 10 S5_raised S5_pushed H).
Defined.

(** X15 at the halted traffic light: two steps take the one queued record. *)
Lemma stopped_engine_drains_queue_witness :
  m_status S1_halted ≠ Running ∧
  ∃ e', drive false 2 S1_halted = Ok (take 2 (m_events S1_halted), e') ∧
        m_events e' = drop 2 (m_events S1_halted) ∧
        m_status e' = m_status S1_halted ∧ m_current e' = m_current S1_halted ∧
        history e' = history S1_halted ++
                     replicate (2 `min` length (m_events S1_halted)) WatchdogReset.
Proof.
  assert (Hst : m_status S1_halted ≠ Running) by (vm_compute; discriminate).
  split; [exact Hst |].
  exact (stopped_engine_drains_queue false 2 S1_halted Hst).
Defined.

(** X16 at the traffic light: the second step enters the stop state R. *)
Lemma stop_after_stop_state_witness :
  step false S1_yellow = Ok (StateChanged, S1_red) ∧
  isStopState S1_red (m_current S1_red) = true ∧
  last (history S1_red) = Some StopSignal ∧
  stop true S1_red = Ok (true, set_status Stopped S1_red).
Proof.
  assert (Hl : status_latched S1_yellow) by (right; left; vm_compute; reflexivity).
  assert (Hr : reachable false S1_yellow).
  { assert (H1 : reachable false S1).
    { apply (reachable_build false
               [mkState 1 0 (Some succeed); mkState 2 0 (Some succeed);
                mkState 3 0 (Some succeed)]
               [(1, row tick 2); (2, row tick 3); (3, row tick 1)] 1 1 [3]).
      vm_compute. reflexivity. }
    assert (H2 : reachable false S1_started).
    { apply (reach_start false true S1); [exact H1 | vm_compute; reflexivity]. }
    assert (H3 : reachable false (engine_of (raise tick 5 S1_started ≫= λ p, Ok (snd p)))).
    { apply (reach_raise false tick 5 S1_started true); [exact H2 | vm_compute; reflexivity]. }
    assert (H4 : reachable false S1_raised).
    { apply (reach_raise false tick 6
               (engine_of (raise tick 5 S1_started ≫= λ p, Ok (snd p))) true);
        [exact H3 | vm_compute; reflexivity]. }
    apply (reach_step false S1_raised StateChanged); [exact H4 | vm_compute; reflexivity]. }
  assert (Hk : keys_match S1_yellow) by (apply (reachable_referenced false), Hr).
  assert (He : is_Some (m_error_state S1_yellow)) by (eexists; vm_compute; reflexivity).
  assert (H : step false S1_yellow = Ok (StateChanged, S1_red)) by (vm_compute; reflexivity).
  assert (Hs : isStopState S1_red (m_current S1_red) = true) by (vm_compute; reflexivity).
  split; [exact H |]. split; [exact Hs |].
  exact (stop_after_stop_state false true S1_yellow S1_red Hl Hk He H Hs).
Defined.

(** X17 at S2 after its fault. *)
Lemma error_status_persists_witness :
  m_status S2_faulted = Error ∧
  halt S2_faulted = S2_faulted ∧
  start true S2_faulted = Ok S2_faulted ∧
  (∀ n, ∃ taken e', drive false n S2_faulted = Ok (taken, e') ∧ m_status e' = Error) ∧
  (∀ s, m_start_state S2_faulted = Some s →
        start false S2_faulted =
        Ok (set_status Running (set_current (m_id s) S2_faulted))) ∧
  m_status (assign S2_faulted S1) = Stopped.
Proof.
  assert (H : m_status S2_faulted = Error) by (vm_compute; reflexivity).
  destruct (error_status_persists false S2_faulted H)
    as (Hhalt & _ & _ & _ & _ & Hstart & Hdrive & _ & _ & _ & _ & _ & _ & _ & _ &
        Hunchecked & Hassign).
  split; [exact H |]. split; [exact Hhalt |]. split; [exact Hstart |].
  split; [exact Hdrive |]. split; [exact Hunchecked |].
  destruct (Hassign S1) as [-> _]. vm_compute. reflexivity.
Defined.

(** X24 at the traffic light, whose handlers make no calls: a fresh engine
    that took the members of the started light. *)
Lemma copy_steps_like_original_witness :
  quiet S1_raised ∧
  ∃ e2 new,
    step false (copy (FsmBase_new false) S1_raised) = Ok (StateChanged, e2) ∧
    copy e2 S1_yellow = e2 ∧ m_alphabet e2 = m_alphabet (FsmBase_new (Args:=N) false) ∧
    history S1_yellow = history S1_raised ++ new ∧
    history e2 = history (FsmBase_new (Args:=N) false) ++ new.
Proof.
  assert (Hq : quiet S1_raised).
  { apply quiet_check. vm_compute. repeat (constructor; [reflexivity |]). constructor. }
  split; [exact Hq |].
  pose proof (copy_steps_like_original false (FsmBase_new false) S1_raised Hq) as H.
  assert (Hstep : step false S1_raised = Ok (StateChanged, S1_yellow))
    by (vm_compute; reflexivity).
  rewrite Hstep in H. exact H.
Defined.

(** X21 at S2 after its fault. *)
Lemma reachable_latched_witness :
  reachable false S2_faulted ∧ status_latched S2_faulted.
Proof.
  split; [exact S2_faulted_reachable |].
  exact (reachable_latched false S2_faulted S2_faulted_reachable).
Defined.

(** X22 at S5 after three steps. *)
Lemma reachable_nonnull_witness :
  reachable false S5_drained ∧ states_nonnull S5_drained.
Proof.
  split; [exact S5_drained_reachable |].
  exact (reachable_nonnull false S5_drained S5_drained_reachable).
Defined.

(** X23 at S5 with its two raised events. *)
Lemma step_defined_witness :
  stt_closed S5_raised ∧ chains_grounded S5_raised ∧
  ∃ r e', step false S5_raised = Ok (r, e').
Proof.
  assert (Hc : stt_closed S5_raised) by (apply stt_closed_check; vm_compute; reflexivity).
  assert (Hg : chains_grounded S5_raised)
    by (apply chains_grounded_check; vm_compute; reflexivity).
  split; [exact Hc |]. split; [exact Hg |].
  apply (step_defined false S5_raised Hc Hg).
  - eexists. split; [vm_compute; reflexivity | eexists; reflexivity].
  - intros _ event args rest Hq.
    assert (Hev : m_events S5_raised = [(1, 10); (3, 30)]) by (vm_compute; reflexivity).
    rewrite Hev in Hq. injection Hq as <- <- <-.
    eexists. eexists. split; vm_compute; reflexivity.
Defined.

End Instances.
